(** * ShikshaVani content pipeline: a shallow embedding of its Python sources

    The development follows the repository file by file.  Python values are
    modelled as the interpreter has them: a [str] is a list of Unicode code
    points, a JSON document is a tagged union, the file system is a finite
    map from paths to nodes, and every call into a third-party service
    (the generative-language SDK, gTTS, moviepy, the wall clock) is an
    explicit oracle, so that a property is proved for every behaviour of
    the service. *)

From Stdlib Require Import ZArith QArith Qround List String Ascii Lia Bool.
From Stdlib Require Import Sorting.Sorted.
From Stdlib Require Import Floats.PrimFloat Floats.FloatOps Floats.SpecFloat.
From Stdlib Require Import Floats.FloatAxioms.
From Equations Require Import Equations.
From stdpp Require Import base option list relations gmap strings pretty.

Set Warnings "-register-all".

Local Open Scope nat_scope.
Local Open Scope list_scope.

(** ** Python strings *)

Module PyStr.

(** A Python [str] is a sequence of code points. *)
Abbreviation pystr := (list N).

(** An ASCII literal as a Python string. *)
Definition py (s : string) : list N :=
  map N_of_ascii (list_ascii_of_string s).

(** [str.isspace] on one code point, the table [str.strip] consults. *)
Definition py_isspace (c : N) : bool :=
  ((9 <=? c) && (c <=? 13) || (28 <=? c) && (c <=? 32)
   || (c =? 133) || (c =? 160) || (c =? 5760)
   || (8192 <=? c) && (c <=? 8202)
   || (c =? 8232) || (c =? 8233) || (c =? 8239) || (c =? 8287)
   || (c =? 12288))%N.

Fixpoint lstrip (s : list N) : list N :=
  match s with
  | c :: r => if py_isspace c then lstrip r else s
  | [] => []
  end.

Definition rstrip (s : list N) : list N := reverse (lstrip (reverse s)).

(** [s.strip()] *)
Definition strip (s : list N) : list N := rstrip (lstrip s).

(** [p] is what [s] starts with. *)
Fixpoint starts_with (p s : list N) : bool :=
  match p, s with
  | [], _ => true
  | a :: p', b :: s' => (a =? b)%N && starts_with p' s'
  | _ :: _, [] => false
  end.

(** The alternative of [a1|a2|...] that matches at the head of [s]:
    Python's alternation is ordered, the first alternative that matches
    wins. *)
Fixpoint first_alt (alts : list (list N)) (s : list N) : option (list N) :=
  match alts with
  | [] => None
  | a :: rest => if starts_with a s then Some a else first_alt rest s
  end.

(** [re.sub(a1|a2|..., "", s)] for literal alternatives: scan from the
    left; where an alternative matches, drop it and resume after it; where
    none does, keep the character.  An empty match replaces nothing. *)
Equations? re_sub_lits (alts : list (list N)) (s : list N) : list N
  by wf (length s) lt :=
  re_sub_lits alts [] := [];
  re_sub_lits alts (c :: r) :=
    match first_alt alts (c :: r) with
    | Some (_ :: m) => re_sub_lits alts (drop (length m) r)
    | _ => c :: re_sub_lits alts r
    end.
Proof.
  all: simpl; try lia.
  rewrite length_drop. lia.
Qed.

End PyStr.
Import PyStr.

(** ** d3_generator.py and script_generation.py: cleaning an LLM response *)

Definition fence : list N := py "```".
Definition fence_html : list N := py "```html".
Definition fence_json : list N := py "```json".

(** d3_generator.py, [clean_response].  The pattern [```(html)?] has a
    greedy optional group, which is the ordered alternation
    [```html|```].  [re.sub] and [str.strip] do not raise on a [str], so
    the handler is never entered. *)
Definition clean_response (text : list N) : list N :=
  let text := re_sub_lits [fence_html; fence] text in
  let text := re_sub_lits [fence] text in
  strip text.

(** script_generation.py, [clean_json]. *)
Definition clean_json (text : list N) : list N :=
  re_sub_lits [fence_json; fence] (strip text).


(** What cleaning is allowed to do to a response. *)

(** One occurrence of a marker is deleted. *)
Definition erase_step (marks : list (list N)) (s t : list N) : Prop :=
  ∃ a m b, m ∈ marks ∧ s = a ++ m ++ b ∧ t = a ++ b.

(** [t] is [s] with occurrences of markers deleted, and nothing else. *)
Definition removes_only (marks : list (list N)) : relation (list N) :=
  rtc (erase_step marks).

(** [t] is [s] without some whitespace at its two ends. *)
Definition trimmed (s t : list N) : Prop :=
  ∃ l r, s = l ++ t ++ r ∧
         Forall (λ c, py_isspace c = true) l ∧
         Forall (λ c, py_isspace c = true) r.

(** The markers the two cleaners know between them. *)
Definition fence_markers : list (list N) := [fence_html; fence_json; fence].

(** ** The result of a call *)

(** A value, or an exception with its message. *)
Inductive outcome (T : Type) : Type :=
| Returned (v : T)
| Raised (exc : list N).
Arguments Returned {T} v.
Arguments Raised {T} exc.

(** ** Python floats

    The sources compute with [float]: a quotient, a product, a
    difference, a comparison, and [int()] of the result, which raises
    on an infinity and on NaN.  The operations are an interface, with
    two implementations: IEEE-754 binary64, which is what CPython runs,
    and exact rational arithmetic.  General properties are proved from
    the order laws below; both implementations obey them
    ([binary64_laws], [exact_float_laws]). *)

Class PyFloat : Type := {
  float_t : Type;
  of_int : Z → float_t;                  (* float(n) *)
  fdiv : float_t → float_t → float_t;    (* x / y *)
  fmul : float_t → float_t → float_t;    (* x * y *)
  fsub : float_t → float_t → float_t;    (* x - y *)
  fltb : float_t → float_t → bool;       (* x < y *)
  to_int : float_t → outcome Z           (* int(x): truncation to zero *)
}.

(** [x <= y], as [not (y < x)]; it holds when either side is NaN. *)
Definition fle `{PyFloat} (x y : float_t) : Prop := fltb y x = false.

(** The builtin [min(a, b)]: [a] unless [b < a]. *)
Definition fmin `{PyFloat} (a b : float_t) : float_t :=
  if fltb b a then b else a.

(** The laws hold of every value, the infinities and NaN included: a
    comparison with NaN is false, so that [fle] holds of it on either
    side, and [int()] returns on finite values only. *)
Class PyFloatLaws (A : PyFloat) : Prop := {
  flt_asym x y : fltb x y = true → fltb y x = false;
  flt_trans x y z : fltb x y = true → fltb y z = true → fltb x z = true;
  of_int_mono a b : (0 <= a <= b)%Z → fle (of_int a) (of_int b);
  of_int_pos n : (0 < n)%Z → fltb (of_int 0) (of_int n) = true;
  fdiv_mono x y d :
    fltb (of_int 0) d = true → fle (of_int 0) x → fle x y →
    fle (fdiv x d) (fdiv y d);
  fmul_mono_l c x y :
    fle (of_int 0) c → fle (of_int 0) x → fle x y →
    fle (fmul c x) (fmul c y);
  fmul_mono_r c x y :
    fle (of_int 0) c → fle (of_int 0) x → fle x y →
    fle (fmul x c) (fmul y c);
  fdiv_nonneg x d :
    fltb (of_int 0) d = true → fle (of_int 0) x → fle (of_int 0) (fdiv x d);
  fmul_nonneg x y :
    fle (of_int 0) x → fle (of_int 0) y → fle (of_int 0) (fmul x y);
  to_int_mono x y a b :
    fle (of_int 0) x → fle x y →
    to_int x = Returned a → to_int y = Returned b → (a <= b)%Z;
  to_int_zero : to_int (of_int 0) = Returned 0%Z
}.

(** Exact arithmetic on rationals. *)
Definition Qtrunc (q : Q) : Z :=
  if Qle_bool 0 q then Qfloor q else Qceiling q.

Definition exact_float : PyFloat := {|
  float_t := Q;
  of_int := inject_Z;
  fdiv := Qdiv;
  fmul := Qmult;
  fsub := Qminus;
  fltb := λ x y, negb (Qle_bool y x);
  to_int := λ x, Returned (Qtrunc x)
|}.

(** *** IEEE-754 binary64

    The operations are those of the kernel's floats, which the
    standard library specifies by [SpecFloat]: a finite value is a
    mantissa and an exponent, and an operation rounds its exact result
    with [binary_round_aux].  The definitions below describe that
    rounding; the laws are proved from them. *)

Section RoundingModel.
  Local Open Scope Z_scope.
  Variables prec emax : Z.

  (** Where the quotient [n / d] lies with respect to the integer [m]:
      on it, in the lower half of [m, m + 1], on the middle, or in the
      upper half, as the round and sticky bits [r] and [s] say. *)
Definition located (m : Z) (r s : bool) (n d : Z) : Prop :=
    match r, s with
    | false, false => n = m * d
    | false, true => m * d < n ∧ 2 * n < (2 * m + 1) * d
    | true, false => 2 * n = (2 * m + 1) * d
    | true, true => (2 * m + 1) * d < 2 * n ∧ n < (m + 1) * d
    end.

Definition located_rec (mrs : shr_record) (n d : Z) : Prop :=
    located (shr_m mrs) (shr_r mrs) (shr_s mrs) n d.

  (** The end of [binary_round_aux]: the rounded mantissa is brought
      back to [prec] digits, and too large an exponent overflows. *)
Definition finish (sx : bool) (m e : Z) : spec_float :=
    let '(mrs, e') := shr_fexp prec emax m e loc_Exact in
    match shr_m mrs with
    | Z0 => S754_zero sx
    | Zpos m' =>
        if e' <=? emax - prec then S754_finite sx m' e' else S754_infinity sx
    | Zneg _ => S754_nan
    end.

  (** A finite value counted in units of the smallest positive one,
      [2 ^ emin]; the infinity stands above all of them. *)
Definition units (m : positive) (e : Z) : Z :=
    Zpos m * 2 ^ (e - emin prec emax).

Definition top : Z := 2 ^ (emax - emin prec emax).

Definition arank (x : spec_float) : Z :=
    match x with
    | S754_zero _ => 0
    | S754_infinity _ => top
    | S754_finite _ m e => units m e
    | S754_nan => 0
    end.

  (** Zero, a positive value, or NaN excluded: the values [0 <= x]
      holds of, NaN apart. *)
Definition not_negative (x : spec_float) : Prop :=
    match x with
    | S754_zero _ => True
    | S754_infinity s | S754_finite s _ _ => s = false
    | S754_nan => False
    end.

  (** The value [n / d * 2 ^ e] is rounded at the exponent [e], which is
      the exponent of its binade, to the mantissa [m2]. *)
Definition rounds_at (n d e m2 : Z) : Prop :=
    ∃ mrs,
      located_rec mrs n d ∧ 0 < d
      ∧ 0 <= shr_m mrs < 2 ^ prec
      ∧ emin prec emax <= e
      ∧ (emin prec emax < e → 2 ^ (prec - 1) <= shr_m mrs)
      ∧ m2 = round_nearest_even (shr_m mrs) (loc_of_shr_record mrs).

  (** The same count with its sign, of any value but NaN. *)
Definition srank (x : spec_float) : Z :=
    match x with
    | S754_zero _ => 0
    | S754_infinity s => if s then - top else top
    | S754_finite s m e => if s then - units m e else units m e
    | S754_nan => 0
    end.

  (** [int(x)] of a finite value: the truncation of [m * 2 ^ e]. *)
Definition truncated (s : bool) (m : positive) (e : Z) : Z :=
    let mag := match e with
               | Zneg p => Z.shiftr (Zpos m) (Zpos p)
               | _ => Z.shiftl (Zpos m) e
               end in
    if s then - mag else mag.

  (** [r] is the rounding, with the sign [sx], of [a / b] units. *)
Definition rounded (r : spec_float) (sx : bool) (a b : Z) : Prop :=
    ∃ n d e m2,
      r = finish sx m2 e ∧ rounds_at n d e m2 ∧ 0 < b
      ∧ n * 2 ^ (e - emin prec emax) * b = a * d.

End RoundingModel.

(** [float(n)] *)
Definition f64_of_Z (z : Z) : float :=
  SF2Prim (binary_normalize prec emax z 0 false).

(** [int(x)]: it raises [OverflowError] on an infinity and [ValueError]
    on NaN; the exception is given by its message. *)
Definition f64_to_Z (x : float) : outcome Z :=
  match Prim2SF x with
  | S754_zero _ => Returned 0%Z
  | S754_finite s m e => Returned (truncated s m e)
  | S754_infinity _ => Raised (py "cannot convert float infinity to integer")
  | S754_nan => Raised (py "cannot convert float NaN to integer")
  end.

Definition binary64 : PyFloat := {|
  float_t := float;
  of_int := f64_of_Z;
  fdiv := PrimFloat.div;
  fmul := PrimFloat.mul;
  fsub := PrimFloat.sub;
  fltb := PrimFloat.ltb;
  to_int := f64_to_Z
|}.

(** ** text_animation.py *)

(** [range(n)] *)
Definition py_range (n : Z) : list Z := seqZ 0 n.

(** [s[:k]]: a negative bound counts from the end. *)
Definition slice_to {T : Type} (k : Z) (s : list T) : list T :=
  if (k <? 0)%Z then take (Z.to_nat (Z.of_nat (length s) + k)) s
  else take (Z.to_nat k) s.

Definition FPS : Z := 24.

Section ScrollingFrames.
  Context {A : PyFloat} {frame : Type}.

  (** [create_text_frame] followed by [cv2.cvtColor]: the drawing of one
      sub-text on a frame of the given size, done by PIL and OpenCV,
      which may raise. *)
  Variable render : list N → Z * Z → outcome frame.

  (** [int(full_length * min(i / total_frames, 1.0))] *)
Definition chars_to_show (full_length i total_frames : Z) : outcome Z :=
    let fraction := fmin (fdiv (of_int i) (of_int total_frames)) (of_int 1) in
    to_int (fmul (of_int full_length) fraction).

  (** [int(duration * fps)] *)
Definition total_frames (duration : float_t) (fps : Z) : outcome Z :=
    to_int (fmul duration (of_int fps)).

  (** The [for] loop over the indices still to come: an exception
      leaves the loop and the function. *)
Fixpoint frames_loop (text : list N) (frame_size : Z * Z)
      (total_frames : Z) (indices : list Z) : outcome (list frame) :=
    match indices with
    | [] => Returned []
    | i :: rest =>
        match chars_to_show (Z.of_nat (length text)) i total_frames with
        | Raised exc => Raised exc
        | Returned chars_to_show =>
            let subtext := slice_to chars_to_show text in
            match render subtext frame_size with
            | Raised exc => Raised exc
            | Returned frame_rgb =>
                match frames_loop text frame_size total_frames rest with
                | Raised exc => Raised exc
                | Returned frames => Returned (frame_rgb :: frames)
                end
            end
        end
    end.

Definition generate_scrolling_frames
      (text : list N) (frame_size : Z * Z) (duration : float_t) (fps : Z)
      : outcome (list frame) :=
    match to_int (fmul duration (of_int fps)) with
    | Raised exc => Raised exc
    | Returned total_frames =>
        frames_loop text frame_size total_frames (py_range total_frames)
    end.

End ScrollingFrames.

(** ** main.py: the browser UI and its simulated progress *)

(** The module-level dictionary [generation_status]. *)
Record status : Type := Status {
  in_progress : bool;
  completed : bool;
  topic : option (list N);
  progress : Z;
  message : list N;
  start_time : option Z      (* a [datetime], in microseconds *)
}.

Definition generation_status : status :=
  Status false false None 0 [] None.

(** One assignment [generation_status[key] = value]. *)
Inductive write : Type :=
| SetInProgress (b : bool)
| SetCompleted (b : bool)
| SetTopic (t : list N)
| SetProgress (p : Z)
| SetMessage (m : list N)
| SetStartTime (t : Z).

Definition store (g : status) (w : write) : status :=
  match w with
  | SetInProgress b =>
      Status b (completed g) (topic g) (progress g) (message g) (start_time g)
  | SetCompleted b =>
      Status (in_progress g) b (topic g) (progress g) (message g)
        (start_time g)
  | SetTopic t =>
      Status (in_progress g) (completed g) (Some t) (progress g) (message g)
        (start_time g)
  | SetProgress p =>
      Status (in_progress g) (completed g) (topic g) p (message g)
        (start_time g)
  | SetMessage m =>
      Status (in_progress g) (completed g) (topic g) (progress g) m
        (start_time g)
  | SetStartTime t =>
      Status (in_progress g) (completed g) (topic g) (progress g) (message g)
        (Some t)
  end.

(** The dictionary after a sequence of assignments. *)
Definition replay (g : status) (ws : list write) : status :=
  fold_left store ws g.

(** The values assigned to [generation_status['progress']], in order. *)
Definition progress_updates (ws : list write) : list Z :=
  omap (λ w, match w with SetProgress p => Some p | _ => None end) ws.

Section Simulation.
  Context {A : PyFloat}.

  (** [(now - start).total_seconds()], both in microseconds.  The
      difference of two [datetime] values is below [2 ^ 60]
      microseconds, far from where the conversion would overflow. *)
Definition total_seconds (start now : Z) : float_t :=
    fdiv (of_int (now - start)) (of_int 1000000).

  (** [min(100, int((elapsed / 120) * 100))] *)
Definition progress_of (elapsed : float_t) : outcome Z :=
    match to_int (fmul (fdiv elapsed (of_int 120)) (of_int 100)) with
    | Returned percent => Returned (Z.min 100 percent)
    | Raised exc => Raised exc
    end.

Definition stage_message (progress : Z) : list N :=
    if (progress <? 30)%Z then py "Preparing content..."
    else if (progress <? 60)%Z then py "Generating visuals..."
    else if (progress <? 90)%Z then py "Rendering video..."
    else py "Finalizing output...".

  (** One pass through the body of the [while] loop, given the reading
      of the clock it takes: the assignments it makes, or the exception
      of [int()], raised before any of them. *)
Definition loop_body (start now : Z) : outcome (list write) :=
    let elapsed := total_seconds start now in
    match progress_of elapsed with
    | Returned progress =>
        Returned
          [ SetProgress progress;
            SetMessage (py "Simulating generation (" ++ py (pretty progress)
                        ++ py "%)");
            SetMessage (stage_message progress) ]
    | Raised exc => Raised exc
    end.

  (** How a run stands when the readings of the clock run out: still
      inside the loop, returned after the loop was left, or returned
      through the handler of the exception whose message is given. *)
Inductive ending : Type :=
  | Unfinished
  | Completed
  | Failed (message : list N).

  (** The [while] loop over the successive readings of [datetime.now()]:
      one for the test and one for the body.  The result says how the
      loop ended, and lists the assignments made. *)
Fixpoint simulate_loop (start : Z) (clock : list Z) : ending * list write :=
    match clock with
    | [] => (Unfinished, [])
    | t_test :: clock' =>
        if fltb (total_seconds start t_test) (of_int 120) then
          match clock' with
          | [] => (Unfinished, [])
          | t_body :: clock'' =>
              match loop_body start t_body with
              | Returned ws1 =>
                  let '(ended, ws) := simulate_loop start clock'' in
                  (ended, ws1 ++ ws)
              | Raised exc => (Failed exc, [])
              end
          end
        else (Completed, [])
    end.

  (** [simulate_generation(topic)]: how it ended, and the assignments it
      made.  An exception raised in the loop is caught: the handler
      records its message, and [finally] clears [in_progress]. *)
Definition simulate_generation (topic : list N) (clock : list Z)
      : ending * list write :=
    let prologue :=
      [ SetInProgress true; SetCompleted false; SetTopic topic;
        SetProgress 0; SetMessage (py "Starting simulation...") ] in
    match clock with
    | [] => (Unfinished, prologue)
    | start :: clock' =>
        let '(ended, ws) := simulate_loop start clock' in
        match ended with
        | Completed =>
            (Completed,
             prologue ++ [SetStartTime start] ++ ws
             ++ [ SetCompleted true; SetMessage (py "Simulation complete!");
                  SetProgress 100 ]
             ++ [ SetInProgress false ])
        | Failed exc =>
            (Failed exc,
             prologue ++ [SetStartTime start] ++ ws
             ++ [ SetMessage (py "Error: " ++ exc) ]
             ++ [ SetInProgress false ])
        | Unfinished => (Unfinished, prologue ++ [SetStartTime start] ++ ws)
        end
    end.

  (** *** The [/progress] event stream *)

  (** What one turn of the generator's loop sees of the shared
      dictionary: its state when [data] is built, its state when
      [completed] is tested, and the clock. *)
Record observation : Type := Observation {
    at_build : status;
    at_test : status;
    now : Z
  }.

  (** The dictionary [data] that one event serialises. *)
Record event : Type := Event {
    ev_status : list N;
    ev_progress : Z;
    ev_message : list N;
    ev_estimated_time : float_t
  }.

Definition estimated_time (g : status) (now : Z) : float_t :=
    match start_time g with
    | Some start =>
        let remaining := fsub (of_int 120) (total_seconds start now) in
        (* max(0, remaining) *)
        if fltb (of_int 0) remaining then remaining else of_int 0
    | None => of_int 120
    end.

Definition build_data (o : observation) : event :=
    let g := at_build o in
    Event (if in_progress g then py "in_progress" else py "error")
          (progress g) (message g) (estimated_time g (now o)).

Definition set_status (s : list N) (e : event) : event :=
    Event s (ev_progress e) (ev_message e) (ev_estimated_time e).

  (** The generator of [progress()]: the events it yields over the given
      turns, and whether it has returned. *)
Fixpoint progress_stream (obs : list observation) : list event * bool :=
    match obs with
    | [] => ([], false)
    | o :: rest =>
        let data := build_data o in
        if completed (at_test o) then
          ([set_status (py "completed") data], true)
        else
          let '(evs, returned) := progress_stream rest in
          (data :: evs, returned)
    end.

End Simulation.

(** ** Python values read from JSON *)

Inductive json : Type :=
| JNull
| JBool (b : bool)
| JNum (q : Q)            (* an [int] or a [float], by its value *)
| JStr (s : list N)
| JList (items : list json)
| JObj (fields : list (list N * json)).

(** The truth value of an object, as [if not x] tests it. *)
Definition truthy (v : json) : bool :=
  match v with
  | JNull => false
  | JBool b => b
  | JNum q => negb (Qeq_bool q 0)
  | JStr s => negb (bool_decide (s = []))
  | JList items => match items with [] => false | _ => true end
  | JObj fields => match fields with [] => false | _ => true end
  end.

(** [d.get(key)] on the fields of a dictionary. *)
Fixpoint dict_get (key : list N) (fields : list (list N * json))
    : option json :=
  match fields with
  | [] => None
  | (k, v) :: rest => if bool_decide (k = key) then Some v else dict_get key rest
  end.

(** What a [for] loop over the value visits: the items of a list, the
    characters of a string, the keys of a dictionary; other values are
    not iterable. *)
Definition iter_json (v : json) : option (list json) :=
  match v with
  | JList items => Some items
  | JStr s => Some ((λ c, JStr [c]) <$> s)
  | JObj fields => Some ((λ kv, JStr kv.1) <$> fields)
  | _ => None
  end.

(** [len(v)], where it is defined. *)
Definition py_len (v : json) : option Z :=
  match v with
  | JList items => Some (Z.of_nat (length items))
  | JStr s => Some (Z.of_nat (length s))
  | JObj fields => Some (Z.of_nat (length fields))
  | _ => None
  end.

Definition is_str (v : json) : bool :=
  match v with JStr _ => true | _ => false end.

Definition as_str (v : json) : option (list N) :=
  match v with JStr s => Some s | _ => None end.

(** ** generate_video.py and cloudrun/generate_video.py *)

(** What moviepy and the file system answer: whether a path exists, the
    duration of the clip that [VideoFileClip] opens there ([None] when
    opening or reading the duration raises), and whether composing the
    clips and writing the result succeed. *)
Record media : Type := Media {
  path_exists : list N → bool;
  clip_duration : list N → option Q;
  write_videofile : list (list N) → list N → bool
}.

(** One turn of the loop that loads the clips: the file exists, the
    clip opens, and [clip.duration > 0]. *)
Definition valid_clip (env : media) (video_path : list N) : bool :=
  path_exists env video_path &&
  match clip_duration env video_path with
  | Some duration => negb (Qle_bool duration 0)
  | None => false
  end.

Definition load_clips (env : media) (paths : list (list N))
    : list (list N) :=
  List.filter (valid_clip env) paths.

Module Local.

  (** generate_video.py, [concatenate_videos] *)
Definition concatenate_videos
      (env : media) (video_list : json) (output_path : list N)
      : outcome bool :=
    if negb (truthy video_list) then Returned false
    else
      match iter_json video_list with
      | None => Raised (py "TypeError")
      | Some items =>
          if negb (forallb is_str items) then Returned false
          else
            let clips := load_clips env (omap as_str items) in
            match clips with
            | [] => Returned false
            | _ :: _ =>
                if write_videofile env clips output_path
                then Returned true      (* written *)
                else Returned false     (* the handler of the [try] *)
            end
      end.

End Local.

Module CloudRun.

  (** cloudrun/generate_video.py, [concatenate_videos] *)
Definition concatenate_videos
      (env : media) (video_list : json) (output_path : list N)
      : outcome bool :=
    if negb (truthy video_list) then Returned false
    else
      match iter_json video_list with
      | None => Raised (py "TypeError")
      | Some items =>
          if negb (forallb is_str items) then Returned false
          else
            let clips := load_clips env (omap as_str items) in
            match clips with
            | [] => Returned false
            | _ :: _ =>
                if write_videofile env clips output_path
                then Returned true
                else Returned false
            end
      end.

  (** What the endpoint needs besides: [request.json] (a value, or the
      exception it raises), and the exceptions, if any, of
      [os.makedirs] and of the upload. *)
Record service : Type := Service {
    svc_media : media;
    makedirs_error : option (list N);
    upload_error : option (list N)
  }.

Record response : Type := Response {
    body : json;
    code : Z
  }.

Definition body_status (r : response) : option json :=
    match body r with
    | JObj fields => dict_get (py "status") fields
    | _ => None
    end.

  (** The value the endpoint tests: [data.get("video_list", [])]. *)
Definition requested_list (fields : list (list N * json)) : json :=
    default (JList []) (dict_get (py "video_list") fields).

Definition error_body (msg : list N) : json :=
    JObj [(py "status", JStr (py "error")); (py "message", JStr msg)].

  (** [upload_to_gcs]: the public URL of the uploaded object. *)
Definition upload_to_gcs
      (env : service) (local_path bucket_name destination_blob_name : list N)
      : outcome (list N) :=
    match upload_error env with
    | Some exc => Raised exc
    | None =>
        Returned (py "https://storage.googleapis.com/" ++ bucket_name
                  ++ py "/" ++ destination_blob_name)
    end.

  (** [final_video_endpoint]: every exception raised inside the [try]
      ends in the handler, which answers 500. *)
Definition final_video_endpoint (env : service) (request_json : outcome json)
      : response :=
    let handler exc := Response (error_body exc) 500 in
    match request_json with
    | Raised exc => handler exc
    | Returned data =>
        match data with
        | JObj fields =>
            let video_list := default (JList []) (dict_get (py "video_list") fields) in
            if negb (truthy video_list) then
              Response (error_body (py "No video list provided")) 400
            else
              match makedirs_error env with
              | Some exc => handler exc
              | None =>
                  let output_path := py "final_videos/complete_video.mp4" in
                  match concatenate_videos (svc_media env) video_list output_path with
                  | Raised exc => handler exc
                  | Returned success =>
                      if negb success then
                        Response (error_body (py "Video concatenation failed")) 500
                      else
                        match upload_to_gcs env output_path (py "vidpro-bucket1")
                                (py "final_video/complete_video.mp4") with
                        | Raised exc => handler exc
                        | Returned public_url =>
                            Response
                              (JObj [(py "status", JStr (py "success"));
                                     (py "url", JStr public_url)])
                              200
                        end
                  end
              end
        | _ => handler (py "AttributeError")   (* no [get] on this value *)
        end
    end.

End CloudRun.

(** ** The file system, and the calls that leave the process *)

Inductive node : Type :=
| File (content : list N)
| Dir.

(** A call made to the operating system or to a service, as it is
    logged: for a call that can fail, whether it succeeded. *)
Inductive syscall : Type :=
| SysRmtree (path : list N) (ok : bool)
| SysMakedirs (path : list N) (ok : bool)
| SysRemove (path : list N) (ok : bool)
| SysWrite (path : list N) (ok : bool)
| SysSleep (seconds : Z)
| SysTtsSave (path : list N) (ok : bool)
| SysGenAI (model prompt : list N)
| SysPopen (argv : list (list N))
| SysPool (max_workers : Z)
| SysSubmit (section_index : Z) (section : json).

(** The world a function runs in: the files, by path, and the calls
    made so far.  A directory holds the paths that extend its own path
    by a ["/"]. *)
Record world : Type := World {
  files : gmap (list N) node;
  log : list syscall
}.

(** Which calls fail for a reason of the system's own (a lock, a
    permission): the oracle answers by the position of the call in the
    log. *)
Abbreviation faults := (nat → bool).

(** The calls to the generative-language service among logged calls. *)
Definition genai_calls (evs : list syscall) : list (list N * list N) :=
  omap (λ ev, match ev with
              | SysGenAI model prompt => Some (model, prompt)
              | _ => None
              end) evs.



(** [p] is the directory [d] or lies under it. *)
Definition inside (d p : list N) : bool :=
  bool_decide (p = d) || starts_with (d ++ py "/") p.

(** [p] lies under the directory [d]. *)
Definition under (d p : list N) : bool := starts_with (d ++ py "/") p.

(** The outcomes of the attempts to remove the tree [d], in order, and
    of the attempts to remove the file [f]. *)
Definition rmtree_attempts (d : list N) (evs : list syscall) : list bool :=
  omap (λ ev, match ev with
              | SysRmtree p ok => if bool_decide (p = d) then Some ok else None
              | _ => None
              end) evs.


(** A computation that may raise and that changes the world. *)
Definition io (T : Type) : Type := world → outcome T * world.

Definition io_ret {T : Type} (v : T) : io T := λ w, (Returned v, w).

Definition io_raise {T : Type} (exc : list N) : io T := λ w, (Raised exc, w).

Definition io_lift {T : Type} (r : outcome T) : io T := λ w, (r, w).

Definition io_bind {T U : Type} (c : io T) (k : T → io U) : io U :=
  λ w, match c w with
       | (Returned v, w') => k v w'
       | (Raised exc, w') => (Raised exc, w')
       end.

(** [try: c  except Exception as e: handler e] *)
Definition io_try {T : Type} (c : io T) (handler : list N → io T) : io T :=
  λ w, match c w with
       | (Returned v, w') => (Returned v, w')
       | (Raised exc, w') => handler exc w'
       end.

#[global] Instance io_mret : MRet io := @io_ret.
#[global] Instance io_mbind : MBind io := λ T U k c, io_bind c k.

(** [for x in xs: body x] *)
Fixpoint io_for {T : Type} (xs : list T) (body : T → io unit) : io unit :=
  match xs with
  | [] => io_ret tt
  | x :: rest => body x ;; io_for rest body
  end.

Definition emit (ev : syscall) : io unit :=
  λ w, (Returned tt, World (files w) (log w ++ [ev])).

(** [os.path.exists] *)
Definition exists_ (path : list N) : io bool :=
  λ w, (Returned (match files w !! path with Some _ => true | None => false end),
        w).

(** [shutil.rmtree]: removes a directory and all that lies under it.
    A removal that fails may have removed part of the tree before it
    failed: the oracle [lost] says which paths. *)
Definition rmtree (fault : nat → bool) (lost : nat → list N → bool)
    (path : list N) : io unit :=
  λ w,
    match files w !! path with
    | Some Dir =>
        if fault (length (log w)) then
          (Raised (py "OSError"),
           World (filter (λ kv, under path kv.1 && lost (length (log w)) kv.1
                                = false)
                         (files w))
                 (log w ++ [SysRmtree path false]))
        else
          (Returned tt,
           World (filter (λ kv, inside path kv.1 = false) (files w))
                 (log w ++ [SysRmtree path true]))
    | _ =>
        (Raised (py "NotADirectoryError"),
         World (files w) (log w ++ [SysRmtree path false]))
    end.

(** [os.makedirs(path, exist_ok=True)] *)
Definition makedirs (fault : nat → bool) (path : list N) : io unit :=
  λ w,
    match files w !! path with
    | Some Dir =>
        (Returned tt, World (files w) (log w ++ [SysMakedirs path true]))
    | Some (File _) =>
        (Raised (py "FileExistsError"),
         World (files w) (log w ++ [SysMakedirs path false]))
    | None =>
        if fault (length (log w)) || bool_decide (path = []) then
          (Raised (py "OSError"),
           World (files w) (log w ++ [SysMakedirs path false]))
        else
          (Returned tt,
           World (<[path := Dir]> (files w)) (log w ++ [SysMakedirs path true]))
    end.

(** [os.remove] *)
Definition remove (fault : nat → bool) (path : list N) : io unit :=
  λ w,
    match files w !! path with
    | Some (File _) =>
        if fault (length (log w)) then
          (Raised (py "OSError"), World (files w) (log w ++ [SysRemove path false]))
        else
          (Returned tt,
           World (delete path (files w)) (log w ++ [SysRemove path true]))
    | _ =>
        (Raised (py "OSError"), World (files w) (log w ++ [SysRemove path false]))
    end.

(** [os.path.join(a, b)] for a relative [b] *)
Definition path_join (a b : list N) : list N := a ++ py "/" ++ b.

(** [os.path.dirname]: what stands before the last ["/"]. *)
Fixpoint drop_to_sep (s : list N) : list N :=
  match s with
  | [] => []
  | c :: r => if (c =? 47)%N then r else drop_to_sep r
  end.

Definition dirname (path : list N) : list N :=
  reverse (drop_to_sep (reverse path)).

(** [open(path, "w")]: what opening the file for writing raises before
    anything is written: the path is a directory, or the directory it
    lies in is missing or is a file; a path without ["/"] lies in the
    working directory. *)
Definition open_error (w : world) (path : list N) : option (list N) :=
  match files w !! path with
  | Some Dir => Some (py "IsADirectoryError")
  | _ =>
      if bool_decide (dirname path = []) then None
      else match files w !! dirname path with
           | Some Dir => None
           | Some (File _) => Some (py "NotADirectoryError")
           | None => Some (py "FileNotFoundError")
           end
  end.

(** [with open(path, "w") as f: f.write(content)] *)
Definition write_file (fault : nat → bool) (path content : list N) : io unit :=
  λ w,
    match open_error w path with
    | Some exc =>
        (Raised exc, World (files w) (log w ++ [SysWrite path false]))
    | None =>
        if fault (length (log w)) then
          (Raised (py "OSError"), World (files w) (log w ++ [SysWrite path false]))
        else
          (Returned tt,
           World (<[path := File content]> (files w))
                 (log w ++ [SysWrite path true]))
    end.

(** [os.path.getsize] *)
Definition getsize (path : list N) : io Z :=
  λ w,
    match files w !! path with
    | Some (File content) => (Returned (Z.of_nat (length content)), w)
    | Some Dir => (Returned 4096%Z, w)
    | None => (Raised (py "FileNotFoundError"), w)
    end.

(** ** text_to_speech.py *)

Module TextToSpeech.

Definition AUDIO_DIR : list N := py "audio".

(** What gTTS does with a text: it raises, in the constructor or while
    saving, possibly leaving a partial file, or it saves the audio. *)
Inductive tts_result : Type :=
| TtsFailed (exc : list N) (partial : option (list N))
| TtsSaved (content : list N).

(** [tts = gTTS(text=text, ...); tts.save(audio_path)] *)
Definition tts_save (gtts : list N → tts_result) (text audio_path : list N)
    : io unit :=
  λ w,
    match gtts text with
    | TtsSaved content =>
        (Returned tt,
         World (<[audio_path := File content]> (files w))
               (log w ++ [SysTtsSave audio_path true]))
    | TtsFailed exc partial =>
        (Raised exc,
         World (match partial with
                | Some content => <[audio_path := File content]> (files w)
                | None => files w
                end)
               (log w ++ [SysTtsSave audio_path false]))
    end.

Definition audio_section_path (section_index : Z) : list N :=
  path_join AUDIO_DIR
    (py "audio_section_" ++ py (pretty section_index) ++ py ".mp3").

(** [generate_audio(text, section_index)]: the path of the audio file,
    or [None]. *)
Definition generate_audio
    (fault : nat → bool) (gtts : list N → tts_result)
    (text : list N) (section_index : Z) : io (option (list N)) :=
  if bool_decide (strip text = []) then io_ret None
  else
    let audio_path := audio_section_path section_index in
    io_try
      (present ← exists_ audio_path;
       if present : bool then io_ret (Some audio_path)
       else
         tts_save gtts text audio_path ;;
         saved ← exists_ audio_path;
         small ← (if saved : bool
                  then (size ← getsize audio_path; io_ret (size <? 1000)%Z)
                  else io_ret true);
         if small : bool then io_raise (py "IOError")
         else io_ret (Some audio_path))
      (λ _,
         left_over ← exists_ audio_path;
         (if left_over : bool
          then io_try (remove fault audio_path) (λ _, io_ret tt)
          else io_ret tt) ;;
         io_ret None).

End TextToSpeech.

(** ** d3_generator.py *)

Module D3Generator.

Definition OUTPUT_DIR : list N := py "d3_visualizations".

(** [model.generate_content(prompt).text] for a model of the
    generative-language SDK: the call is logged, and the service answers
    with a text or an exception. *)
Definition generate_content
    (genai : list N → list N → outcome (list N)) (model prompt : list N)
    : io (list N) :=
  emit (SysGenAI model prompt) ;; io_lift (genai model prompt).

(** [generate_d3_code(prompt)] *)
Definition generate_d3_code
    (genai : list N → list N → outcome (list N)) (prompt : list N)
    : io (option (list N)) :=
  io_try
    (text ← generate_content genai (py "gemini-2.5-pro-exp-03-25") prompt;
     io_ret (Some (clean_response text)))
    (λ _, io_ret None).

(** [save_html(section_index, html_code)] *)
Definition save_html (fault : nat → bool) (section_index : Z)
    (html_code : list N) : io unit :=
  let filename :=
    path_join OUTPUT_DIR
      (py "section_" ++ py (pretty (section_index + 1)%Z) ++ py ".html") in
  io_try (write_file fault filename html_code) (λ _, io_ret tt).

End D3Generator.

(** ** generate_interactive_page.py *)

Module InteractivePage.

(** A line feed and a double quote. *)
Definition nl : list N := [10%N].
Definition dq : list N := [34%N].

(** The page template up to the number of sections. *)
Definition page_head : list N :=
  py "<!DOCTYPE html>" ++ nl
  ++ py "<html lang=" ++ dq ++ py "en" ++ dq ++ py ">" ++ nl
  ++ py "<head>" ++ nl
  ++ py "    <meta charset=" ++ dq ++ py "UTF-8" ++ dq ++ py ">" ++ nl
  ++ py "    <title>Interactive Learning Page</title>" ++ nl
  ++ py "    <style>" ++ nl
  ++ py "        body { margin: 0; padding: 0; }" ++ nl
  ++ py "        #container { display: flex; height: 100vh; }" ++ nl
  ++ py "        video, iframe { width: 50%; height: 100%; border: none; }" ++ nl
  ++ py "        #controls {" ++ nl
  ++ py "            position: fixed;" ++ nl
  ++ py "            bottom: 10px;" ++ nl
  ++ py "            left: 50%;" ++ nl
  ++ py "            transform: translateX(-50%);" ++ nl
  ++ py "            z-index: 10;" ++ nl
  ++ py "        }" ++ nl
  ++ py "        button {" ++ nl
  ++ py "            padding: 10px 20px;" ++ nl
  ++ py "            margin: 0 5px;" ++ nl
  ++ py "            font-size: 16px;" ++ nl
  ++ py "            cursor: pointer;" ++ nl
  ++ py "        }" ++ nl
  ++ py "    </style>" ++ nl
  ++ py "</head>" ++ nl
  ++ py "<body>" ++ nl
  ++ py "<div id=" ++ dq ++ py "container" ++ dq ++ py ">" ++ nl
  ++ py "    <video id=" ++ dq ++ py "video" ++ dq ++ py " controls>" ++ nl
  ++ py "        <source src=" ++ dq ++ py "final_videos/complete_video.mp4" ++ dq ++ py " type=" ++ dq ++ py "video/mp4" ++ dq ++ py ">" ++ nl
  ++ py "    </video>" ++ nl
  ++ py "    <iframe id=" ++ dq ++ py "d3-frame" ++ dq ++ py " src=" ++ dq ++ py "d3_visualizations/section_1.html" ++ dq ++ py "></iframe>" ++ nl
  ++ py "</div>" ++ nl
  ++ py "<div id=" ++ dq ++ py "controls" ++ dq ++ py ">" ++ nl
  ++ py "    <button onclick=" ++ dq ++ py "prevSection()" ++ dq ++ py ">" ++ [11013%N] ++ [65039%N] ++ py " Previous</button>" ++ nl
  ++ py "    <button onclick=" ++ dq ++ py "nextSection()" ++ dq ++ py ">Next " ++ [10145%N] ++ [65039%N] ++ py "</button>" ++ nl
  ++ py "</div>" ++ nl
  ++ py "<script>" ++ nl
  ++ py "    let currentSection = 0;" ++ nl
  ++ py "    const totalSections = ".

(** The page template after the number of sections. *)
Definition page_tail : list N :=
  py ";" ++ nl
  ++ py "    function updateD3() {" ++ nl
  ++ py "        document.getElementById('d3-frame').src = `d3_visualizations/section_${currentSection+1}.html`;" ++ nl
  ++ py "    }" ++ nl
  ++ py "    function nextSection() {" ++ nl
  ++ py "        if (currentSection < totalSections - 1) {" ++ nl
  ++ py "            currentSection++;" ++ nl
  ++ py "            updateD3();" ++ nl
  ++ py "        }" ++ nl
  ++ py "    }" ++ nl
  ++ py "    function prevSection() {" ++ nl
  ++ py "        if (currentSection > 0) {" ++ nl
  ++ py "            currentSection--;" ++ nl
  ++ py "            updateD3();" ++ nl
  ++ py "        }" ++ nl
  ++ py "    }" ++ nl
  ++ py "</script>" ++ nl
  ++ py "</body>" ++ nl
  ++ py "</html>".

(** The f-string of the page: the only hole is the number of sections. *)
Definition interactive_page_html (total_sections : Z) : list N :=
  page_head ++ py (pretty total_sections) ++ page_tail.

Definition d3_file (i : Z) : list N :=
  path_join (py "d3_visualizations")
    (py "section_" ++ py (pretty i) ++ py ".html").

(** [generate_interactive_final_page(script_data, output_path)]: the
    page, or [None] when anything raised. *)
Definition generate_interactive_final_page
    (fault : nat → bool) (script_data : json) (output_path : list N)
    : io (option (list N)) :=
  io_try
    (sections ←
       match script_data with
       | JObj fields =>
           io_ret (default (JList []) (dict_get (py "sections") fields))
       | _ => io_raise (py "AttributeError")
       end;
     total_sections ←
       match py_len sections with
       | Some n => io_ret n
       | None => io_raise (py "TypeError")
       end;
     io_for (seqZ 1 total_sections)
       (λ i, present ← exists_ (d3_file i);
             if present : bool then io_ret tt
             else io_raise (py "FileNotFoundError")) ;;
     let html_content := interactive_page_html total_sections in
     makedirs fault (dirname output_path) ;;
     write_file fault output_path html_content ;;
     io_ret (Some html_content))
    (λ _, io_ret None).

Definition default_output_path : list N := py "templates/interactive_page.html".

(** [len(script_data.get("sections", []))], where it is defined. *)
Definition section_count (script_data : json) : option Z :=
  match script_data with
  | JObj fields => py_len (default (JList []) (dict_get (py "sections") fields))
  | _ => None
  end.

End InteractivePage.

(** ** Master.py *)

Module Master.

Definition dirs_to_clear : list (list N) :=
  [ py "audio"; py "final_videos"; py "d3_visualizations"; py "temp_files" ].

Definition files_to_clear : list (list N) :=
  [ py "output_script.json"; py "interactive_page.html";
    py "d3_standalone.html" ].

(** The retry loop [for attempt in range(3)], with its attempts left:
    leave at the first success, sleep after a failure. *)
Fixpoint retry_rmtree (fault : nat → bool) (lost : nat → list N → bool)
    (directory : list N) (attempts : nat) : io unit :=
  match attempts with
  | O => io_ret tt
  | S attempts' =>
      cleared ← io_try (rmtree fault lost directory ;; io_ret true)
                       (λ _, emit (SysSleep 1) ;; io_ret false);
      if cleared : bool then io_ret tt
      else retry_rmtree fault lost directory attempts'
  end.

(** One turn of the loop over [dirs_to_clear]. *)
Definition clear_directory (fault : nat → bool) (lost : nat → list N → bool)
    (directory : list N) : io unit :=
  present ← exists_ directory;
  (if present : bool then retry_rmtree fault lost directory 3
   else io_ret tt) ;;
  makedirs fault directory.

(** One turn of the loop over [files_to_clear]. *)
Definition clear_file (fault : nat → bool) (file : list N) : io unit :=
  present ← exists_ file;
  if present : bool then io_try (remove fault file) (λ _, io_ret tt)
  else io_ret tt.

Definition cleanup_previous_run
    (fault : nat → bool) (lost : nat → list N → bool) : io unit :=
  io_for dirs_to_clear (clear_directory fault lost) ;;
  io_for files_to_clear (clear_file fault).

(** [sorted] on strings compares code points, the first difference
    deciding. *)
Fixpoint str_leb (a b : list N) : bool :=
  match a, b with
  | [], _ => true
  | _ :: _, [] => false
  | x :: a', y :: b' =>
      if (x <? y)%N then true
      else if (x =? y)%N then str_leb a' b' else false
  end.

Fixpoint insert_sorted (x : list N) (l : list (list N)) : list (list N) :=
  match l with
  | [] => [x]
  | y :: l' => if str_leb x y then x :: l else y :: insert_sorted x l'
  end.

Definition sorted (l : list (list N)) : list (list N) :=
  foldr insert_sorted [] l.

(** What the pipeline meets beyond the file system: the media library,
    what each worker process returns for its section (the path of the
    section's video, or [None] when the section failed, timed out or
    crashed), and the order in which [as_completed] yields the
    futures. *)
Record pipeline : Type := Pipeline {
  pl_fault : nat → bool;
  pl_media : media;
  section_result : Z → json → option (list N);
  completion_order : list (Z * json) → list (Z * json)
}.

(** [script["sections"]] *)
Definition subscript (v : json) (key : list N) : io json :=
  match v with
  | JObj fields =>
      match dict_get key fields with
      | Some item => io_ret item
      | None => io_raise (py "KeyError")
      end
  | _ => io_raise (py "TypeError")
  end.

(** [ProcessPoolExecutor(max_workers=n)] *)
Definition pool_create (max_workers : Z) : io unit :=
  if (max_workers <=? 0)%Z then io_raise (py "ValueError")
  else emit (SysPool max_workers).

(** [enumerate(items)] *)
Definition enumerate (items : list json) : list (Z * json) :=
  imap (λ i section, (Z.of_nat i, section)) items.

Definition complete_video_path : list N :=
  path_join (py "final_videos") (py "complete_video.mp4").

(** [generate_final_outputs(script)].  Waiting for the D3 process
    changes nothing that is modelled. *)
Definition generate_final_outputs (env : pipeline) (script : json) : io bool :=
  emit (SysPopen [py "python"; py "d3_generator.py"]) ;;
  sections ← subscript script (py "sections");
  n ← match py_len sections with
      | Some n => io_ret n
      | None => io_raise (py "TypeError")
      end;
  pool_create (Z.min 8 n) ;;
  items ← match iter_json sections with
          | Some items => io_ret items
          | None => io_raise (py "TypeError")
          end;
  let futures := enumerate items in
  io_for futures (λ task, emit (SysSubmit task.1 task.2)) ;;
  let video_paths :=
    omap (λ task, section_result env task.1 task.2)
         (completion_order env futures) in
  concatenated ←
    match video_paths with
    | [] => io_ret true
    | _ :: _ =>
        io_lift (Local.concatenate_videos (pl_media env)
                   (JList (JStr <$> sorted video_paths)) complete_video_path)
    end;
  if negb concatenated then io_ret false
  else
    page ← InteractivePage.generate_interactive_final_page
             (pl_fault env) script InteractivePage.default_output_path;
    match page with
    | Some (_ :: _) => io_ret true
    | _ => io_ret false
    end.

End Master.


(** ** Vocabulary of the statements *)

(** The alternatives of a pattern all begin with a fence, and the fence
    alone is one of them: the pattern matches exactly where a fence
    begins. *)
Definition fence_pattern (alts : list (list N)) : Prop :=
  ∀ s, match first_alt alts s with
       | Some m => starts_with fence s = true ∧ m ≠ []
       | None => starts_with fence s = false
       end.

(** [only_logs ok c]: whatever the world, the calls that [c] adds to
    the log all satisfy [ok]. *)
Definition only_logs {T : Type} (ok : syscall → bool) (c : io T) : Prop :=
  ∀ w, ∃ evs, log (c w).2 = log w ++ evs ∧ Forall (λ ev, ok ev = true) evs.

(** No call to the generative-language service. *)
Definition not_genai (ev : syscall) : bool :=
  match ev with SysGenAI _ _ => false | _ => true end.


(** The calls that cleaning the directory [d] may make. *)
Definition about_dir (d : list N) (ev : syscall) : bool :=
  match ev with
  | SysRmtree p _ | SysMakedirs p _ => bool_decide (p = d)
  | SysSleep _ => true
  | _ => false
  end.


(** The attempts on one directory: failures, then at most one success,
    which is the last attempt. *)
Definition retry_shape (budget : nat) (tries : list bool) : Prop :=
  ∃ j, (tries = replicate j false ++ [true] ∧ j < budget)
       ∨ (tries = replicate j false ∧ j ≤ budget).

(** What one turn of the loop over the directories achieves. *)
Definition dir_cleaned (d : list N) (evs : list syscall) (w w' : world)
    : Prop :=
  retry_shape 3 (rmtree_attempts d evs)
  ∧ files w' !! d = Some Dir
  ∧ (true ∈ rmtree_attempts d evs →
     ∀ p, under d p = true → files w' !! p = None)
  ∧ (true ∉ rmtree_attempts d evs →
     ∀ p, under d p = true →
          files w' !! p = None ∨ files w' !! p = files w !! p).

(** Directories none of which holds a path of another. *)
Definition separated (ds : list (list N)) : Prop :=
  ∀ d d' p, d ∈ ds → d' ∈ ds → d ≠ d' → inside d p = true → inside d' p = false.

(** ** Sample inputs *)

(** A world left by a previous run: the audio directory holds the
    narration of its first section. *)
Definition world_previous_run : world :=
  World (<[py "audio" := Dir]>
         (<[py "audio/audio_section_0.mp3" := File (py "ID3 old narration")]>
          ∅))
        [].


(** A failed removal has removed nothing. *)
Definition nothing_lost : nat → list N → bool := λ _ _, false.

(** Two scripts of two sections each, with different contents. *)
Definition script_newton : json :=
  JObj [ (py "title", JStr (py "Laws of motion"));
         (py "sections",
          JList [ JObj [(py "text", JStr (py "Inertia"))];
                  JObj [(py "text", JStr (py "Force"))] ]) ].

Definition script_cells : json :=
  JObj [ (py "title", JStr (py "Cells"));
         (py "sections",
          JList [ JObj [(py "text", JStr (py "Membrane"))];
                  JObj [(py "text", JStr (py "Nucleus"))] ]) ].

(** A world where the two D3 pages have been generated. *)
Definition world_two_pages : world :=
  World (<[py "d3_visualizations" := Dir]>
         (<[py "d3_visualizations/section_1.html" := File (py "<html>1</html>")]>
          (<[py "d3_visualizations/section_2.html" := File (py "<html>2</html>")]>
           ∅)))
        [].

Definition no_fault : nat → bool := λ _, false.

(** A service where every file exists, every clip lasts one second, and
    nothing fails. *)
Definition media_ok : media :=
  Media (λ _, true) (λ _, Some 1%Q) (λ _ _, true).
Definition service_ok : CloudRun.service := CloudRun.Service media_ok None None.

(** The request body [{"video_list": null}]. *)
Definition request_null : outcome json :=
  Returned (JObj [(py "video_list", JNull)]).

(** Readings of the wall clock, in microseconds: the simulation starts,
    one minute passes, and then the clock is set back by one hour. *)
Definition clock_set_back : list Z :=
  [ 0; 60000000; 60000000; 61000000 - 3600000000;
    61000000 - 3600000000 ]%Z.

(** Readings of a clock that only advances, up to the end of a run. *)
Definition clock_steady : list Z :=
  [ 0; 60000000; 60000000; 121000000 ]%Z.

(** A text of one hundred characters, and the duration [4.17]. *)
Definition text100 : list N := replicate 100 97%N.
Definition duration_4_17 : @float_t binary64 :=
  @fdiv binary64 (@of_int binary64 417) (@of_int binary64 100).

(** A duration of [2 ** 1023] seconds, about [9e307]: its product with
    24 is infinite. *)
Definition duration_2p1023 : @float_t binary64 := 0x1p+1023%float.

(** A pipeline where nothing fails: every section yields its video, and
    the futures complete in the order of submission. *)
Definition pipeline_ok : Master.pipeline :=
  Master.Pipeline no_fault media_ok
    (λ i _, Some (py "final_videos/section_" ++ py (pretty i) ++ py ".mp4"))
    (λ tasks, tasks).


(** * The rest of the pipeline

    The functions below are the ones the sections above call or are
    called by: the other functions of the same source files. *)

(** ** More of Python's strings *)

(** [s.split()]: the maximal runs of characters that are not
    whitespace, in order. *)
Fixpoint split (s : list N) : list (list N) :=
  match s with
  | [] => []
  | c :: r =>
      if py_isspace c then split r
      else match r with
           | [] => [[c]]
           | c' :: _ =>
               if py_isspace c' then [c] :: split r
               else match split r with
                    | word :: words => (c :: word) :: words
                    | [] => [[c]]
                    end
           end
  end.

(** [needle in s] *)
Fixpoint contains (needle s : list N) : bool :=
  starts_with needle s
  || match s with
     | [] => false
     | _ :: r => contains needle r
     end.

(** A word: what [split] yields. *)
Definition is_word (w : list N) : Prop :=
  w ≠ [] ∧ Forall (λ c, py_isspace c = false) w.

(** A line as the loop of [create_text_frame] leaves it: it fits the
    width, or it is one word of the text, or it is empty. *)
Definition line_fits (text_width : list N → Z) (limit : Z)
    (words : list (list N)) (line : list N) : Prop :=
  (text_width line <= limit)%Z ∨ line ∈ words ∨ line = [].


(** [only_touches may c]: whatever the world and whatever its outcome,
    [c] leaves every path outside [may] as it was. *)
Definition only_touches {T : Type} (may : list N → bool) (c : io T) : Prop :=
  ∀ w p, may p = false → files (c w).2 !! p = files w !! p.

(** The paths that the cleanup of Master.py may touch. *)
Definition cleanup_scope (p : list N) : bool :=
  existsb (λ d, inside d p) Master.dirs_to_clear
  || bool_decide (p ∈ Master.files_to_clear).

(** No backtick occurs in the text. *)
Definition no_backtick (s : list N) : Prop := Forall (λ c, c ≠ 96%N) s.

(** ** text_animation.py: drawing one frame *)

Module TextAnimation.

Definition FONT_SIZE : Z := 32.
Definition TEXT_AREA_SIZE : Z * Z := (854, 720)%Z.
Definition PADDING : Z := 20.

Section TextFrame.

  (** [bbox[2] - bbox[0]] for [draw.textbbox((0, 0), line, font=font)]:
      the width of a line in the font that was loaded, the TrueType
      font or the default one. *)
  Variable text_width : list N → Z.

  (** One turn of the loop over the words, on the pair of [lines] and
      [current_line]. *)
Definition wrap_word (limit : Z) (state : list (list N) * list N)
      (word : list N) : list (list N) * list N :=
    let '(lines, current_line) := state in
    let test_line :=
      if bool_decide (current_line = []) then word
      else strip (current_line ++ py " " ++ word) in
    if (text_width test_line <=? limit)%Z then (lines, test_line)
    else (lines ++ [current_line], word).

  (** [lines[-4:]] *)
Definition last_four {T : Type} (lines : list T) : list T :=
    drop (length lines - 4) lines.

  (** [create_text_frame(text, frame_size, font_size, padding)]: the
      calls [draw.text((padding, y), line, font=font, fill="white")] made
      on the transparent image, in order; the array returned is that
      image. *)
Definition create_text_frame
      (text : list N) (frame_size : Z * Z) (font_size padding : Z)
      : list ((Z * Z) * list N) :=
    let words := split text in
    let '(lines, current_line) :=
      fold_left (wrap_word (frame_size.1 - 2 * padding)%Z) words ([], []) in
    let lines :=
      if bool_decide (current_line = []) then lines
      else lines ++ [current_line] in
    let lines :=
      if (4 <? Z.of_nat (length lines))%Z then last_four lines else lines in
    imap (λ k line,
            ((padding, padding + Z.of_nat k * (font_size + 10))%Z, line))
         lines.

End TextFrame.

End TextAnimation.

(** A line feed and a double quote, as in the page template. *)
Local Abbreviation nl := InteractivePage.nl.
Local Abbreviation dq := InteractivePage.dq.

(** [str(v)] as an f-string formats a value read from JSON: a string is
    itself; for another value it is the text [py_str] gives (its
    [repr]). *)
Definition format_value (py_str : json → list N) (v : json) : list N :=
  match v with
  | JStr s => s
  | _ => py_str v
  end.

(** [sep.join(items)] *)
Fixpoint join (sep : list N) (items : list (list N)) : list N :=
  match items with
  | [] => []
  | [x] => x
  | x :: rest => x ++ sep ++ join sep rest
  end.

(** ** d3_generator.py: prompts, review, and the processing of a section *)

Module D3Process.
Import D3Generator.

(** The literal parts of [base_prompt], and [extra]. *)
Definition d3_prompt_1 : list N :=
  py "Based on the following section content:" ++ nl ++ nl ++ dq.

Definition d3_prompt_2 : list N :=
  dq ++ nl ++ nl ++ py "and considering the visualization type " ++ dq.

Definition d3_prompt_3 : list N :=
  dq ++ py ", generate a detailed, humanized prompt for creating an "
  ++ py "interactive D3.js animation demonstration. This animation "
  ++ py "should allow manual movement and interactions with "
  ++ py "elements to demonstrate the underlying concepts. Describe "
  ++ py "in detail how the elements should appear, move, and "
  ++ py "interact. Include instructions about transitions, "
  ++ py "scaling, dynamic updates, design aspects, color schemes, "
  ++ py "and effects like easing or delays. Ensure the prompt is "
  ++ py "very detailed (at least 100 words) and guides the code "
  ++ py "generation process to produce clean, well-structured, and "
  ++ py "optimized HTML and JavaScript code for D3.js, tailored to "
  ++ py "the subject matter. The output should be only code in "
  ++ py "HTML format, without any extra explanation or markdown "
  ++ py "formatting.".

Definition d3_prompt_extra : list N :=
  py " Additionally, include instructions for user "
  ++ py "interactivity, error handling, and performance "
  ++ py "optimization. The prompt should be elaborate and "
  ++ py "comprehensive to ensure robust, production-ready code.".

(** [generate_d3_prompt(section_text, visualization_type)], on the two
    values as the f-string formats them.  No statement of the [try]
    raises. *)
Definition generate_d3_prompt (section_text visualization_type : list N)
    : list N :=
  let base_prompt :=
    d3_prompt_1 ++ section_text ++ d3_prompt_2 ++ visualization_type
    ++ d3_prompt_3 in
  let words := split base_prompt in
  if (Z.of_nat (length words) <? 100)%Z then base_prompt ++ d3_prompt_extra
  else base_prompt.

(** The literal parts of [review_prompt]. *)
Definition review_prompt_1 : list N :=
  py "Review the following D3.js HTML code for any errors and "
  ++ py "optimization opportunities. If you find errors, provide "
  ++ py "the corrected and optimized version of the code, "
  ++ py "outputting only the final code. Do not include any extra "
  ++ py "explanations, markdown formatting, or comments in your "
  ++ py "output. If the code is already optimized and error-free, "
  ++ py "simply respond with 'CODE_OPTIMIZED'." ++ nl ++ nl ++ py "Code:"
  ++ nl.

Definition review_prompt_2 : list N :=
  nl ++ nl ++ py "Output:".

(** [review_and_optimize_code(generated_code)]; [lower] is
    [str.lower]. *)
Definition review_and_optimize_code
    (genai : list N → list N → outcome (list N)) (lower : list N → list N)
    (generated_code : list N) : io (list N) :=
  io_try
    (let review_prompt :=
       review_prompt_1 ++ generated_code ++ review_prompt_2 in
     text ← generate_content genai (py "gemini-2.0-flash") review_prompt;
     let reviewed := clean_response text in
     if contains (py "code_optmized") (lower reviewed)
        || contains (py "code is optimized") (lower reviewed)
        || contains (py "CODE_OPTIMIZED") reviewed
     then io_ret generated_code
     else io_ret reviewed)
    (λ _, io_ret generated_code).

(** [process_section(i, section)] *)
Definition process_section
    (fault : nat → bool) (genai : list N → list N → outcome (list N))
    (lower : list N → list N) (py_str : json → list N)
    (i : Z) (section : json) : io bool :=
  io_try
    (match section with
     | JObj fields =>
         let section_text := default (JStr []) (dict_get (py "text") fields) in
         let viz_type :=
           default (JStr (py "default"))
                   (dict_get (py "visualization_type") fields) in
         let d3_prompt :=
           generate_d3_prompt (format_value py_str section_text)
                              (format_value py_str viz_type) in
         if bool_decide (d3_prompt = []) then io_ret false
         else
           generated_code ← generate_d3_code genai d3_prompt;
           match generated_code with
           | Some (c :: code) =>
               final_code ←
                 review_and_optimize_code genai lower (c :: code);
               if bool_decide (final_code = []) then io_ret false
               else save_html fault i final_code ;; io_ret true
           | _ => io_ret false
           end
     | _ => io_raise (py "AttributeError")   (* no [get] on this value *)
     end)
    (λ _, io_ret false).

End D3Process.

(** ** generate_video.py, continued *)

(** generate_video.py, [validate_video_file]: the clip opens and
    [clip.duration > 0]; any exception gives [False]. *)
Definition validate_video_file (env : media) (video_path : list N) : bool :=
  match clip_duration env video_path with
  | Some duration => negb (Qle_bool duration 0)
  | None => false
  end.

(** ** main.py: the route that starts a generation *)

Module WebUI.

(** [generate()], the handler of [POST /generate]: given what
    [request.get_json()] gives (a value, or the exception it raises)
    and the status dictionary, the response, and the topic of the
    simulation thread it has started, if any.  An exception is left to
    Flask. *)
Definition generate (request_json : outcome json) (g : status)
    : outcome (CloudRun.response * option (list N)) :=
  match request_json with
  | Raised exc => Raised exc
  | Returned (JObj fields) =>
      match default (JStr []) (dict_get (py "topic") fields) with
      | JStr s =>
          let topic := strip s in
          if bool_decide (topic = []) then
            Returned
              (CloudRun.Response
                 (JObj [(py "error", JStr (py "Topic is required"))]) 400,
               None)
          else if in_progress g then
            Returned
              (CloudRun.Response
                 (JObj [(py "error",
                         JStr (py "Generation already in progress"))]) 429,
               None)
          else
            Returned
              (CloudRun.Response
                 (JObj [ (py "status", JStr (py "processing"));
                         (py "message",
                          JStr (py "Video generation simulation started (2 minutes)")) ])
                 200,
               Some topic)
      | _ => Raised (py "AttributeError")     (* no [strip] on this value *)
      end
  | Returned _ => Raised (py "AttributeError")  (* no [get] on this value *)
  end.

End WebUI.

(** ** text_animation.py: the animation and the final video of a section *)

Module TextVideo.
Import TextAnimation.

(** A clip as moviepy builds it, by the calls that build it. *)
Inductive clip {A : PyFloat} : Type :=
| VideoFile (path : list N)                     (* VideoFileClip(path) *)
| Freeze (c : clip) (seconds : float_t)         (* c.to_ImageClip().set_duration(seconds) *)
| Concatenate (clips : list clip)               (* concatenate_videoclips(clips) *)
| Centered (c : clip)                           (* c.set_position("center").set_opacity(0.8) *)
| Resized (c : clip) (width height : Z)         (* c.resize((width, height)) *)
| Subclip (c : clip) (t_start t_end : float_t)  (* c.subclip(t_start, t_end) *)
| Color (width height : Z) (duration : float_t) (* ColorClip(size, color=(0, 0, 0), duration=duration) *)
| Composite (layers : list clip)                (* CompositeVideoClip(layers, use_bgclip=True) *)
| WithAudio (c : clip) (audio_path : list N).   (* c.set_audio(AudioFileClip(audio_path)) *)

(** What writing a video does: it leaves the encoded file, or it
    raises, possibly leaving a partial file. *)
Inductive encoded : Type :=
| Written (content : list N)
| WriteFailed (exc : list N) (partial : option (list N)).

Section Video.
  Context {A : PyFloat}.

  (** What the libraries answer: the width of a line of text (PIL);
      what [cv2.VideoWriter], fed the frames and released, leaves at
      its path: a file, or nothing when it could not open the path,
      which it does not report, or an exception; the durations that
      [AudioFileClip(path)] and [VideoFileClip(path)] give, or the
      exception that opening the file raises; [int(a // b)] on floats;
      and what [write_videofile] does with a clip, the exceptions of
      building the clip included. *)
  Variable text_width : list N → Z.
  Variable video_writer :
    list N → Z * Z → list (list ((Z * Z) * list N)) → outcome (option (list N)).
  Variable audio_duration : list N → outcome float_t.
  Variable video_duration : list N → outcome float_t.
  Variable floor_quotient : float_t → float_t → outcome Z.
  Variable write_videofile : clip → list N → encoded.

  (** [out = cv2.VideoWriter(output_path, fourcc, FPS, frame_size)], a
      write of each frame, and [out.release()]. *)
Definition write_frames (output_path : list N) (frame_size : Z * Z)
      (frames : list (list ((Z * Z) * list N))) : io unit :=
    λ w,
      match video_writer output_path frame_size frames with
      | Returned (Some content) =>
          match files w !! output_path with
          | Some Dir =>
              (Returned tt, World (files w) (log w ++ [SysWrite output_path false]))
          | _ =>
              (Returned tt,
               World (<[output_path := File content]> (files w))
                     (log w ++ [SysWrite output_path true]))
          end
      | Returned None =>
          (Returned tt, World (files w) (log w ++ [SysWrite output_path false]))
      | Raised exc =>
          (Raised exc, World (files w) (log w ++ [SysWrite output_path false]))
      end.

  (** [create_text_animation_video(text, frame_size, duration,
      output_path, font_size)]: the frames are drawn with the default
      font size and padding, whatever [font_size] is; an exception of
      [generate_scrolling_frames] is caught with the others, before
      anything is written. *)
Definition create_text_animation_video
      (text : list N) (frame_size : Z * Z) (duration : float_t)
      (output_path : list N) (font_size : Z) : io (option (list N)) :=
    io_try
      (frames ←
         io_lift
           (generate_scrolling_frames
              (λ subtext size,
                 Returned
                   (create_text_frame text_width subtext size FONT_SIZE
                      PADDING))
              text frame_size duration FPS);
       write_frames output_path frame_size frames ;;
       present ← exists_ output_path;
       if present : bool then io_ret (Some output_path) else io_ret None)
      (λ _, io_ret None).

  (** [final_clip.write_videofile(output_path, ...)] *)
Definition encode (final_clip : clip) (output_path : list N) : io unit :=
    λ w,
      match write_videofile final_clip output_path with
      | Written content =>
          (Returned tt,
           World (<[output_path := File content]> (files w))
                 (log w ++ [SysWrite output_path true]))
      | WriteFailed exc partial =>
          (Raised exc,
           World (match partial with
                  | Some content => <[output_path := File content]> (files w)
                  | None => files w
                  end)
                 (log w ++ [SysWrite output_path false]))
      end.

  (** [os.path.exists(path)] where [path] may be [None]: a [TypeError]
      then, which [os.path.exists] does not catch. *)
Definition exists_arg (path : option (list N)) : io bool :=
    match path with
    | Some path => exists_ path
    | None => io_raise (py "TypeError")
    end.

  (** [overlay_text_on_video(image_path, text, output_path,
      background_video_path, audio_path, text_animation_path)];
      [image_path] and [text] are not used. *)
Definition overlay_text_on_video
      (text output_path : list N) (background_video_path : option (list N))
      (audio_path text_animation_path : list N) : io bool :=
    io_try
      (present ← (if bool_decide (text_animation_path = []) then io_ret false
                  else exists_ text_animation_path);
       if negb present then io_ret false
       else
         duration ← io_lift (audio_duration audio_path);
         text_duration ← io_lift (video_duration text_animation_path);
         let text_clip := VideoFile text_animation_path in
         let text_clip :=
           if fltb text_duration duration
           then Concatenate
                  [text_clip; Freeze text_clip (fsub duration text_duration)]
           else text_clip in
         let text_clip := Centered text_clip in
         has_background ← exists_arg background_video_path;
         final_clip ←
           (if has_background : bool then
              let path := default [] background_video_path in
              bg_duration ← io_lift (video_duration path);
              let bg_clip := Resized (VideoFile path) 1280 720 in
              bg_clip ←
                (if fltb bg_duration duration then
                   n ← io_lift (floor_quotient duration bg_duration);
                   io_ret (Concatenate (replicate (Z.to_nat (n + 1)) bg_clip))
                 else io_ret bg_clip);
              let bg_clip := Subclip bg_clip (of_int 0) duration in
              io_ret (Composite [bg_clip; text_clip])
            else
              io_ret (Composite [Color 1280 720 duration; text_clip]));
         io_lift (audio_duration audio_path) ;;
         encode (WithAudio final_clip audio_path) output_path ;;
         io_ret true)
      (λ _, io_ret false).

End Video.

End TextVideo.

(** ** Master.py: the processing of one section *)

Module MasterSection.
Import TextVideo.

Definition BACKGROUND_VIDEO : list N := py "videos/background.mp4".

Definition text_anim_path (section_index : Z) : list N :=
  py "temp_files/text_anim_" ++ py (pretty section_index) ++ py ".mp4".

Definition video_output_path (section_index : Z) : list N :=
  py "final_videos/section_" ++ py (pretty section_index) ++ py ".mp4".

Section ProcessSection.
  Context {A : PyFloat}.
  Variable fault : nat → bool.
  Variable gtts : list N → TextToSpeech.tts_result.
  Variable text_width : list N → Z.
  Variable video_writer :
    list N → Z * Z → list (list ((Z * Z) * list N)) → outcome (option (list N)).
  Variable audio_duration : list N → outcome float_t.
  Variable video_duration : list N → outcome float_t.
  Variable floor_quotient : float_t → float_t → outcome Z.
  Variable write_videofile : clip → list N → encoded.

  (** [process_section(section_index, section)]: the path of the
      section's video, or [None]; an exception of [section.get],
      [section["text"]] or [text.strip()] is not caught. *)
Definition process_section (section_index : Z) (section : json)
      : io (option (list N)) :=
    match section with
    | JObj _ => io_ret tt
    | _ => io_raise (py "AttributeError")     (* no [get] on this value *)
    end ;;
    text_value ← Master.subscript section (py "text");
    text ← match text_value with
           | JStr s => io_ret s
           | _ => io_raise (py "AttributeError")  (* no [strip] on this value *)
           end;
    audio ← TextToSpeech.generate_audio fault gtts text section_index;
    match audio with
    | None => io_ret None
    | Some audio_path =>
        duration ← io_try (d ← io_lift (audio_duration audio_path);
                           io_ret (Some d))
                          (λ _, io_ret None);
        match duration with
        | None => io_ret None
        | Some duration =>
            let text_anim_path := text_anim_path section_index in
            animation ←
              create_text_animation_video text_width video_writer
                text (854, 720)%Z duration text_anim_path 32;
            match animation with
            | None => io_ret None
            | Some _ =>
                let video_output_path := video_output_path section_index in
                has_background ← exists_ BACKGROUND_VIDEO;
                composed ←
                  overlay_text_on_video audio_duration video_duration
                    floor_quotient write_videofile
                    text video_output_path
                    (if has_background : bool then Some BACKGROUND_VIDEO
                     else None)
                    audio_path text_anim_path;
                if negb composed then io_ret None
                else
                  io_try
                    (present ← exists_ text_anim_path;
                     if present : bool then remove fault text_anim_path
                     else io_ret tt)
                    (λ _, io_ret tt) ;;
                  io_ret (Some video_output_path)
            end
        end
    end.

End ProcessSection.

End MasterSection.

(** ** script_generation.py: the script and its prompts *)

Module ScriptGeneration.
Import D3Generator.

Definition STANDARD_VIZ_TYPES : list (list N) :=
  [ py "inertia_demo"; py "fma_calculator"; py "action_reaction";
    py "comparison_demo" ].

(** The literal parts of the prompt of [generate_d3_prompt]. *)
Definition section_prompt_1 : list N :=
  nl ++ py "    Create a detailed technical prompt for an interactive "
  ++ py "D3.js visualization that demonstrates concepts from the "
  ++ py "following educational section:" ++ nl ++ py "    " ++ nl
  ++ py "    SECTION TEXT: " ++ dq.

Definition section_prompt_2 : list N :=
  dq ++ nl ++ py "    " ++ nl ++ py "    VISUALIZATION TYPE: " ++ dq.

Definition section_prompt_3 : list N :=
  dq ++ nl ++ py "    " ++ nl ++ py "    Requirements:" ++ nl
  ++ py "    - Interactive elements (draggable objects, sliders, "
  ++ py "etc.)" ++ nl
  ++ py "    - Real-time physics calculations where applicable" ++ nl
  ++ py "    - Clear labels and formulas" ++ nl
  ++ py "    - Visual indicators of forces/movement" ++ nl
  ++ py "    - Responsive design" ++ nl
  ++ py "    - Include both the visualization and explanatory text" ++ nl
  ++ py "    " ++ nl
  ++ py "    The prompt should be at least 100 words and "
  ++ py "specifically describe:" ++ nl
  ++ py "    - What elements should be visible" ++ nl
  ++ py "    - How user interaction should work" ++ nl
  ++ py "    - What physics/math concepts to visualize" ++ nl
  ++ py "    - How to represent abstract concepts visually" ++ nl
  ++ py "    - Any animations or transitions needed" ++ nl ++ py "    ".

(** [generate_d3_prompt(section_text, viz_type)], on the two values as
    the f-string formats them: the answer of the service, or [None]. *)
Definition generate_d3_prompt
    (genai : list N → list N → outcome (list N))
    (section_text viz_type : list N) : io (option (list N)) :=
  let prompt :=
    section_prompt_1 ++ section_text ++ section_prompt_2 ++ viz_type
    ++ section_prompt_3 in
  io_try
    (text ← generate_content genai (py "gemini-1.5-flash") prompt;
     io_ret (Some text))
    (λ _, io_ret None).

(** The literal parts of the prompt of [generate_script]. *)
Definition script_prompt_1 : list N :=
  nl ++ py "    Generate an educational script about '".

Definition script_prompt_2 : list N :=
  py "' with:" ++ nl ++ py "    - 5-6 sections (100+ words each)" ++ nl
  ++ py "    - Real-world examples" ++ nl
  ++ py "    - Standard visualization types: ".

Definition script_prompt_3 : list N :=
  nl ++ py "    " ++ nl ++ py "    Output JSON format:" ++ nl ++ py "    {"
  ++ nl ++ py "        " ++ dq ++ py "title" ++ dq ++ py ": " ++ dq
  ++ py "Title" ++ dq ++ py "," ++ nl ++ py "        " ++ dq
  ++ py "background_video" ++ dq ++ py ": " ++ dq
  ++ py "Background description" ++ dq ++ py "," ++ nl ++ py "        "
  ++ dq ++ py "sections" ++ dq ++ py ": [" ++ nl ++ py "            {"
  ++ nl ++ py "                " ++ dq ++ py "text" ++ dq ++ py ": " ++ dq
  ++ py "Content..." ++ dq ++ py "," ++ nl ++ py "                " ++ dq
  ++ py "visualization_type" ++ dq ++ py ": " ++ dq ++ py "inertia_demo"
  ++ dq ++ py "," ++ nl ++ py "                " ++ dq ++ py "d3_prompt"
  ++ dq ++ py ": " ++ dq ++ py "Detailed D3 visualization prompt..." ++ dq
  ++ nl ++ py "            }" ++ nl ++ py "        ]" ++ nl ++ py "    }"
  ++ nl ++ py "    ".

(** [d[key] = value] on the fields of a dictionary: the value of a key
    that is there is replaced where it stands, a new key goes last. *)
Fixpoint dict_set (key : list N) (value : json)
    (fields : list (list N * json)) : list (list N * json) :=
  match fields with
  | [] => [(key, value)]
  | (k, v) :: rest =>
      if bool_decide (k = key) then (k, value) :: rest
      else (k, v) :: dict_set key value rest
  end.

(** [[f(x) for x in xs]], in order. *)
Fixpoint io_map {T U : Type} (f : T → io U) (xs : list T) : io (list U) :=
  match xs with
  | [] => io_ret []
  | x :: rest => y ← f x; ys ← io_map f rest; io_ret (y :: ys)
  end.

(** One turn of the loop over the sections:
    [section["d3_prompt"] = generate_d3_prompt(section["text"],
    section["visualization_type"])], giving the section as the
    assignment leaves it. *)
Definition add_d3_prompt
    (genai : list N → list N → outcome (list N)) (py_str : json → list N)
    (section : json) : io json :=
  text ← Master.subscript section (py "text");
  viz_type ← Master.subscript section (py "visualization_type");
  d3_prompt ← generate_d3_prompt genai (format_value py_str text)
                 (format_value py_str viz_type);
  match section with
  | JObj fields =>
      io_ret (JObj (dict_set (py "d3_prompt")
                      (match d3_prompt with
                       | Some text => JStr text
                       | None => JNull
                       end)
                      fields))
  | _ => io_raise (py "TypeError")
  end.

(** [generate_script(topic)]; [loads] is [json.loads].  The sections
    are changed in place, so the script returned holds the sections as
    the loop leaves them. *)
Definition generate_script
    (genai : list N → list N → outcome (list N))
    (loads : list N → outcome json) (py_str : json → list N)
    (topic : list N) : io (option json) :=
  let prompt :=
    script_prompt_1 ++ topic ++ script_prompt_2
    ++ join (py ", ") STANDARD_VIZ_TYPES ++ script_prompt_3 in
  io_try
    (text ← generate_content genai (py "gemini-1.5-flash") prompt;
     script ← io_lift (loads (clean_json text));
     sections ← Master.subscript script (py "sections");
     items ← match iter_json sections with
             | Some items => io_ret items
             | None => io_raise (py "TypeError")
             end;
     items ← io_map (add_d3_prompt genai py_str) items;
     io_ret (Some match script, sections with
                  | JObj fields, JList _ =>
                      JObj (dict_set (py "sections") (JList items) fields)
                  | _, _ => script
                  end))
    (λ _, io_ret None).

(** [save_script(script)]; [dumps] is [json.dumps] with [indent=2]. *)
Definition save_script (fault : nat → bool) (dumps : json → list N)
    (script : option json) : io unit :=
  match script with
  | Some v =>
      if truthy v then write_file fault (py "output_script.json") (dumps v)
      else io_ret tt
  | None => io_ret tt
  end.

End ScriptGeneration.

(** ** Master.py: the whole run *)

Module MasterMain.
Import Master ScriptGeneration.

(** [main(topic)]: [stdin] is what [input("Enter topic: ")] gives. *)
Definition main
    (lost : nat → list N → bool)
    (genai : list N → list N → outcome (list N))
    (loads : list N → outcome json) (dumps : json → list N)
    (py_str : json → list N) (stdin : outcome (list N))
    (env : pipeline) (topic : option (list N)) : io unit :=
  cleanup_previous_run (pl_fault env) lost ;;
  topic ← match topic with
          | Some (c :: t) => io_ret (Some (c :: t))
          | _ =>
              line ← io_lift stdin;
              match strip line with
              | [] => io_ret None
              | c :: t => io_ret (Some (c :: t))
              end
          end;
  match topic with
  | None => io_ret tt
  | Some topic =>
      script ← generate_script genai loads py_str topic;
      match script with
      | None => io_ret tt
      | Some script =>
          if negb (truthy script) then io_ret tt
          else
            sections ←
              match script with
              | JObj fields =>
                  io_ret (default JNull (dict_get (py "sections") fields))
              | _ => io_raise (py "AttributeError")
              end;
            if negb (truthy sections) then io_ret tt
            else
              save_script (pl_fault env) dumps (Some script) ;;
              match py_len sections with
              | Some _ => io_ret tt
              | None => io_raise (py "TypeError")
              end ;;
              generate_final_outputs env script ;;
              io_ret tt
      end
  end.

End MasterMain.

(** ** Sample inputs, continued *)

(** Libraries that succeed at everything: a speech of 1000 bytes, a
    writer and an encoder that leave their files, and clips of one
    second. *)
Definition gtts_ok : list N → TextToSpeech.tts_result :=
  λ _, TextToSpeech.TtsSaved (replicate 1000 0%N).
Definition text_width_ten : list N → Z := λ line, (10 * Z.of_nat (length line))%Z.
Definition video_writer_ok
    : list N → Z * Z → list (list ((Z * Z) * list N)) → outcome (option (list N)) :=
  λ _ _ _, Returned (Some (py "mp4v")).
Definition duration_one : list N → outcome (@float_t exact_float) :=
  λ _, Returned 1%Q.
Definition floor_quotient_exact
    : @float_t exact_float → @float_t exact_float → outcome Z :=
  λ a b, if Qeq_bool b 0 then Raised (py "ZeroDivisionError")
         else Returned (Qfloor (a / b)).
Definition write_videofile_ok
    : @TextVideo.clip exact_float → list N → TextVideo.encoded :=
  λ _ _, TextVideo.Written (py "h264").

(** A section with a text. *)
Definition section_inertia : json := JObj [(py "text", JStr (py "Inertia"))].

(** A call to the given model of the generative-language service. *)
Definition is_genai (model : list N) (ev : syscall) : bool :=
  match ev with
  | SysGenAI m _ => bool_decide (m = model)
  | _ => false
  end.

(** A section as [generate_script] returns it: a dictionary with a
    text, a visualization type and a D3 prompt. *)
Definition section_ready (section : json) : Prop :=
  ∃ fields, section = JObj fields
            ∧ is_Some (dict_get (py "text") fields)
            ∧ is_Some (dict_get (py "visualization_type") fields)
            ∧ is_Some (dict_get (py "d3_prompt") fields).

(** A service that answers every prompt with the same text, a parser
    that yields a document of two sections, and the script that
    [generate_script] then returns. *)
Definition genai_echo : list N → list N → outcome (list N) :=
  λ _ _, Returned (py "Draw a cart.").
Definition document_two_sections : json :=
  JObj [ (py "title", JStr (py "Laws of motion"));
         (py "sections",
          JList [ JObj [ (py "text", JStr (py "Inertia"));
                         (py "visualization_type", JStr (py "inertia_demo")) ];
                  JObj [ (py "text", JStr (py "Force"));
                         (py "visualization_type", JStr (py "fma_calculator")) ] ]) ].
Definition loads_two_sections : list N → outcome json :=
  λ _, Returned document_two_sections.
Definition script_two_sections : json :=
  JObj [ (py "title", JStr (py "Laws of motion"));
         (py "sections",
          JList [ JObj [ (py "text", JStr (py "Inertia"));
                         (py "visualization_type", JStr (py "inertia_demo"));
                         (py "d3_prompt", JStr (py "Draw a cart.")) ];
                  JObj [ (py "text", JStr (py "Force"));
                         (py "visualization_type", JStr (py "fma_calculator"));
                         (py "d3_prompt", JStr (py "Draw a cart.")) ] ]) ].
Definition py_str_none : json → list N := λ _, py "None".

(** A call that comes before the outputs are generated: neither the
    start of the D3 process, nor a pool, nor a submission. *)
Definition before_outputs (ev : syscall) : bool :=
  match ev with
  | SysPopen _ | SysPool _ | SysSubmit _ _ => false
  | _ => true
  end.

(** The calls of a run of [main]: either none of them belongs to the
    generation of the outputs, or the generation begins right after the
    script was saved, with the D3 process and then a pool of one to
    eight workers. *)
Definition outputs_after_saving (evs : list syscall) : Prop :=
  Forall (λ ev, before_outputs ev = true) evs
  ∨ ∃ before after n,
      evs = before
            ++ [ SysWrite (py "output_script.json") true;
                 SysPopen [py "python"; py "d3_generator.py"];
                 SysPool n ]
            ++ after
      ∧ (1 <= n <= 8)%Z
      ∧ Forall (λ ev, before_outputs ev = true) before.

Definition logs_outputs_after_saving {T : Type} (c : io T) : Prop :=
  ∀ w, ∃ evs, log (c w).2 = log w ++ evs ∧ outputs_after_saving evs.

(** A serializer, for the sample runs. *)
Definition dumps_braces : json → list N := λ _, py "{}".

(** The world after [d3_generator.py] was loaded in an empty working
    directory: its output directory exists. *)
Definition world_d3_directory : world :=
  World {[ D3Generator.OUTPUT_DIR := Dir ]} [].
(** * Properties *)

Section Cleaning.

Lemma starts_with_split p s :
    starts_with p s = true → s = p ++ drop (length p) s.
  Proof.
    revert s; induction p as [|a p IH]; intros [|b s]; simpl; try done.
    intros [Hab Hp]%andb_prop. apply N.eqb_eq in Hab as ->.
    f_equal. by apply IH.
  Qed.

Lemma first_alt_split alts s m :
    first_alt alts s = Some m → m ∈ alts ∧ s = m ++ drop (length m) s.
  Proof.
    induction alts as [|a alts IH]; simpl; [done|].
    destruct (starts_with a s) eqn:Ha.
    - intros [= <-]. split; [left | by apply starts_with_split].
    - intros [Hin Hs]%IH. split; [by right | done].
  Qed.

Lemma erase_step_cons marks c s t :
    erase_step marks s t → erase_step marks (c :: s) (c :: t).
  Proof.
    intros (a & m & b & Hm & -> & ->). by exists (c :: a), m, b.
  Qed.

Lemma removes_only_cons marks c s t :
    removes_only marks s t → removes_only marks (c :: s) (c :: t).
  Proof.
    induction 1 as [|s t u Hst _ IH]; [apply rtc_refl|].
    eapply rtc_l; [by apply erase_step_cons | done].
  Qed.

Lemma removes_only_weaken marks marks' s t :
    marks ⊆ marks' → removes_only marks s t → removes_only marks' s t.
  Proof.
    intros Hsub. induction 1 as [|s t u (a & m & b & Hm & -> & ->) _ IH];
      [apply rtc_refl|].
    eapply rtc_l; [|done]. exists a, m, b. split; [by apply Hsub | done].
  Qed.

Lemma removes_only_sublist marks s t : removes_only marks s t → sublist t s.
  Proof.
    induction 1 as [|s t u (a & m & b & _ & -> & ->) _ IH]; [done|].
    etrans; [done|]. apply sublist_app; [done|]. apply sublist_inserts_l. done.
  Qed.

  (** The substitution deletes matched alternatives and nothing else. *)
Lemma re_sub_lits_removes_only alts s :
    removes_only alts s (re_sub_lits alts s).
  Proof.
    funelim (re_sub_lits alts s); simp re_sub_lits; [apply rtc_refl|].
    destruct (first_alt alts (c :: r)) as [[|c' m]|] eqn:Hm.
    - by apply removes_only_cons.
    - apply first_alt_split in Hm as [Hin Hs]. simpl in Hs.
      injection Hs as <- Hr.
      apply rtc_l with (drop (length m) r); [|exact (H [] c m)].
      exists [], (c :: m), (drop (length m) r). simpl.
      split; [done|]. split; [by f_equal | done].
    - by apply removes_only_cons.
  Qed.

Lemma lstrip_split s :
    ∃ l, s = l ++ lstrip s ∧ Forall (λ c, py_isspace c = true) l.
  Proof.
    induction s as [|c s (l & Hs & Hl)]; simpl; [by exists []|].
    destruct (py_isspace c) eqn:Hc; [|by exists []].
    exists (c :: l). split; [by rewrite Hs at 1 | by constructor].
  Qed.

Lemma rstrip_split s :
    ∃ r, s = rstrip s ++ r ∧ Forall (λ c, py_isspace c = true) r.
  Proof.
    destruct (lstrip_split (reverse s)) as (l & Hs & Hl).
    exists (reverse l). split; [|by apply Forall_reverse].
    unfold rstrip. rewrite <- reverse_app, <- Hs. by rewrite reverse_involutive.
  Qed.

Lemma strip_trimmed s : trimmed s (strip s).
  Proof.
    destruct (lstrip_split s) as (l & Hs & Hl).
    destruct (rstrip_split (lstrip s)) as (r & Hr & Hsp).
    exists l, r. unfold strip. by rewrite <- Hr.
  Qed.

Lemma lstrip_head s c r : lstrip s = c :: r → py_isspace c = false.
  Proof.
    induction s as [|a s IH]; simpl; [done|].
    destruct (py_isspace a) eqn:Ha; [done|]. by intros [= <- _].
  Qed.

Lemma trimmed_sublist s t : trimmed s t → sublist t s.
  Proof.
    intros (l & r & -> & _). apply sublist_inserts_l, sublist_inserts_r. done.
  Qed.

End Cleaning.

Lemma rstrip_last s r c : rstrip s = r ++ [c] → py_isspace c = false.
Proof.
  unfold rstrip. intros Hs. apply (f_equal reverse) in Hs.
  rewrite reverse_involutive, reverse_app in Hs. simpl in Hs.
  by eapply lstrip_head.
Qed.

(** What [strip] returns has no whitespace at either end. *)
Lemma strip_tight s :
  (∀ c r, strip s = c :: r → py_isspace c = false)
  ∧ (∀ c r, strip s = r ++ [c] → py_isspace c = false).
Proof.
  unfold strip. split; [|by intros c r; apply rstrip_last].
  intros c r Hs. destruct (rstrip_split (lstrip s)) as (sp & Hx & _).
  rewrite Hs in Hx. by eapply lstrip_head.
Qed.

Lemma starts_with_app (a b s : list N) :
  starts_with (a ++ b) s = true → starts_with a s = true.
Proof.
  revert s. induction a as [|x a IH]; intros [|y s]; simpl; try done.
  intros [-> Hs]%andb_true_iff. by rewrite IH.
Qed.

Lemma fence_pattern_with (lang : list N) :
  fence_pattern [fence ++ lang; fence].
Proof.
  intros s. cbn [first_alt].
  destruct (starts_with (fence ++ lang) s) eqn:Hlang.
  - split; [by eapply starts_with_app | done].
  - by destruct (starts_with fence s).
Qed.

Lemma fence_pattern_bare : fence_pattern [fence].
Proof. intros s. cbn [first_alt]. by destruct (starts_with fence s). Qed.

Section FencesGone.
Context (alts : list (list N)) (Halts : fence_pattern alts).

Lemma re_sub_lits_keep c r :
  starts_with fence (c :: r) = false →
  re_sub_lits alts (c :: r) = c :: re_sub_lits alts r.
Proof.
  intros Hc. simp re_sub_lits. specialize (Halts (c :: r)).
  destruct (first_alt alts (c :: r)) as [m|]; [|done].
  destruct Halts as [Hm _]. congruence.
Qed.

(** Where no two backticks begin the input, none begin the output. *)
Lemma re_sub_lits_two_ticks r :
  starts_with [96; 96]%N r = false →
  starts_with [96; 96]%N (re_sub_lits alts r) = false.
Proof.
  intros Hr. destruct r as [|x [|y r]].
  - by simp re_sub_lits.
  - rewrite re_sub_lits_keep
      by (unfold fence; cbn [py map list_ascii_of_string starts_with];
          by rewrite andb_false_r).
    by simp re_sub_lits.
  - assert (Hx : starts_with fence (x :: y :: r) = false).
    { change fence with ([96; 96]%N ++ [96%N]).
      destruct (starts_with (_ ++ _) _) eqn:Hf; [|done].
      apply starts_with_app in Hf. congruence. }
    rewrite (re_sub_lits_keep x) by done. cbn [starts_with] in *.
    destruct (96 =? x)%N eqn:Hx96; [|done]. cbn [andb] in *.
    destruct (96 =? y)%N eqn:Hy96; [done|].
    rewrite (re_sub_lits_keep y)
      by (unfold fence; cbn [py map list_ascii_of_string starts_with];
          change (N_of_ascii "`") with 96%N; by rewrite Hy96).
    cbn [starts_with]. by rewrite Hy96.
Qed.

(** No fence is left in the output. *)
Lemma re_sub_lits_no_fence s a b : re_sub_lits alts s ≠ a ++ fence ++ b.
Proof.
  revert a b. funelim (re_sub_lits alts s); intros a b; simp re_sub_lits.
  { by destruct a. }
  pose proof (Halts (c :: r)) as Hpat.
  destruct (first_alt alts (c :: r)) as [[|c' m]|] eqn:Hm.
  - by destruct Hpat.
  - apply (H [] c m).
  - destruct a as [|x a]; simpl.
    + intros [= -> Hout].
      assert (Hr : starts_with [96; 96]%N r = false).
      { simpl in Hpat. by destruct r as [|y [|z r]]. }
      apply re_sub_lits_two_ticks in Hr. rewrite Hout in Hr. done.
    + intros [= -> Hout]. by apply H0 in Hout.
Qed.

End FencesGone.

Ltac mark_subset :=
  intros ?; rewrite !elem_of_cons, !elem_of_nil; tauto.

(** Each cleaner deletes its own markers only: [clean_response] never
    deletes the word [json], nor [clean_json] the word [html]. *)
Lemma clean_response_markers (text : list N) :
  ∃ mid, removes_only [fence_html; fence] text mid
         ∧ trimmed mid (clean_response text).
Proof.
  eexists. split; [|apply strip_trimmed].
  etrans; [apply re_sub_lits_removes_only|].
  apply (removes_only_weaken [fence]); [mark_subset|].
  apply re_sub_lits_removes_only.
Qed.

Lemma clean_json_markers (text : list N) :
  ∃ mid, trimmed text mid
         ∧ removes_only [fence_json; fence] mid (clean_json text).
Proof.
  eexists. split; [apply strip_trimmed | apply re_sub_lits_removes_only].
Qed.

Lemma strip_no_fence (s : list N) :
  (∀ a b, s ≠ a ++ fence ++ b) → ∀ a b, strip s ≠ a ++ fence ++ b.
Proof.
  intros Hs a b Hstrip. destruct (strip_trimmed s) as (l & r & Heq & _).
  apply (Hs (l ++ a) (b ++ r)). rewrite Heq, Hstrip.
  by rewrite <- !app_assoc.
Qed.

(** C2.  Cleaning an LLM response only deletes material: [clean_response]
    deletes occurrences of the fence markers and then whitespace at the two
    ends; [clean_json] deletes whitespace at the two ends and then
    occurrences of the fence markers.  Every other character of the
    response is kept, in order; no fence is left in the result, and no
    whitespace at the ends of what [clean_response] returns; and no
    response is rejected (both functions are total). *)
Theorem cleaning_only_removes_fences_and_margins (text : list N) :
  (∃ mid, removes_only fence_markers text mid ∧
          trimmed mid (clean_response text)) ∧
  (∃ mid, trimmed text mid ∧
          removes_only fence_markers mid (clean_json text)) ∧
  sublist (clean_response text) text ∧
  sublist (clean_json text) text ∧
  (∀ a b, clean_response text ≠ a ++ fence ++ b) ∧
  (∀ a b, clean_json text ≠ a ++ fence ++ b) ∧
  (∀ c r, clean_response text = c :: r ∨ clean_response text = r ++ [c] →
          py_isspace c = false).
Proof.
  destruct (clean_response_markers text) as (mid1 & Hdel1 & Htrim1).
  destruct (clean_json_markers text) as (mid2 & Htrim2 & Hdel2).
  apply (removes_only_weaken _ fence_markers) in Hdel1;
    [|unfold fence_markers; mark_subset].
  apply (removes_only_weaken _ fence_markers) in Hdel2;
    [|unfold fence_markers; mark_subset].
  split; [by eauto|]. split; [by eauto|].
  split; [|split; [|split; [|split]]].
  - etrans; [by apply trimmed_sublist|]. by eapply removes_only_sublist.
  - etrans; [by eapply removes_only_sublist|]. by apply trimmed_sublist.
  - apply strip_no_fence, re_sub_lits_no_fence, fence_pattern_bare.
  - apply re_sub_lits_no_fence.
    apply (fence_pattern_with (py "json")).
  - unfold clean_response.
    destruct (strip_tight
                (re_sub_lits [fence] (re_sub_lits [fence_html; fence] text)))
      as [Hhead Hlast].
    intros c r [Hc | Hc]; [by eapply Hhead | by eapply Hlast].
Qed.


Section FloatFacts.
  Context {A : PyFloat} {L : PyFloatLaws A}.

Lemma fle_refl x : fle x x.
  Proof.
    unfold fle. destruct (fltb x x) eqn:Hx; [|done].
    by rewrite (flt_asym _ _ Hx) in Hx.
  Qed.

Lemma flt_fle x y : fltb x y = true → fle x y.
  Proof. apply flt_asym. Qed.

Lemma fmin_mono x y b : fle x y → fle (fmin x b) (fmin y b).
  Proof.
    unfold fmin. intros Hxy.
    destruct (fltb b x) eqn:Hx, (fltb b y) eqn:Hy.
    - apply fle_refl.
    - unfold fle. destruct (fltb y b) eqn:Hyb; [|done].
      pose proof (flt_trans _ _ _ Hyb Hx). unfold fle in Hxy. congruence.
    - exact Hx.
    - exact Hxy.
  Qed.

Lemma fmin_nonneg x b :
    fle (of_int 0) x → fle (of_int 0) b → fle (of_int 0) (fmin x b).
  Proof. unfold fmin. by destruct (fltb b x). Qed.

Lemma to_int_nonneg x a :
    fle (of_int 0) x → to_int x = Returned a → (0 <= a)%Z.
  Proof.
    intros Hx Ha.
    apply (to_int_mono (of_int 0) x 0%Z a); [apply fle_refl | done | | done].
    apply to_int_zero.
  Qed.

End FloatFacts.

Section ExactLaws.

Lemma exact_flt_iff (x y : Q) : @fltb exact_float x y = true ↔ (x < y)%Q.
  Proof.
    simpl. rewrite negb_true_iff, <- not_true_iff_false, Qle_bool_iff.
    split; [apply Qnot_le_lt | apply Qlt_not_le].
  Qed.

Lemma exact_fle_iff (x y : Q) : @fle exact_float x y ↔ (x <= y)%Q.
  Proof.
    unfold fle. simpl. rewrite negb_false_iff. apply Qle_bool_iff.
  Qed.

Lemma Qtrunc_mono (x y : Q) : (x <= y)%Q → (Qtrunc x <= Qtrunc y)%Z.
  Proof.
    intros Hxy. unfold Qtrunc.
    destruct (Qle_bool 0 x) eqn:Hx, (Qle_bool 0 y) eqn:Hy.
    - by apply Qfloor_resp_le.
    - apply Qle_bool_iff in Hx.
      apply not_true_iff_false in Hy. rewrite Qle_bool_iff in Hy.
      destruct Hy. by apply Qle_trans with x.
    - apply Qle_bool_iff in Hy.
      apply not_true_iff_false in Hx. rewrite Qle_bool_iff in Hx.
      apply Qnot_le_lt, Qlt_le_weak in Hx.
      etrans; [apply (Qceiling_resp_le x 0 Hx)|].
      apply (Qfloor_resp_le 0 y Hy).
    - by apply Qceiling_resp_le.
  Qed.

Lemma exact_float_laws : PyFloatLaws exact_float.
  Proof.
    split.
    - intros x y Hxy%exact_flt_iff. apply exact_fle_iff. by apply Qlt_le_weak.
    - intros x y z Hxy%exact_flt_iff Hyz%exact_flt_iff. apply exact_flt_iff.
      by apply Qlt_trans with y.
    - intros a b Hab. apply exact_fle_iff. simpl. rewrite <- Zle_Qle. lia.
    - intros n Hn. apply exact_flt_iff. simpl. by rewrite <- Zlt_Qlt.
    - intros x y d Hd%exact_flt_iff _ Hxy%exact_fle_iff. apply exact_fle_iff.
      simpl in *. unfold Qdiv. apply Qmult_le_compat_r; [done|].
      apply Qinv_le_0_compat. by apply Qlt_le_weak.
    - intros c x y Hc%exact_fle_iff _ Hxy%exact_fle_iff. apply exact_fle_iff.
      simpl in *. rewrite (Qmult_comm c x), (Qmult_comm c y).
      by apply Qmult_le_compat_r.
    - intros c x y Hc%exact_fle_iff _ Hxy%exact_fle_iff. apply exact_fle_iff.
      simpl in *. by apply Qmult_le_compat_r.
    - intros x d Hd%exact_flt_iff Hx%exact_fle_iff. apply exact_fle_iff.
      simpl in *. unfold Qdiv. apply Qmult_le_0_compat; [done|].
      apply Qinv_le_0_compat. by apply Qlt_le_weak.
    - intros x y Hx%exact_fle_iff Hy%exact_fle_iff. apply exact_fle_iff.
      simpl in *. by apply Qmult_le_0_compat.
    - intros x y a b _ Hxy%exact_fle_iff [= <-] [= <-]. by apply Qtrunc_mono.
    - reflexivity.
  Qed.

End ExactLaws.

(** ** IEEE-754 binary64 obeys the order laws

    The proof follows the rounding of [SpecFloat]: the exact result of
    an operation is located between two mantissas at the exponent of
    its binade, rounding to nearest even is monotone there, and a
    higher binade holds larger values.  Values are compared by their
    count of units of [2 ^ emin]. *)

Section Digits.
  Local Open Scope Z_scope.

Lemma digits2_pos_bounds (p : positive) :
    2 ^ (Zpos (digits2_pos p) - 1) <= Zpos p < 2 ^ Zpos (digits2_pos p).
  Proof.
    induction p as [p IH|p IH|]; simpl digits2_pos.
    - rewrite Pos2Z.inj_succ.
      replace (Z.succ (Zpos (digits2_pos p)) - 1)
        with (Z.succ (Zpos (digits2_pos p) - 1)) by lia.
      rewrite !Z.pow_succ_r by lia. lia.
    - rewrite Pos2Z.inj_succ.
      replace (Z.succ (Zpos (digits2_pos p)) - 1)
        with (Z.succ (Zpos (digits2_pos p) - 1)) by lia.
      rewrite !Z.pow_succ_r by lia. lia.
    - simpl. lia.
  Qed.

Lemma Zdigits2_bounds (m : Z) :
    0 < m → 2 ^ (Zdigits2 m - 1) <= m < 2 ^ Zdigits2 m.
  Proof. destruct m; try lia. intros _. apply digits2_pos_bounds. Qed.

Lemma Zdigits2_nonneg (m : Z) : 0 <= Zdigits2 m.
  Proof. destruct m; simpl; lia. Qed.

Lemma Zdigits2_pos (m : Z) : 0 < m → 0 < Zdigits2 m.
  Proof. destruct m; simpl; lia. Qed.

Lemma pow2_pos (k : Z) : 0 <= k → 0 < 2 ^ k.
  Proof. intros. apply Z.pow_pos_nonneg; lia. Qed.

Lemma pow2_le (a b : Z) : a <= b → 2 ^ a <= 2 ^ b.
  Proof. intros. apply Z.pow_le_mono_r; lia. Qed.

Lemma pow2_lt (a b : Z) : 0 <= b → a < b → 2 ^ a < 2 ^ b.
  Proof.
    intros Hb Hab. destruct (Z.le_gt_cases 0 a).
    - apply Z.pow_lt_mono_r; lia.
    - rewrite Z.pow_neg_r by lia. by apply pow2_pos.
  Qed.

Lemma pow2_add (a b : Z) : 0 <= a → 0 <= b → 2 ^ (a + b) = 2 ^ a * 2 ^ b.
  Proof. intros. by apply Z.pow_add_r. Qed.

Lemma Zdigits2_unique (m k : Z) :
    0 < m → 2 ^ (k - 1) <= m < 2 ^ k → Zdigits2 m = k.
  Proof.
    intros Hm [Hlo Hhi]. pose proof (Zdigits2_bounds m Hm) as [Hlo' Hhi'].
    pose proof (Zdigits2_pos m Hm).
    destruct (Z.lt_trichotomy (Zdigits2 m) k) as [Hlt | [Heq | Hgt]]; [|done|].
    - pose proof (pow2_le (Zdigits2 m) (k - 1)). lia.
    - pose proof (pow2_le k (Zdigits2 m - 1)). lia.
  Qed.

Lemma Zdigits2_ge (m k : Z) : 0 < m → 2 ^ k <= m → k < Zdigits2 m.
  Proof.
    intros Hm Hk. pose proof (Zdigits2_bounds m Hm) as [_ Hhi].
    destruct (Z.lt_ge_cases k (Zdigits2 m)); [done|].
    pose proof (pow2_le (Zdigits2 m) k). lia.
  Qed.

Lemma Zdigits2_le (m k : Z) :
    0 <= m → 0 <= k → m < 2 ^ k → Zdigits2 m <= k.
  Proof.
    intros Hm0 Hk Hm. destruct (Z.eq_dec m 0) as [->|Hne]; [done|].
    pose proof (Zdigits2_bounds m ltac:(lia)) as [Hlo _].
    destruct (Z.le_gt_cases (Zdigits2 m) k); [done|].
    pose proof (pow2_le k (Zdigits2 m - 1)). lia.
  Qed.

End Digits.

Section Shift.
  Local Open Scope Z_scope.

Lemma located_bounds m r s n d :
    0 < d → located m r s n d → m * d <= n < (m + 1) * d.
  Proof. intros Hd. destruct r, s; simpl; lia. Qed.

Lemma shr_1_located m r s n d :
    0 <= m → 0 < d → located m r s n d →
    located_rec (shr_1 (Build_shr_record m r s)) n (2 * d) ∧
    shr_m (shr_1 (Build_shr_record m r s)) = m / 2 ∧
    0 <= shr_m (shr_1 (Build_shr_record m r s)).
  Proof.
    intros Hm Hd Hloc. destruct m as [|p|p]; [| |lia].
    - split; [|split]; [|done|done].
      destruct r, s; unfold located_rec; simpl in *; lia.
    - destruct p as [q|q|].
      + split; [|split].
        * unfold located_rec. cbn [shr_1 shr_m shr_r shr_s].
          rewrite (Pos2Z.inj_xI q) in Hloc.
          destruct r, s; cbn [orb located] in *; lia.
        * cbn [shr_1 shr_m]. rewrite (Pos2Z.inj_xI q).
          apply Z.div_unique with 1; lia.
        * cbn [shr_1 shr_m]. lia.
      + split; [|split].
        * unfold located_rec. cbn [shr_1 shr_m shr_r shr_s].
          rewrite (Pos2Z.inj_xO q) in Hloc.
          destruct r, s; cbn [orb located] in *; lia.
        * cbn [shr_1 shr_m]. rewrite (Pos2Z.inj_xO q).
          apply Z.div_unique with 0; lia.
        * cbn [shr_1 shr_m]. lia.
      + split; [|split]; [|done|done].
        unfold located_rec. cbn [shr_1 shr_m shr_r shr_s].
        destruct r, s; cbn [orb located] in *; lia.
  Qed.

Lemma iter_pos_shr_1 (p : positive) : ∀ mrs n d,
    0 <= shr_m mrs → 0 < d → located_rec mrs n d →
    located_rec (SpecFloat.iter_pos shr_1 p mrs) n (d * 2 ^ Zpos p) ∧
    shr_m (SpecFloat.iter_pos shr_1 p mrs) = shr_m mrs / 2 ^ Zpos p ∧
    0 <= shr_m (SpecFloat.iter_pos shr_1 p mrs).
  Proof.
    induction p as [p IH|p IH|]; intros mrs n d Hm Hd Hloc.
    - cbn [SpecFloat.iter_pos].
      destruct mrs as [m r s].
      destruct (shr_1_located m r s n d Hm Hd Hloc) as (L1 & M1 & P1).
      destruct (IH _ n (2 * d) P1 ltac:(lia) L1) as (L2 & M2 & P2).
      pose proof (pow2_pos (Zpos p) ltac:(lia)) as Hpow.
      destruct (IH _ n (2 * d * 2 ^ Zpos p) P2 ltac:(lia) L2) as (L3 & M3 & P3).
      rewrite (Pos2Z.inj_xI p).
      replace (2 * Zpos p + 1) with (1 + Zpos p + Zpos p) by lia.
      rewrite !pow2_add by lia. change (2 ^ 1) with 2.
      split; [|split; [|done]].
      + replace (d * (2 * 2 ^ Zpos p * 2 ^ Zpos p))
          with (2 * d * 2 ^ Zpos p * 2 ^ Zpos p) by lia.
        done.
      + rewrite M3, M2, M1. cbn [shr_m].
        rewrite (Z.div_div m 2 (2 ^ Zpos p)) by lia.
        rewrite (Z.div_div m (2 * 2 ^ Zpos p) (2 ^ Zpos p)) by lia. done.
    - cbn [SpecFloat.iter_pos].
      pose proof (pow2_pos (Zpos p) ltac:(lia)) as Hpow.
      destruct (IH _ n d Hm Hd Hloc) as (L2 & M2 & P2).
      destruct (IH _ n (d * 2 ^ Zpos p) P2 ltac:(lia) L2) as (L3 & M3 & P3).
      rewrite (Pos2Z.inj_xO p).
      replace (2 * Zpos p) with (Zpos p + Zpos p) by lia.
      rewrite !pow2_add by lia.
      split; [|split; [|done]].
      + by rewrite Z.mul_assoc.
      + rewrite M3, M2. rewrite Z.div_div by lia. done.
    - cbn [SpecFloat.iter_pos]. destruct mrs as [m r s].
      destruct (shr_1_located m r s n d Hm Hd Hloc) as (L1 & M1 & P1).
      change (2 ^ 1) with 2. rewrite (Z.mul_comm d 2). done.
  Qed.

Lemma shr_located mrs e k n d :
    0 <= shr_m mrs → 0 < d → located_rec mrs n d →
    located_rec (shr mrs e k).1 n (d * 2 ^ Z.max k 0) ∧
    shr_m (shr mrs e k).1 = shr_m mrs / 2 ^ Z.max k 0 ∧
    (shr mrs e k).2 = e + Z.max k 0 ∧
    0 <= shr_m (shr mrs e k).1.
  Proof.
    intros Hm Hd Hloc. destruct k as [|p|p].
    - cbn [shr fst snd]. change (Z.max 0 0) with 0. change (2 ^ 0) with 1.
      rewrite Z.mul_1_r, Z.div_1_r, Z.add_0_r. done.
    - cbn [shr fst snd]. rewrite Z.max_l by lia.
      destruct (iter_pos_shr_1 p mrs n d Hm Hd Hloc) as (L & M & P). done.
    - cbn [shr fst snd]. rewrite Z.max_r by lia. change (2 ^ 0) with 1.
      rewrite Z.mul_1_r, Z.div_1_r, Z.add_0_r. done.
  Qed.

Lemma located_of_loc m l n d :
    located_rec (shr_record_of_loc m l) n d ↔
    match l with
    | loc_Exact => n = m * d
    | loc_Inexact Lt => m * d < n ∧ 2 * n < (2 * m + 1) * d
    | loc_Inexact Eq => 2 * n = (2 * m + 1) * d
    | loc_Inexact Gt => (2 * m + 1) * d < 2 * n ∧ n < (m + 1) * d
    end.
  Proof. by destruct l as [|[]]. Qed.

Lemma shr_m_of_loc m l : shr_m (shr_record_of_loc m l) = m.
  Proof. by destruct l as [|[]]. Qed.

  (** Rounding to nearest, ties to even, from the round and sticky
      bits. *)
Lemma round_nearest_even_range mrs :
    shr_m mrs <= round_nearest_even (shr_m mrs) (loc_of_shr_record mrs)
              <= shr_m mrs + 1.
  Proof.
    destruct mrs as [m [] []]; simpl; try destruct (Z.even m); lia.
  Qed.

Lemma cross_lt_le a c n1 d1 n2 d2 :
    0 < c → 0 < d1 → 0 < d2 →
    a * d1 < c * n1 → c * n2 <= a * d2 → n1 * d2 <= n2 * d1 → False.
  Proof.
    intros Hc H1 H2 Ha Hb Hle.
    assert (a * d1 * d2 < c * n1 * d2) by (apply Z.mul_lt_mono_pos_r; lia).
    assert (c * n2 * d1 <= a * d2 * d1) by (apply Z.mul_le_mono_nonneg_r; lia).
    assert (c * (n1 * d2) <= c * (n2 * d1)) by (apply Z.mul_le_mono_nonneg_l; lia).
    lia.
  Qed.

Lemma cross_le_lt a c n1 d1 n2 d2 :
    0 < c → 0 < d1 → 0 < d2 →
    a * d1 <= c * n1 → c * n2 < a * d2 → n1 * d2 <= n2 * d1 → False.
  Proof.
    intros Hc H1 H2 Ha Hb Hle.
    assert (a * d1 * d2 <= c * n1 * d2) by (apply Z.mul_le_mono_nonneg_r; lia).
    assert (c * n2 * d1 < a * d2 * d1) by (apply Z.mul_lt_mono_pos_r; lia).
    assert (c * (n1 * d2) <= c * (n2 * d1)) by (apply Z.mul_le_mono_nonneg_l; lia).
    lia.
  Qed.

Lemma round_nearest_even_mono mrs1 mrs2 n1 d1 n2 d2 :
    0 < d1 → 0 < d2 →
    located_rec mrs1 n1 d1 → located_rec mrs2 n2 d2 →
    n1 * d2 <= n2 * d1 →
    round_nearest_even (shr_m mrs1) (loc_of_shr_record mrs1)
    <= round_nearest_even (shr_m mrs2) (loc_of_shr_record mrs2).
  Proof.
    intros H1 H2 L1 L2 Hle.
    pose proof (round_nearest_even_range mrs1) as R1.
    pose proof (round_nearest_even_range mrs2) as R2.
    destruct mrs1 as [m1 r1 s1], mrs2 as [m2 r2 s2].
    unfold located_rec in *. cbn [shr_m shr_r shr_s] in *.
    pose proof (located_bounds _ _ _ _ _ H1 L1) as B1.
    pose proof (located_bounds _ _ _ _ _ H2 L2) as B2.
    destruct (Z.lt_trichotomy m1 m2) as [Hlt | [-> | Hgt]]; [lia| |].
    - destruct r1, s1, r2, s2; cbn [loc_of_shr_record round_nearest_even located] in *;
        try lia;
        try (destruct (Z.even m2); lia);
        exfalso;
        first [ apply (cross_lt_le (2 * m2 + 1) 2 n1 d1 n2 d2); lia
              | apply (cross_le_lt (2 * m2 + 1) 2 n1 d1 n2 d2); lia ].
    - exfalso. apply (cross_le_lt (m2 + 1) 1 n1 d1 n2 d2); try lia.
      assert ((m2 + 1) * d1 <= m1 * d1) by (apply Z.mul_le_mono_nonneg_r; lia).
      lia.
  Qed.

End Shift.

Section RoundAux.
  Local Open Scope Z_scope.
  Variables prec emax : Z.
  Hypothesis Hprec : 1 < prec.
  Hypothesis Hemax : prec < emax.

  Local Abbreviation emin := (emin prec emax).
  Local Abbreviation fexp := (fexp prec emax).

Lemma emin_eq : emin = 3 - emax - prec.
  Proof. reflexivity. Qed.

Lemma fexp_eq e : fexp e = Z.max (e - prec) emin.
  Proof. reflexivity. Qed.

Lemma binary_round_aux_finish sx mx ex lx :
    binary_round_aux prec emax sx mx ex lx
    = finish prec emax sx
        (round_nearest_even (shr_m (shr_fexp prec emax mx ex lx).1)
           (loc_of_shr_record (shr_fexp prec emax mx ex lx).1))
        (shr_fexp prec emax mx ex lx).2.
  Proof.
    unfold binary_round_aux, finish.
    by destruct (shr_fexp prec emax mx ex lx) as [mrs' e'].
  Qed.

Lemma shr_fexp_rounds_at mx ex lx n d :
    0 <= mx → 0 < d →
    located_rec (shr_record_of_loc mx lx) n d →
    ex <= fexp (Zdigits2 mx + ex) →
    let e' := (shr_fexp prec emax mx ex lx).2 in
    ex <= e' ∧ e' = fexp (Zdigits2 mx + ex) ∧
    rounds_at prec emax n (d * 2 ^ (e' - ex)) e'
      (round_nearest_even (shr_m (shr_fexp prec emax mx ex lx).1)
         (loc_of_shr_record (shr_fexp prec emax mx ex lx).1)).
  Proof.
    intros Hmx Hd Hloc Hex. unfold shr_fexp.
    set (k := fexp (Zdigits2 mx + ex) - ex).
    assert (Hk : 0 <= k) by (unfold k; lia).
    destruct (shr_located (shr_record_of_loc mx lx) ex k n d)
      as (L & M & E & P); [by rewrite shr_m_of_loc | done | done |].
    rewrite Z.max_l in L, M, E by done. rewrite shr_m_of_loc in M.
    cbn zeta. rewrite E.
    assert (Hke : ex + k = fexp (Zdigits2 mx + ex)) by (unfold k; lia).
    split; [lia|]. split; [done|].
    pose proof (pow2_pos k Hk) as Hpk.
    replace (ex + k - ex) with k by lia.
    exists (shr (shr_record_of_loc mx lx) ex k).1.
    split; [done|]. split; [lia|].
    rewrite M. rewrite Hke, fexp_eq.
    pose proof (Zdigits2_nonneg mx) as Hdg.
    assert (Hkd : Zdigits2 mx - prec <= k) by (unfold k; rewrite fexp_eq; lia).
    split; [|split; [lia|split; [|done]]].
    - split; [by apply Z.div_pos|].
      apply Z.div_lt_upper_bound; [done|].
      destruct (Z.eq_dec mx 0) as [->|Hne].
      + pose proof (pow2_pos prec ltac:(lia)). lia.
      + pose proof (Zdigits2_bounds mx ltac:(lia)) as [_ Hhi].
        pose proof (pow2_le (Zdigits2 mx) (k + prec) ltac:(lia)) as Hle.
        rewrite pow2_add in Hle by lia. lia.
    - intros Hnorm.
      assert (Hkn : k = Zdigits2 mx - prec) by (unfold k; rewrite fexp_eq in *; lia).
      destruct (Z.eq_dec mx 0) as [->|Hne].
      { exfalso. simpl in Hkn. lia. }
      pose proof (Zdigits2_bounds mx ltac:(lia)) as [Hlo _].
      apply Z.div_le_lower_bound; [done|].
      replace (Zdigits2 mx - 1) with (k + (prec - 1)) in Hlo by lia.
      rewrite pow2_add in Hlo by lia. lia.
  Qed.

Lemma rounds_at_range n d e m2 :
    rounds_at prec emax n d e m2 →
    0 <= m2 <= 2 ^ prec ∧ (emin < e → 2 ^ (prec - 1) <= m2).
  Proof.
    intros (mrs & L & Hd & Hm & He & Hn & ->).
    pose proof (round_nearest_even_range mrs). split; [lia|].
    intros H'. specialize (Hn H'). lia.
  Qed.

Lemma rounds_at_mono n1 d1 e1 m1 n2 d2 e2 m2 :
    rounds_at prec emax n1 d1 e1 m1 →
    rounds_at prec emax n2 d2 e2 m2 →
    n1 * 2 ^ (e1 - emin) * d2 <= n2 * 2 ^ (e2 - emin) * d1 →
    m1 * 2 ^ (e1 - emin) <= m2 * 2 ^ (e2 - emin).
  Proof.
    intros (mrs1 & L1 & Hd1 & Hm1 & He1 & Hn1 & ->)
           (mrs2 & L2 & Hd2 & Hm2 & He2 & Hn2 & ->) Hle.
    pose proof (round_nearest_even_range mrs1) as R1.
    pose proof (round_nearest_even_range mrs2) as R2.
    pose proof (located_bounds _ _ _ _ _ Hd1 L1) as B1.
    pose proof (located_bounds _ _ _ _ _ Hd2 L2) as B2.
    set (r1 := round_nearest_even _ _) in *.
    set (r2 := round_nearest_even (shr_m mrs2) _) in *.
    pose proof (pow2_pos (e1 - emin) ltac:(lia)) as P1.
    pose proof (pow2_pos (e2 - emin) ltac:(lia)) as P2.
    pose proof (pow2_pos (prec - 1) ltac:(lia)) as Pp.
    assert (Hprec2 : 2 ^ prec = 2 * 2 ^ (prec - 1)).
    { replace prec with (1 + (prec - 1)) at 1 by lia.
      rewrite pow2_add by lia. done. }
    destruct (Z.lt_trichotomy e1 e2) as [Hlt | [Heq | Hgt]].
    - (* a lower binade *)
      specialize (Hn2 ltac:(lia)).
      assert (H2 : 2 ^ (e2 - emin) = 2 ^ (e2 - e1) * 2 ^ (e1 - emin)).
      { rewrite <- pow2_add by lia. f_equal. lia. }
      assert (H3 : 2 <= 2 ^ (e2 - e1)).
      { change 2 with (2 ^ 1) at 1. apply pow2_le. lia. }
      rewrite H2.
      transitivity (2 ^ prec * 2 ^ (e1 - emin)).
      { apply Z.mul_le_mono_nonneg_r; lia. }
      transitivity (2 ^ (prec - 1) * (2 ^ (e2 - e1) * 2 ^ (e1 - emin))).
      { replace (2 ^ prec * 2 ^ (e1 - emin))
          with (2 ^ (prec - 1) * (2 * 2 ^ (e1 - emin)))
          by (rewrite Hprec2; ring).
        apply Z.mul_le_mono_nonneg_l; [lia|].
        apply Z.mul_le_mono_nonneg_r; lia. }
      apply Z.mul_le_mono_nonneg_r; [|lia].
      apply Z.mul_nonneg_nonneg; lia.
    - (* the same binade *)
      rewrite Heq in *.
      apply Z.mul_le_mono_nonneg_r; [lia|].
      apply (round_nearest_even_mono mrs1 mrs2 n1 d1 n2 d2); try done.
      apply Z.mul_le_mono_pos_r with (2 ^ (e2 - emin)); [done|]. lia.
    - (* a higher binade cannot hold a smaller value *)
      exfalso. specialize (Hn1 ltac:(lia)).
      assert (H2 : 2 ^ (e1 - emin) = 2 ^ (e1 - e2) * 2 ^ (e2 - emin)).
      { rewrite <- pow2_add by lia. f_equal. lia. }
      assert (H3 : 2 <= 2 ^ (e1 - e2)).
      { change 2 with (2 ^ 1) at 1. apply pow2_le. lia. }
      set (Q := 2 ^ (e2 - emin)) in *.
      set (G := 2 ^ (e1 - e2)) in *.
      set (H := 2 ^ (prec - 1)) in *.
      rewrite H2 in Hle.
      (* n1 >= H * d1, n2 < 2 * H * d2 *)
      assert (A1 : H * d1 <= n1).
      { transitivity (shr_m mrs1 * d1); [|lia].
        apply Z.mul_le_mono_nonneg_r; lia. }
      assert (A2 : n2 < 2 * H * d2).
      { apply Z.lt_le_trans with ((shr_m mrs2 + 1) * d2); [lia|].
        apply Z.mul_le_mono_nonneg_r; lia. }
      assert (A3 : H * d1 * (G * Q) * d2 <= n1 * (G * Q) * d2).
      { apply Z.mul_le_mono_nonneg_r; [lia|].
        apply Z.mul_le_mono_nonneg_r; [|done].
        apply Z.mul_nonneg_nonneg; lia. }
      assert (A4 : n2 * Q * d1 < 2 * H * d2 * Q * d1).
      { apply Z.mul_lt_mono_pos_r; [done|].
        apply Z.mul_lt_mono_pos_r; done. }
      assert (A5 : 2 * H * d2 * Q * d1 <= H * d1 * (G * Q) * d2).
      { replace (2 * H * d2 * Q * d1) with (2 * (H * d1 * Q * d2)) by ring.
        replace (H * d1 * (G * Q) * d2) with (G * (H * d1 * Q * d2)) by ring.
        apply Z.mul_le_mono_nonneg_r; [|done].
        repeat apply Z.mul_nonneg_nonneg; lia. }
      lia.
  Qed.

Lemma shr_fexp_exact m e :
    0 <= m <= 2 ^ prec → emin <= e → (emin < e → 2 ^ (prec - 1) <= m) →
    ∃ m' e',
      shr_m (shr_fexp prec emax m e loc_Exact).1 = m' ∧
      (shr_fexp prec emax m e loc_Exact).2 = e' ∧
      m' * 2 ^ (e' - emin) = m * 2 ^ (e - emin) ∧
      0 <= m' < 2 ^ prec ∧ emin <= e' ∧
      (emin < e' → 2 ^ (prec - 1) <= m') ∧
      (m' = 0 → m = 0).
  Proof.
    intros Hm He Hn. unfold shr_fexp.
    set (k := fexp (Zdigits2 m + e) - e).
    destruct (shr_located (shr_record_of_loc m loc_Exact) e k m 1)
      as (_ & M & E & _); [simpl; lia | lia | simpl; unfold located_rec; simpl; lia |].
    cbn [shr_record_of_loc] in M, E |- *.
    change (shr_m {| shr_m := m; shr_r := false; shr_s := false |}) with m in M.
    pose proof (pow2_pos (prec - 1) ltac:(lia)) as Pp.
    assert (Hprec2 : 2 ^ prec = 2 * 2 ^ (prec - 1)).
    { replace prec with (1 + (prec - 1)) at 1 by lia.
      rewrite pow2_add by lia. done. }
    destruct (Z.eq_dec m (2 ^ prec)) as [Heq | Hne].
    - (* the rounding carried into the next binade *)
      assert (Hdg : Zdigits2 m = prec + 1).
      { apply Zdigits2_unique; [lia|].
        replace (prec + 1 - 1) with prec by lia.
        split; [lia|]. rewrite Heq. apply pow2_lt; lia. }
      assert (Hk : k = 1) by (unfold k; rewrite Hdg, fexp_eq; lia).
      rewrite Hk in M, E. change (Z.max 1 0) with 1 in M, E.
      change (2 ^ 1) with 2 in M.
      exists (2 ^ (prec - 1)), (e + 1).
      rewrite Hk. split; [|split; [done|]].
      { rewrite M, Heq, Hprec2. by rewrite Z.mul_comm, Z.div_mul. }
      split.
      { rewrite Heq, Hprec2.
        replace (e + 1 - emin) with (1 + (e - emin)) by lia.
        rewrite pow2_add by lia. change (2 ^ 1) with 2. ring. }
      split; [lia|]. split; [lia|]. split; [lia|]. lia.
    - assert (Hdg : Zdigits2 m <= prec) by (apply Zdigits2_le; lia).
      assert (Hk : k <= 0).
      { unfold k. rewrite fexp_eq.
        destruct (Z.eq_dec m 0) as [->|Hm0]; [simpl; lia|].
        destruct (Z.le_gt_cases e emin); [lia|].
        specialize (Hn ltac:(lia)).
        pose proof (Zdigits2_ge m (prec - 1) ltac:(lia) Hn). lia. }
      rewrite Z.max_r in M, E by done. change (2 ^ 0) with 1 in M.
      rewrite Z.div_1_r in M. rewrite Z.add_0_r in E.
      exists m, e. repeat split; try done; try lia.
  Qed.

Lemma top_pos : 0 < top prec emax.
  Proof. apply pow2_pos. rewrite emin_eq. lia. Qed.

Lemma top_split :
    top prec emax = 2 ^ (prec - 1) * 2 ^ (emax - prec + 1 - emin).
  Proof.
    unfold top. rewrite <- pow2_add by (rewrite ?emin_eq; lia).
    f_equal. lia.
  Qed.

Lemma finish_spec sx m e :
    0 <= m <= 2 ^ prec → emin <= e → (emin < e → 2 ^ (prec - 1) <= m) →
    SpecFloat.valid_binary prec emax (finish prec emax sx m e) = true ∧
    arank prec emax (finish prec emax sx m e)
    = Z.min (m * 2 ^ (e - emin)) (top prec emax) ∧
    match finish prec emax sx m e with
    | S754_zero s => s = sx ∧ m = 0
    | S754_infinity s | S754_finite s _ _ => s = sx
    | S754_nan => False
    end.
  Proof.
    intros Hm He Hn.
    destruct (shr_fexp_exact m e Hm He Hn)
      as (m' & e' & M & E & V & Hm' & He' & Hn' & Hz).
    unfold finish.
    destruct (shr_fexp prec emax m e loc_Exact) as [mrs e''].
    cbn [fst snd] in M, E. subst e''. rewrite M.
    pose proof top_pos as Htop.
    pose proof (pow2_pos (prec - 1) ltac:(lia)) as Pp.
    pose proof (pow2_pos (e' - emin) ltac:(lia)) as Pe.
    assert (Hprec2 : 2 ^ prec = 2 * 2 ^ (prec - 1)).
    { replace prec with (1 + (prec - 1)) at 1 by lia.
      rewrite pow2_add by lia. done. }
    destruct m' as [|p|p]; [| |lia].
    - specialize (Hz eq_refl). subst m.
      split; [done|]. split; [|done]. simpl. lia.
    - destruct (Z.leb_spec e' (emax - prec)) as [Hfit | Hover].
      + (* a finite value *)
        split; [|split; [|done]].
        * cbn [SpecFloat.valid_binary]. unfold bounded, canonical_mantissa.
          apply andb_true_iff. split; [|by apply Z.leb_le].
          apply Z.eqb_eq. rewrite fexp_eq.
          change (Zpos (digits2_pos p)) with (Zdigits2 (Zpos p)).
          assert (Zdigits2 (Zpos p) <= prec) by (apply Zdigits2_le; lia).
          destruct (Z.le_gt_cases e' emin); [lia|].
          specialize (Hn' ltac:(lia)).
          pose proof (Zdigits2_ge (Zpos p) (prec - 1) ltac:(lia) Hn'). lia.
        * cbn [arank]. unfold units. rewrite V.
          rewrite Z.min_l; [done|]. rewrite <- V.
          apply Z.lt_le_incl.
          apply Z.lt_le_trans with (2 ^ prec * 2 ^ (e' - emin)).
          { apply Z.mul_lt_mono_pos_r; lia. }
          rewrite top_split, Hprec2.
          replace (2 * 2 ^ (prec - 1) * 2 ^ (e' - emin))
            with (2 ^ (prec - 1) * (2 ^ 1 * 2 ^ (e' - emin))) by ring.
          apply Z.mul_le_mono_nonneg_l; [lia|].
          rewrite <- pow2_add by lia. apply pow2_le. lia.
      + (* an overflow *)
        split; [done|]. split; [|done].
        cbn [arank]. rewrite <- V. rewrite Z.min_r; [done|].
        specialize (Hn' ltac:(rewrite emin_eq; lia)).
        rewrite top_split.
        transitivity (2 ^ (prec - 1) * 2 ^ (e' - emin)).
        * apply Z.mul_le_mono_nonneg_l; [lia|]. apply pow2_le. lia.
        * apply Z.mul_le_mono_nonneg_r; lia.
  Qed.

Lemma canonical_mantissa_facts m e :
    canonical_mantissa prec emax m e = true →
    emin <= e ∧ Zpos m < 2 ^ prec ∧ (emin < e → 2 ^ (prec - 1) <= Zpos m).
  Proof.
    unfold canonical_mantissa. intros Hc%Z.eqb_eq. rewrite fexp_eq in Hc.
    change (Zpos (digits2_pos m)) with (Zdigits2 (Zpos m)) in Hc.
    pose proof (Zdigits2_bounds (Zpos m) ltac:(lia)) as [Hlo Hhi].
    split; [lia|]. split.
    - pose proof (pow2_le (Zdigits2 (Zpos m)) prec ltac:(lia)). lia.
    - intros He. replace (Zdigits2 (Zpos m)) with prec in Hlo by lia. done.
  Qed.

Lemma valid_units s m e :
    SpecFloat.valid_binary prec emax (S754_finite s m e) = true →
    0 < units prec emax m e < top prec emax.
  Proof.
    cbn [SpecFloat.valid_binary]. unfold bounded.
    intros [Hc Hb%Z.leb_le]%andb_true_iff.
    destruct (canonical_mantissa_facts m e Hc) as (He & Hm & _).
    pose proof (pow2_pos (e - emin) ltac:(lia)) as Pe.
    pose proof (pow2_pos (prec - 1) ltac:(lia)) as Pp.
    unfold units. split; [lia|].
    apply Z.lt_le_trans with (2 ^ prec * 2 ^ (e - emin)).
    { apply Z.mul_lt_mono_pos_r; lia. }
    unfold top. rewrite <- pow2_add by lia. apply pow2_le. lia.
  Qed.

Lemma units_binade m1 e1 m2 e2 :
    canonical_mantissa prec emax m1 e1 = true →
    canonical_mantissa prec emax m2 e2 = true →
    e1 < e2 → units prec emax m1 e1 < units prec emax m2 e2.
  Proof.
    intros (He1 & Hm1 & _)%canonical_mantissa_facts
           (He2 & _ & Hn2)%canonical_mantissa_facts Hlt.
    specialize (Hn2 ltac:(lia)). unfold units.
    pose proof (pow2_pos (e1 - emin) ltac:(lia)) as Pe.
    pose proof (pow2_pos (prec - 1) ltac:(lia)) as Pp.
    apply Z.lt_le_trans with (2 ^ prec * 2 ^ (e1 - emin)).
    { apply Z.mul_lt_mono_pos_r; lia. }
    transitivity (2 ^ (prec - 1) * 2 ^ (e2 - emin)).
    - rewrite <- !pow2_add by lia. apply pow2_le. lia.
    - apply Z.mul_le_mono_nonneg_r; [|done].
      apply Z.lt_le_incl, pow2_pos. lia.
  Qed.

Lemma arank_nonneg x : 0 <= arank prec emax x.
  Proof.
    destruct x as [| | |s m e]; cbn [arank]; try lia.
    - pose proof top_pos. lia.
    - unfold units. destruct (Z.le_gt_cases emin e).
      + pose proof (pow2_pos (e - emin) ltac:(lia)). lia.
      + rewrite Z.pow_neg_r by lia. lia.
  Qed.

Lemma rounded_valid r sx a b :
    rounded prec emax r sx a b →
    SpecFloat.valid_binary prec emax r = true ∧ r ≠ S754_nan ∧
    arank prec emax r <= top prec emax ∧
    (sx = false → not_negative r).
  Proof.
    intros (n & d & e & m2 & -> & Hr & Hb & Heq).
    pose proof Hr as (mrs & _ & _ & _ & He & _).
    destruct (rounds_at_range _ _ _ _ Hr) as [Hm Hn].
    destruct (finish_spec sx m2 e Hm He Hn) as (V & A & S).
    split; [done|]. split; [by destruct (finish prec emax sx m2 e)|].
    split; [rewrite A; lia|].
    intros ->. by destruct (finish prec emax false m2 e).
  Qed.

Lemma rounded_mono r1 s1 a1 b1 r2 s2 a2 b2 :
    rounded prec emax r1 s1 a1 b1 → rounded prec emax r2 s2 a2 b2 →
    a1 * b2 <= a2 * b1 →
    arank prec emax r1 <= arank prec emax r2.
  Proof.
    intros (n1 & d1 & e1 & m1 & -> & Hr1 & Hb1 & Heq1)
           (n2 & d2 & e2 & m2 & -> & Hr2 & Hb2 & Heq2) Hle.
    pose proof Hr1 as (mrs1 & _ & Hd1 & _ & He1 & _).
    pose proof Hr2 as (mrs2 & _ & Hd2 & _ & He2 & _).
    destruct (rounds_at_range _ _ _ _ Hr1) as [Hm1 Hn1].
    destruct (rounds_at_range _ _ _ _ Hr2) as [Hm2 Hn2].
    destruct (finish_spec s1 m1 e1 Hm1 He1 Hn1) as (_ & -> & _).
    destruct (finish_spec s2 m2 e2 Hm2 He2 Hn2) as (_ & -> & _).
    apply Z.min_le_compat_r.
    apply (rounds_at_mono n1 d1 e1 m1 n2 d2 e2 m2 Hr1 Hr2).
    set (X1 := n1 * 2 ^ (e1 - emin)) in *.
    set (X2 := n2 * 2 ^ (e2 - emin)) in *.
    apply Z.mul_le_mono_pos_r with (b1 * b2); [lia|].
    replace (X1 * d2 * (b1 * b2)) with (X1 * b1 * (d2 * b2)) by ring.
    replace (X2 * d1 * (b1 * b2)) with (X2 * b2 * (d1 * b1)) by ring.
    rewrite Heq1, Heq2.
    replace (a1 * d1 * (d2 * b2)) with (a1 * b2 * (d1 * d2)) by ring.
    replace (a2 * d2 * (d1 * b1)) with (a2 * b1 * (d1 * d2)) by ring.
    apply Z.mul_le_mono_nonneg_r; [lia|done].
  Qed.

Lemma binary_round_aux_rounded sx mx ex lx n d a b :
    0 <= mx → 0 < d → 0 < b →
    located_rec (shr_record_of_loc mx lx) n d →
    ex <= fexp (Zdigits2 mx + ex) →
    (∀ e', ex <= e' → emin <= e' →
           n * 2 ^ (e' - emin) * b = a * (d * 2 ^ (e' - ex))) →
    rounded prec emax (binary_round_aux prec emax sx mx ex lx) sx a b.
  Proof.
    intros Hmx Hd Hb Hloc Hex Hval.
    destruct (shr_fexp_rounds_at mx ex lx n d Hmx Hd Hloc Hex) as (Hle & He' & Hr).
    rewrite binary_round_aux_finish.
    eexists n, _, _, _. split; [done|]. split; [exact Hr|]. split; [done|].
    apply Hval; [done|]. rewrite He', fexp_eq. lia.
  Qed.

Lemma emin_neg : emin < 0.
  Proof. rewrite emin_eq. lia. Qed.

Lemma Zdigits2_mul_ge (m1 m2 : positive) :
    Zdigits2 (Zpos m1) + Zdigits2 (Zpos m2) - 1 <= Zdigits2 (Zpos (m1 * m2)).
  Proof.
    pose proof (Zdigits2_bounds (Zpos m1) ltac:(lia)) as [L1 _].
    pose proof (Zdigits2_bounds (Zpos m2) ltac:(lia)) as [L2 _].
    pose proof (Zdigits2_pos (Zpos m1) ltac:(lia)).
    pose proof (Zdigits2_pos (Zpos m2) ltac:(lia)).
    assert (2 ^ (Zdigits2 (Zpos m1) + Zdigits2 (Zpos m2) - 2) <= Zpos (m1 * m2)).
    { replace (Zdigits2 (Zpos m1) + Zdigits2 (Zpos m2) - 2)
        with ((Zdigits2 (Zpos m1) - 1) + (Zdigits2 (Zpos m2) - 1)) by lia.
      rewrite pow2_add by lia. rewrite Pos2Z.inj_mul.
      apply Z.mul_le_mono_nonneg; try done; apply Z.lt_le_incl, pow2_pos; lia. }
    pose proof (Zdigits2_ge (Zpos (m1 * m2))
                  (Zdigits2 (Zpos m1) + Zdigits2 (Zpos m2) - 2) ltac:(lia)).
    lia.
  Qed.

  (** The product of two finite values. *)
Lemma SFmul_rounded sx mx ex sy my ey :
    SpecFloat.valid_binary prec emax (S754_finite sx mx ex) = true →
    SpecFloat.valid_binary prec emax (S754_finite sy my ey) = true →
    rounded prec emax
      (SFmul prec emax (S754_finite sx mx ex) (S754_finite sy my ey))
      (xorb sx sy)
      (units prec emax mx ex * units prec emax my ey) (2 ^ (- emin)).
  Proof.
    cbn [SpecFloat.valid_binary]. unfold bounded.
    intros [Cx _]%andb_true_iff [Cy _]%andb_true_iff.
    pose proof emin_neg as Hemin.
    pose proof (pow2_pos (- emin) ltac:(lia)) as Pm.
    pose proof Cx as Cx'. pose proof Cy as Cy'.
    unfold canonical_mantissa in Cx', Cy'.
    apply Z.eqb_eq in Cx', Cy'. rewrite fexp_eq in Cx', Cy'.
    change (Zpos (digits2_pos mx)) with (Zdigits2 (Zpos mx)) in Cx'.
    change (Zpos (digits2_pos my)) with (Zdigits2 (Zpos my)) in Cy'.
    pose proof (Zdigits2_mul_ge mx my) as Hdg.
    pose proof (Zdigits2_pos (Zpos mx) ltac:(lia)).
    pose proof (Zdigits2_pos (Zpos my) ltac:(lia)).
    cbn [SFmul].
    apply (binary_round_aux_rounded _ _ _ _ (Zpos (mx * my)) 1); try lia.
    - apply located_of_loc. lia.
    - rewrite fexp_eq. lia.
    - intros e' He1 He2. unfold units.
      rewrite Pos2Z.inj_mul.
      replace (Zpos mx * Zpos my * 2 ^ (e' - emin) * 2 ^ (- emin))
        with (Zpos mx * Zpos my * (2 ^ (e' - emin) * 2 ^ (- emin))) by ring.
      replace (Zpos mx * 2 ^ (ex - emin) * (Zpos my * 2 ^ (ey - emin))
               * (1 * 2 ^ (e' - (ex + ey))))
        with (Zpos mx * Zpos my
              * (2 ^ (ex - emin) * 2 ^ (ey - emin) * 2 ^ (e' - (ex + ey))))
        by ring.
      f_equal. rewrite <- !pow2_add by lia. f_equal. lia.
  Qed.

Lemma new_location_located m2 q r :
    0 < m2 → 0 <= r < m2 →
    located_rec (shr_record_of_loc q (new_location m2 r)) (m2 * q + r) m2.
  Proof.
    intros Hm2 Hr. apply located_of_loc. unfold new_location.
    destruct (Z.even m2) eqn:Hev.
    - unfold new_location_even.
      destruct (Z.eqb_spec r 0) as [->|Hne]; [lia|].
      destruct (Z.compare_spec (2 * r) m2); lia.
    - unfold new_location_odd.
      destruct (Z.eqb_spec r 0) as [->|Hne]; [lia|].
      assert (Hodd : 2 * r ≠ m2).
      { intros Heq. apply not_true_iff_false in Hev. apply Hev.
        apply Z.even_spec. exists r. lia. }
      destruct (Z.compare_spec (2 * r + 1) m2); lia.
  Qed.

Lemma SFdiv_core_binary_spec (m1 : positive) e1 (m2 : positive) e2 :
    let qel := SFdiv_core_binary prec emax (Zpos m1) e1 (Zpos m2) e2 in
    let s := e1 - e2 - qel.1.2 in
    0 <= s ∧ 0 <= qel.1.1 ∧
    located_rec (shr_record_of_loc qel.1.1 qel.2) (Zpos m1 * 2 ^ s) (Zpos m2) ∧
    qel.1.2 <= fexp (Zdigits2 qel.1.1 + qel.1.2).
  Proof.
    unfold SFdiv_core_binary.
    set (d1 := Zdigits2 (Zpos m1)). set (d2 := Zdigits2 (Zpos m2)).
    set (e' := Z.min (fexp (d1 + e1 - (d2 + e2))) (e1 - e2)).
    set (s := e1 - e2 - e').
    assert (Hs : 0 <= s) by (unfold s, e'; lia).
    set (m' := match s with
               | 0 => Zpos m1
               | Zpos _ => Z.shiftl (Zpos m1) s
               | Zneg _ => 0
               end).
    assert (Hm' : m' = Zpos m1 * 2 ^ s).
    { unfold m'. destruct s as [|p|p] eqn:Hsp; [simpl; lia| |lia].
      by rewrite Z.shiftl_mul_pow2. }
    pose proof (Z_div_mod m' (Zpos m2) ltac:(lia)) as Hdiv.
    destruct (Z.div_eucl m' (Zpos m2)) as [q r]. destruct Hdiv as [Hqr Hr].
    cbn [fst snd]. fold s.
    pose proof (pow2_pos s Hs) as Ps.
    assert (Hq : 0 <= q).
    { destruct (Z.le_gt_cases 0 q); [done|]. exfalso.
      assert (Zpos m2 * q <= Zpos m2 * (-1)) by (apply Z.mul_le_mono_nonneg_l; lia).
      lia. }
    split; [done|]. split; [done|]. split.
    { rewrite <- Hm', Hqr. apply new_location_located; lia. }
    pose proof (Zdigits2_bounds (Zpos m1) ltac:(lia)) as [L1 U1].
    pose proof (Zdigits2_bounds (Zpos m2) ltac:(lia)) as [L2 U2].
    pose proof (Zdigits2_pos (Zpos m1) ltac:(lia)) as P1.
    pose proof (Zdigits2_pos (Zpos m2) ltac:(lia)) as P2.
    fold d1 in L1, U1, P1. fold d2 in L2, U2, P2.
    assert (Hlow : 2 ^ (d1 - 1 + s) <= m').
    { rewrite Hm', pow2_add by lia. apply Z.mul_le_mono_nonneg_r; lia. }
    rewrite !fexp_eq.
    destruct (Z.eq_dec q 0) as [->|Hq0].
    - (* the quotient is below one unit of the last place *)
      change (Zdigits2 0) with 0.
      assert (m' < 2 ^ d2) by lia.
      assert (d1 - 1 + s < d2).
      { destruct (Z.lt_ge_cases (d1 - 1 + s) d2); [done|].
        pose proof (pow2_le d2 (d1 - 1 + s) ltac:(lia)). lia. }
      clearbody m'. subst s e'. rewrite !fexp_eq in *. lia.
    - assert (Hdq : d1 + s - d2 <= Zdigits2 q).
      { pose proof (Zdigits2_pos q ltac:(lia)).
        destruct (Z.le_gt_cases (d1 + s - d2) 1); [lia|].
        assert (2 ^ (d1 - 1 + s - d2) <= q).
        { assert (Hq' : q = m' / Zpos m2).
          { apply Z.div_unique with r; lia. }
          rewrite Hq'. apply Z.div_le_lower_bound; [lia|].
          transitivity (2 ^ d2 * 2 ^ (d1 - 1 + s - d2)).
          - apply Z.mul_le_mono_nonneg_r; [|lia].
            apply Z.lt_le_incl, pow2_pos. lia.
          - rewrite <- pow2_add by lia.
            replace (d2 + (d1 - 1 + s - d2)) with (d1 - 1 + s) by lia. done. }
        pose proof (Zdigits2_ge q (d1 - 1 + s - d2) ltac:(lia)). lia. }
      clearbody m'. subst s e'. rewrite !fexp_eq in *. lia.
  Qed.

  (** The quotient of two finite values. *)
Lemma SFdiv_rounded sx mx ex sy my ey :
    SpecFloat.valid_binary prec emax (S754_finite sx mx ex) = true →
    SpecFloat.valid_binary prec emax (S754_finite sy my ey) = true →
    rounded prec emax
      (SFdiv prec emax (S754_finite sx mx ex) (S754_finite sy my ey))
      (xorb sx sy)
      (units prec emax mx ex * 2 ^ (- emin)) (units prec emax my ey).
  Proof.
    intros Vx Vy.
    pose proof (valid_units _ _ _ Vy) as [Uy _].
    cbn [SpecFloat.valid_binary] in Vx, Vy. unfold bounded in Vx, Vy.
    apply andb_true_iff in Vx as [Cx _]. apply andb_true_iff in Vy as [Cy _].
    destruct (canonical_mantissa_facts _ _ Cx) as (Hex & _ & _).
    destruct (canonical_mantissa_facts _ _ Cy) as (Hey & _ & _).
    pose proof emin_neg as Hemin.
    cbn [SFdiv].
    pose proof (SFdiv_core_binary_spec mx ex my ey) as Hcore.
    destruct (SFdiv_core_binary prec emax (Zpos mx) ex (Zpos my) ey)
      as [[q e'] l].
    cbn [fst snd] in Hcore. destruct Hcore as (Hs & Hq & Hloc & HP).
    apply (binary_round_aux_rounded _ _ _ _ (Zpos mx * 2 ^ (ex - ey - e'))
             (Zpos my)); try done.
    intros e'' He1 He2. unfold units.
    replace (Zpos mx * 2 ^ (ex - ey - e') * 2 ^ (e'' - emin)
             * (Zpos my * 2 ^ (ey - emin)))
      with (Zpos mx * Zpos my
            * (2 ^ (ex - ey - e') * 2 ^ (e'' - emin) * 2 ^ (ey - emin)))
      by ring.
    replace (Zpos mx * 2 ^ (ex - emin) * 2 ^ (- emin)
             * (Zpos my * 2 ^ (e'' - e')))
      with (Zpos mx * Zpos my
            * (2 ^ (ex - emin) * 2 ^ (- emin) * 2 ^ (e'' - e')))
      by ring.
    f_equal. rewrite <- !pow2_add by lia. f_equal. lia.
  Qed.

Lemma pos_iter_xO (m d : positive) :
    Zpos (Pos.iter xO m d) = Zpos m * 2 ^ Zpos d.
  Proof.
    induction d as [|d IH] using Pos.peano_ind.
    - simpl. lia.
    - rewrite Pos.iter_succ, Pos2Z.inj_xO, IH, Pos2Z.inj_succ.
      rewrite Z.pow_succ_r by lia. ring.
  Qed.

  (** The conversion of a positive integer. *)
Lemma binary_normalize_rounded (p : positive) :
    rounded prec emax (binary_normalize prec emax (Zpos p) 0 false) false
      (Zpos p * 2 ^ (- emin)) 1.
  Proof.
    pose proof emin_neg as Hemin.
    cbn [binary_normalize]. unfold binary_round, shl_align.
    change (Zpos (digits2_pos p)) with (Zdigits2 (Zpos p)).
    pose proof (Zdigits2_bounds (Zpos p) ltac:(lia)) as [Lp Up].
    pose proof (Zdigits2_pos (Zpos p) ltac:(lia)) as Pp.
    set (dg := Zdigits2 (Zpos p)) in *.
    rewrite Z.add_0_r, Z.sub_0_r.
    destruct (fexp dg) as [|k|k] eqn:Hfe.
    - apply (binary_round_aux_rounded _ _ _ _ (Zpos p) 1); try lia.
      + apply located_of_loc. lia.
      + fold dg. rewrite Z.add_0_r, Hfe. lia.
      + intros e' He1 He2. rewrite Z.sub_0_r.
        replace (Zpos p * 2 ^ (e' - emin) * 1)
          with (Zpos p * 2 ^ (e' - emin)) by ring.
        replace (Zpos p * 2 ^ (- emin) * (1 * 2 ^ e'))
          with (Zpos p * (2 ^ (- emin) * 2 ^ e')) by ring.
        f_equal. rewrite <- pow2_add by lia. f_equal. lia.
    - apply (binary_round_aux_rounded _ _ _ _ (Zpos p) 1); try lia.
      + apply located_of_loc. lia.
      + fold dg. rewrite Z.add_0_r, Hfe. lia.
      + intros e' He1 He2. rewrite Z.sub_0_r.
        replace (Zpos p * 2 ^ (e' - emin) * 1)
          with (Zpos p * 2 ^ (e' - emin)) by ring.
        replace (Zpos p * 2 ^ (- emin) * (1 * 2 ^ e'))
          with (Zpos p * (2 ^ (- emin) * 2 ^ e')) by ring.
        f_equal. rewrite <- pow2_add by lia. f_equal. lia.
    - assert (Hdm : Zdigits2 (Zpos (Pos.iter xO p k)) = dg + Zpos k).
      { apply Zdigits2_unique; [lia|]. rewrite pos_iter_xO.
        replace (dg + Zpos k - 1) with ((dg - 1) + Zpos k) by lia.
        rewrite !pow2_add by lia.
        pose proof (pow2_pos (Zpos k) ltac:(lia)).
        split; [apply Z.mul_le_mono_nonneg_r; lia|].
        apply Z.mul_lt_mono_pos_r; lia. }
      apply (binary_round_aux_rounded _ _ _ _ (Zpos (Pos.iter xO p k)) 1);
        try lia.
      + apply located_of_loc. lia.
      + rewrite Hdm.
        replace (dg + Zpos k + Zneg k) with dg by lia. rewrite Hfe. lia.
      + intros e' He1 He2. rewrite pos_iter_xO.
        replace (Zpos p * 2 ^ Zpos k * 2 ^ (e' - emin) * 1)
          with (Zpos p * (2 ^ Zpos k * 2 ^ (e' - emin))) by ring.
        replace (Zpos p * 2 ^ (- emin) * (1 * 2 ^ (e' - Zneg k)))
          with (Zpos p * (2 ^ (- emin) * 2 ^ (e' - Zneg k))) by ring.
        f_equal. rewrite <- !pow2_add by lia. f_equal. lia.
  Qed.

Lemma SFltb_srank x y :
    SpecFloat.valid_binary prec emax x = true →
    SpecFloat.valid_binary prec emax y = true →
    x ≠ S754_nan → y ≠ S754_nan →
    SFltb x y = (srank prec emax x <? srank prec emax y).
  Proof.
    intros Vx Vy Nx Ny. pose proof top_pos as Htop.
    destruct x as [sx|sx| |sx mx ex], y as [sy|sy| |sy my ey]; try done;
      try destruct sx; try destruct sy;
      cbn [srank]; unfold SFltb; cbn [SFcompare];
      try (pose proof (valid_units _ _ _ Vx));
      try (pose proof (valid_units _ _ _ Vy));
      try (symmetry; first [apply Z.ltb_lt; lia | apply Z.ltb_ge; lia]).
    - cbn [SpecFloat.valid_binary] in Vx, Vy. unfold bounded in Vx, Vy.
      apply andb_true_iff in Vx as [Cx _]. apply andb_true_iff in Vy as [Cy _].
      destruct (Z.compare_spec ex ey) as [Heq | Hlt | Hgt].
      + subst ey. unfold units.
        destruct (canonical_mantissa_facts _ _ Cx) as (He & _ & _).
        pose proof (pow2_pos (ex - emin) ltac:(lia)) as Pe.
        change (Pos.compare_cont Eq mx my) with (Pos.compare mx my).
        destruct (Pos.compare_spec mx my) as [-> | Hm | Hm]; symmetry; cbn [CompOpp].
        * apply Z.ltb_irrefl.
        * apply Z.ltb_ge.
          assert (Zpos mx * 2 ^ (ex - emin) <= Zpos my * 2 ^ (ex - emin))
            by (apply Z.mul_le_mono_nonneg_r; lia).
          lia.
        * apply Z.ltb_lt.
          assert (Zpos my * 2 ^ (ex - emin) < Zpos mx * 2 ^ (ex - emin))
            by (apply Z.mul_lt_mono_pos_r; lia).
          lia.
      + symmetry. apply Z.ltb_ge.
        pose proof (units_binade _ _ _ _ Cx Cy Hlt). lia.
      + symmetry. apply Z.ltb_lt.
        pose proof (units_binade _ _ _ _ Cy Cx Hgt). lia.
    - cbn [SpecFloat.valid_binary] in Vx, Vy. unfold bounded in Vx, Vy.
      apply andb_true_iff in Vx as [Cx _]. apply andb_true_iff in Vy as [Cy _].
      destruct (Z.compare_spec ex ey) as [Heq | Hlt | Hgt].
      + subst ey. unfold units.
        destruct (canonical_mantissa_facts _ _ Cx) as (He & _ & _).
        pose proof (pow2_pos (ex - emin) ltac:(lia)) as Pe.
        change (Pos.compare_cont Eq mx my) with (Pos.compare mx my).
        destruct (Pos.compare_spec mx my) as [-> | Hm | Hm]; symmetry.
        * apply Z.ltb_irrefl.
        * apply Z.ltb_lt. apply Z.mul_lt_mono_pos_r; lia.
        * apply Z.ltb_ge. apply Z.mul_le_mono_nonneg_r; lia.
      + symmetry. apply Z.ltb_lt. by apply units_binade.
      + symmetry. apply Z.ltb_ge, Z.lt_le_incl. by apply units_binade.
  Qed.

Lemma srank_arank x : not_negative x → srank prec emax x = arank prec emax x.
  Proof. destruct x as [| | |s m e]; cbn; try done; by intros ->. Qed.

Lemma not_negative_not_nan x : not_negative x → x ≠ S754_nan.
  Proof. by destruct x. Qed.

Lemma SFltb_nan_r x : SFltb x S754_nan = false.
  Proof. by destruct x. Qed.

Lemma SFltb_nan_l y : SFltb S754_nan y = false.
  Proof. done. Qed.

  (** [0 <= x] holds of NaN and of the values that are not negative. *)
Lemma SFltb_zero_false x :
    SFltb x (S754_zero false) = false → x = S754_nan ∨ not_negative x.
  Proof.
    destruct x as [s|s| |s m e]; cbn; intros H; try (by right); try (by left);
      destruct s; by right.
  Qed.

Lemma SFltb_zero_true d :
    SFltb (S754_zero false) d = true →
    d = S754_infinity false ∨ ∃ m e, d = S754_finite false m e.
  Proof.
    destruct d as [s|s| |s m e]; cbn; intros H; try done;
      destruct s; try done; [by left | right; by eexists _, _].
  Qed.

Lemma SFle_arank x y :
    SpecFloat.valid_binary prec emax x = true →
    SpecFloat.valid_binary prec emax y = true →
    not_negative x → not_negative y →
    SFltb y x = false ↔ arank prec emax x <= arank prec emax y.
  Proof.
    intros Vx Vy Nx Ny.
    rewrite (SFltb_srank y x) by (done || by apply not_negative_not_nan).
    rewrite !srank_arank by done. apply Z.ltb_ge.
  Qed.

  (** The order seen from a value that is not negative: what is not
      below it is NaN or is not negative either. *)
Lemma SFle_not_negative x y :
    SpecFloat.valid_binary prec emax x = true →
    SpecFloat.valid_binary prec emax y = true →
    not_negative x → SFltb y x = false →
    y = S754_nan ∨ (not_negative y ∧ arank prec emax x <= arank prec emax y).
  Proof.
    intros Vx Vy Nx Hle.
    pose proof (arank_nonneg x). pose proof top_pos.
    destruct y as [s|s| |s m e]; [right|right|by left|right].
    - split; [done|].
      rewrite (SFltb_srank _ x) in Hle by (done || by apply not_negative_not_nan).
      apply Z.ltb_ge in Hle. by rewrite (srank_arank x) in Hle.
    - rewrite (SFltb_srank _ x) in Hle by (done || by apply not_negative_not_nan).
      apply Z.ltb_ge in Hle. rewrite (srank_arank x) in Hle by done.
      destruct s; cbn [srank] in Hle; [lia|]. done.
    - rewrite (SFltb_srank _ x) in Hle by (done || by apply not_negative_not_nan).
      apply Z.ltb_ge in Hle. rewrite (srank_arank x) in Hle by done.
      pose proof (valid_units _ _ _ Vy).
      destruct s; cbn [srank] in Hle; [lia|]. done.
  Qed.

Lemma rounded_positive r sx a b :
    rounded prec emax r sx a b → b <= a → 0 < arank prec emax r.
  Proof.
    intros (n & d & e & m2 & -> & Hr & Hb & Heq) Hab.
    pose proof Hr as (mrs & L & Hd & Hm & He & Hn & Hm2).
    destruct (rounds_at_range _ _ _ _ Hr) as [Hr1 Hr2].
    destruct (finish_spec sx m2 e Hr1 He Hr2) as (_ & -> & _).
    pose proof top_pos. pose proof (pow2_pos (e - emin) ltac:(lia)) as Pe.
    pose proof (pow2_pos (prec - 1) ltac:(lia)) as Pp.
    pose proof (round_nearest_even_range mrs) as R. rewrite <- Hm2 in R.
    assert (1 <= m2).
    { destruct (Z.eq_dec e emin) as [->|Hne].
      - rewrite Z.sub_diag in Heq. change (2 ^ 0) with 1 in Heq.
        pose proof (located_bounds _ _ _ _ _ Hd L) as [_ Hup].
        assert (d <= n).
        { apply Z.mul_le_mono_pos_r with b; [done|].
          replace (n * b) with (n * 1 * b) by ring. rewrite Heq.
          rewrite (Z.mul_comm a d). apply Z.mul_le_mono_nonneg_l; lia. }
        destruct (Z.le_gt_cases 1 (shr_m mrs)); [lia|].
        assert ((shr_m mrs + 1) * d <= 1 * d)
          by (apply Z.mul_le_mono_nonneg_r; lia).
        lia.
      - specialize (Hr2 ltac:(lia)). lia. }
    apply Z.min_glb_lt; [|done].
    apply Z.mul_pos_pos; lia.
  Qed.

  (** Products and quotients of values that are not negative. *)
Lemma SFmul_not_negative x c :
    SpecFloat.valid_binary prec emax x = true →
    SpecFloat.valid_binary prec emax c = true →
    not_negative x → not_negative c →
    SFmul prec emax x c = S754_nan ∨
    (SpecFloat.valid_binary prec emax (SFmul prec emax x c) = true ∧
     not_negative (SFmul prec emax x c)).
  Proof.
    intros Vx Vc Nx Nc.
    destruct x as [sx|sx| |sx mx ex], c as [sc|sc| |sc mc ec];
      cbn [not_negative] in Nx, Nc; try done; subst;
      try (by left); try (by right).
    right. destruct (rounded_valid _ _ _ _ (SFmul_rounded _ _ _ _ _ _ Vx Vc))
      as (V & _ & _ & N).
    split; [done|]. by apply N.
  Qed.

Lemma SFmul_arank_mono c x y :
    SpecFloat.valid_binary prec emax c = true →
    SpecFloat.valid_binary prec emax x = true →
    SpecFloat.valid_binary prec emax y = true →
    not_negative c → not_negative x → not_negative y →
    arank prec emax x <= arank prec emax y →
    SFmul prec emax x c = S754_nan ∨ SFmul prec emax y c = S754_nan ∨
    arank prec emax (SFmul prec emax x c)
    <= arank prec emax (SFmul prec emax y c).
  Proof.
    intros Vc Vx Vy Nc Nx Ny Hxy. pose proof top_pos as Htop.
    destruct c as [sc|sc| |sc mc ec]; cbn [not_negative] in Nc; try done.
    - (* a zero factor *)
      destruct x as [sx|sx| |sx mx ex]; try done; try (by left);
        destruct y as [sy|sy| |sy my ey]; try done; try (by right; left);
        right; right; cbn; lia.
    - (* an infinite factor *)
      destruct x as [sx|sx| |sx mx ex]; try done; try (by left);
        destruct y as [sy|sy| |sy my ey]; try done; try (by right; left);
        right; right; cbn; lia.
    - subst sc. pose proof (valid_units _ _ _ Vc) as Uc.
      destruct x as [sx|sx| |sx mx ex]; cbn [not_negative] in Nx; try done.
      + right; right. cbn [SFmul arank]. apply arank_nonneg.
      + destruct y as [sy|sy| |sy my ey]; cbn [not_negative] in Ny; try done;
          right; right.
        * cbn [arank] in Hxy. lia.
        * cbn. lia.
        * pose proof (valid_units _ _ _ Vy). cbn [arank] in Hxy. lia.
      + subst sx. pose proof (valid_units _ _ _ Vx) as Ux.
        pose proof (SFmul_rounded _ _ _ _ _ _ Vx Vc) as Rx.
        destruct y as [sy|sy| |sy my ey]; cbn [not_negative] in Ny; try done;
          right; right.
        * cbn [arank] in Hxy. lia.
        * subst sy. destruct (rounded_valid _ _ _ _ Rx) as (_ & _ & Hle & _).
          exact Hle.
        * subst sy. pose proof (SFmul_rounded _ _ _ _ _ _ Vy Vc) as Ry.
          apply (rounded_mono _ _ _ _ _ _ _ _ Rx Ry).
          cbn [arank] in Hxy.
          apply Z.mul_le_mono_nonneg_r; [apply Z.lt_le_incl, pow2_pos; pose proof emin_neg; lia|].
          apply Z.mul_le_mono_nonneg_r; lia.
  Qed.

Lemma SFdiv_not_negative x d :
    SpecFloat.valid_binary prec emax x = true →
    SpecFloat.valid_binary prec emax d = true →
    not_negative x → SFltb (S754_zero false) d = true →
    SFdiv prec emax x d = S754_nan ∨
    (SpecFloat.valid_binary prec emax (SFdiv prec emax x d) = true ∧
     not_negative (SFdiv prec emax x d)).
  Proof.
    intros Vx Vd Nx [-> | (md & ed & ->)]%SFltb_zero_true.
    - destruct x as [sx|sx| |sx mx ex]; cbn [not_negative] in Nx; try done;
        subst; try (by left); by right.
    - destruct x as [sx|sx| |sx mx ex]; cbn [not_negative] in Nx; try done;
        subst; try (by left); try (by right).
      right. destruct (rounded_valid _ _ _ _ (SFdiv_rounded _ _ _ _ _ _ Vx Vd))
        as (V & _ & _ & N).
      split; [done|]. by apply N.
  Qed.

Lemma SFdiv_arank_mono d x y :
    SpecFloat.valid_binary prec emax d = true →
    SpecFloat.valid_binary prec emax x = true →
    SpecFloat.valid_binary prec emax y = true →
    SFltb (S754_zero false) d = true → not_negative x → not_negative y →
    arank prec emax x <= arank prec emax y →
    SFdiv prec emax x d = S754_nan ∨ SFdiv prec emax y d = S754_nan ∨
    arank prec emax (SFdiv prec emax x d)
    <= arank prec emax (SFdiv prec emax y d).
  Proof.
    intros Vd Vx Vy [-> | (md & ed & ->)]%SFltb_zero_true Nx Ny Hxy.
    - (* an infinite divisor *)
      destruct x as [sx|sx| |sx mx ex]; try done; try (by left);
        destruct y as [sy|sy| |sy my ey]; try done; try (by right; left);
        right; right; cbn; lia.
    - pose proof top_pos as Htop. pose proof (valid_units _ _ _ Vd) as Ud.
      destruct x as [sx|sx| |sx mx ex]; cbn [not_negative] in Nx; try done.
      + right; right. cbn [SFdiv arank]. apply arank_nonneg.
      + destruct y as [sy|sy| |sy my ey]; cbn [not_negative] in Ny; try done;
          right; right.
        * cbn [arank] in Hxy. lia.
        * cbn. lia.
        * pose proof (valid_units _ _ _ Vy). cbn [arank] in Hxy. lia.
      + subst sx. pose proof (valid_units _ _ _ Vx) as Ux.
        pose proof (SFdiv_rounded _ _ _ _ _ _ Vx Vd) as Rx.
        destruct y as [sy|sy| |sy my ey]; cbn [not_negative] in Ny; try done;
          right; right.
        * cbn [arank] in Hxy. lia.
        * subst sy. destruct (rounded_valid _ _ _ _ Rx) as (_ & _ & Hle & _).
          exact Hle.
        * subst sy. pose proof (SFdiv_rounded _ _ _ _ _ _ Vy Vd) as Ry.
          apply (rounded_mono _ _ _ _ _ _ _ _ Rx Ry).
          cbn [arank] in Hxy.
          apply Z.mul_le_mono_nonneg_r; [lia|].
          apply Z.mul_le_mono_nonneg_r; [|done].
          apply Z.lt_le_incl, pow2_pos; pose proof emin_neg; lia.
  Qed.

Lemma SFltb_asym x y :
    SpecFloat.valid_binary prec emax x = true →
    SpecFloat.valid_binary prec emax y = true →
    SFltb x y = true → SFltb y x = false.
  Proof.
    intros Vx Vy H.
    assert (x ≠ S754_nan) by (by intros ->).
    assert (y ≠ S754_nan) by (intros ->; by rewrite SFltb_nan_r in H).
    rewrite SFltb_srank in * by done.
    apply Z.ltb_lt in H. apply Z.ltb_ge. lia.
  Qed.

Lemma SFltb_trans x y z :
    SpecFloat.valid_binary prec emax x = true →
    SpecFloat.valid_binary prec emax y = true →
    SpecFloat.valid_binary prec emax z = true →
    SFltb x y = true → SFltb y z = true → SFltb x z = true.
  Proof.
    intros Vx Vy Vz H1 H2.
    assert (x ≠ S754_nan) by (by intros ->).
    assert (y ≠ S754_nan) by (by intros ->).
    assert (z ≠ S754_nan) by (intros ->; by rewrite SFltb_nan_r in H2).
    rewrite SFltb_srank in * by done.
    apply Z.ltb_lt in H1, H2. apply Z.ltb_lt. lia.
  Qed.

Lemma not_negative_ge_zero r :
    r = S754_nan ∨ not_negative r → SFltb r (S754_zero false) = false.
  Proof.
    intros [-> | H]; [done|].
    destruct r as [| | |s m e]; cbn in H; try done; by subst.
  Qed.

Lemma SFmul_nan_r x : SFmul prec emax x S754_nan = S754_nan.
  Proof. by destruct x. Qed.

Lemma SFdiv_nan_r x : SFdiv prec emax x S754_nan = S754_nan.
  Proof. by destruct x. Qed.

Lemma SFmul_comm x y : SFmul prec emax x y = SFmul prec emax y x.
  Proof.
    destruct x as [sx|sx| |sx mx ex], y as [sy|sy| |sy my ey]; cbn [SFmul];
      try done; try (by rewrite xorb_comm).
    by rewrite (xorb_comm sx sy), (Pos.mul_comm mx my), (Z.add_comm ex ey).
  Qed.

Lemma SFmul_le_r c x y :
    SpecFloat.valid_binary prec emax c = true →
    SpecFloat.valid_binary prec emax x = true →
    SpecFloat.valid_binary prec emax y = true →
    SFltb c (S754_zero false) = false →
    SFltb x (S754_zero false) = false →
    SFltb y x = false →
    SFltb (SFmul prec emax y c) (SFmul prec emax x c) = false.
  Proof.
    intros Vc Vx Vy [-> | Nc]%SFltb_zero_false [-> | Nx]%SFltb_zero_false Hxy;
      rewrite ?SFmul_nan_r; try done; try apply SFltb_nan_r.
    destruct (SFle_not_negative x y Vx Vy Nx Hxy) as [-> | [Ny Hr]]; [done|].
    destruct (SFmul_not_negative x c Vx Vc Nx Nc) as [-> | [Vp Np]];
      [apply SFltb_nan_r|].
    destruct (SFmul_not_negative y c Vy Vc Ny Nc) as [-> | [Vq Nq]]; [done|].
    destruct (SFmul_arank_mono c x y Vc Vx Vy Nc Nx Ny Hr) as [E | [E | Hle]].
    - rewrite E. apply SFltb_nan_r.
    - by rewrite E.
    - by apply SFle_arank.
  Qed.

Lemma SFmul_ge_zero x y :
    SpecFloat.valid_binary prec emax x = true →
    SpecFloat.valid_binary prec emax y = true →
    SFltb x (S754_zero false) = false →
    SFltb y (S754_zero false) = false →
    SFltb (SFmul prec emax x y) (S754_zero false) = false.
  Proof.
    intros Vx Vy [-> | Nx]%SFltb_zero_false [-> | Ny]%SFltb_zero_false;
      rewrite ?SFmul_nan_r; try done.
    apply not_negative_ge_zero.
    destruct (SFmul_not_negative x y Vx Vy Nx Ny) as [-> | [_ N]];
      [by left | by right].
  Qed.

Lemma SFdiv_le d x y :
    SpecFloat.valid_binary prec emax d = true →
    SpecFloat.valid_binary prec emax x = true →
    SpecFloat.valid_binary prec emax y = true →
    SFltb (S754_zero false) d = true →
    SFltb x (S754_zero false) = false →
    SFltb y x = false →
    SFltb (SFdiv prec emax y d) (SFdiv prec emax x d) = false.
  Proof.
    intros Vd Vx Vy Hd [-> | Nx]%SFltb_zero_false Hxy;
      [apply SFltb_nan_r|].
    destruct (SFle_not_negative x y Vx Vy Nx Hxy) as [-> | [Ny Hr]]; [done|].
    destruct (SFdiv_not_negative x d Vx Vd Nx Hd) as [-> | [Vp Np]];
      [apply SFltb_nan_r|].
    destruct (SFdiv_not_negative y d Vy Vd Ny Hd) as [-> | [Vq Nq]]; [done|].
    destruct (SFdiv_arank_mono d x y Vd Vx Vy Hd Nx Ny Hr) as [E | [E | Hle]].
    - rewrite E. apply SFltb_nan_r.
    - by rewrite E.
    - by apply SFle_arank.
  Qed.

Lemma SFdiv_ge_zero x d :
    SpecFloat.valid_binary prec emax x = true →
    SpecFloat.valid_binary prec emax d = true →
    SFltb (S754_zero false) d = true →
    SFltb x (S754_zero false) = false →
    SFltb (SFdiv prec emax x d) (S754_zero false) = false.
  Proof.
    intros Vx Vd Hd [-> | Nx]%SFltb_zero_false; [done|].
    apply not_negative_ge_zero.
    destruct (SFdiv_not_negative x d Vx Vd Nx Hd) as [-> | [_ N]];
      [by left | by right].
  Qed.

  (** The conversion of an integer that is not negative. *)
Lemma binary_normalize_valid z :
    0 <= z →
    SpecFloat.valid_binary prec emax (binary_normalize prec emax z 0 false) = true
    ∧ not_negative (binary_normalize prec emax z 0 false).
  Proof.
    intros Hz. destruct z as [|p|p]; [done| |lia].
    destruct (rounded_valid _ _ _ _ (binary_normalize_rounded p))
      as (V & _ & _ & N).
    split; [done|]. by apply N.
  Qed.

Lemma binary_normalize_mono a b :
    0 <= a <= b →
    SFltb (binary_normalize prec emax b 0 false)
          (binary_normalize prec emax a 0 false) = false.
  Proof.
    intros Hab.
    destruct (binary_normalize_valid a ltac:(lia)) as [Va Na].
    destruct (binary_normalize_valid b ltac:(lia)) as [Vb Nb].
    apply SFle_arank; try done.
    destruct a as [|p|p]; [apply arank_nonneg| |lia].
    destruct b as [|q|q]; [lia| |lia].
    apply (rounded_mono _ _ _ _ _ _ _ _ (binary_normalize_rounded p)
             (binary_normalize_rounded q)).
    rewrite !Z.mul_1_r. apply Z.mul_le_mono_nonneg_r; [|lia].
    apply Z.lt_le_incl, pow2_pos. pose proof emin_neg. lia.
  Qed.

Lemma binary_normalize_positive n :
    0 < n →
    SFltb (S754_zero false) (binary_normalize prec emax n 0 false) = true.
  Proof.
    intros Hn.
    destruct (binary_normalize_valid n ltac:(lia)) as [V N].
    rewrite SFltb_srank by (done || by apply not_negative_not_nan).
    change (srank prec emax (S754_zero false)) with 0.
    rewrite srank_arank by done. apply Z.ltb_lt.
    destruct n as [|p|p]; [lia| |lia].
    apply (rounded_positive _ _ _ _ (binary_normalize_rounded p)).
    pose proof (pow2_pos (- emin) ltac:(pose proof emin_neg; lia)). 
    replace 1 with (1 * 1) at 1 by lia.
    apply Z.mul_le_mono_nonneg; lia.
  Qed.

  (** [int()] is the count of units divided by the units in 1. *)
Lemma truncated_units m e :
    SpecFloat.valid_binary prec emax (S754_finite false m e) = true →
    truncated false m e = units prec emax m e / 2 ^ (- emin).
  Proof.
    cbn [SpecFloat.valid_binary]. unfold bounded.
    intros [C _]%andb_true_iff.
    destruct (canonical_mantissa_facts _ _ C) as (He & _ & _).
    pose proof emin_neg as Hemin.
    pose proof (pow2_pos (- emin) ltac:(lia)) as Pm.
    pose proof (pow2_pos (e - emin) ltac:(lia)) as Pe.
    unfold truncated, units. destruct e as [|p|p].
    - rewrite Z.shiftl_mul_pow2 by lia. rewrite Z.sub_0_l.
      change (2 ^ 0) with 1. rewrite Z.mul_1_r. by rewrite Z.div_mul by lia.
    - rewrite Z.shiftl_mul_pow2 by lia.
      replace (Zpos p - emin) with (Zpos p + - emin) by lia.
      rewrite pow2_add by lia. rewrite Z.mul_assoc. by rewrite Z.div_mul by lia.
    - rewrite Z.shiftr_div_pow2 by lia.
      replace (- emin) with ((Zneg p - emin) + Zpos p) by lia.
      rewrite pow2_add by lia.
      rewrite (Z.mul_comm (Zpos m)).
      rewrite Z.div_mul_cancel_l; [done| |]; pose proof (pow2_pos (Zpos p)); lia.
  Qed.

Lemma truncated_mono mx ex my ey :
    SpecFloat.valid_binary prec emax (S754_finite false mx ex) = true →
    SpecFloat.valid_binary prec emax (S754_finite false my ey) = true →
    units prec emax mx ex <= units prec emax my ey →
    truncated false mx ex <= truncated false my ey.
  Proof.
    intros Vx Vy Hle. rewrite !truncated_units by done.
    apply Z.div_le_mono; [|done]. apply pow2_pos. pose proof emin_neg. lia.
  Qed.

Lemma truncated_nonneg m e :
    SpecFloat.valid_binary prec emax (S754_finite false m e) = true →
    0 <= truncated false m e.
  Proof.
    intros V. rewrite truncated_units by done.
    pose proof (valid_units _ _ _ V).
    apply Z.div_pos; [lia|]. apply pow2_pos. pose proof emin_neg. lia.
  Qed.

End RoundAux.

Section Binary64Laws.
  Local Open Scope Z_scope.

Lemma prec_gt_1 : 1 < prec.
  Proof. reflexivity. Qed.

Lemma prec_lt_emax : prec < emax.
  Proof. reflexivity. Qed.

Ltac b64 := first [exact prec_gt_1 | exact prec_lt_emax | apply Prim2SF_valid].

Lemma Prim2SF_of_Z z :
    0 <= z → Prim2SF (f64_of_Z z) = binary_normalize prec emax z 0 false.
  Proof.
    intros Hz. unfold f64_of_Z. apply Prim2SF_SF2Prim.
    apply (binary_normalize_valid prec emax); try b64. done.
  Qed.

Lemma Prim2SF_of_zero : Prim2SF (f64_of_Z 0) = S754_zero false.
  Proof. by rewrite Prim2SF_of_Z. Qed.

Lemma f64_to_Z_mono x y a b :
    SFltb (Prim2SF x) (S754_zero false) = false →
    SFltb (Prim2SF y) (Prim2SF x) = false →
    f64_to_Z x = Returned a → f64_to_Z y = Returned b → a <= b.
  Proof.
    unfold f64_to_Z. intros H0 Hxy Ha Hb.
    pose proof (Prim2SF_valid x) as Vx. pose proof (Prim2SF_valid y) as Vy.
    apply SFltb_zero_false in H0 as [E | Nx]; [by rewrite E in Ha|].
    assert (Hy : Prim2SF y = S754_nan
                 ∨ (not_negative (Prim2SF y)
                    ∧ arank prec emax (Prim2SF x) <= arank prec emax (Prim2SF y))).
    { apply (SFle_not_negative prec emax); try b64; done. }
    destruct Hy as [E | [Ny Hr]]; [by rewrite E in Hb|].
    destruct (Prim2SF x) as [sx|sx| |sx mx ex],
             (Prim2SF y) as [sy|sy| |sy my ey]; try done;
      cbn [not_negative arank] in *; subst;
      injection Ha as <-; injection Hb as <-;
      first
        [ done
        | apply (truncated_nonneg prec emax); try b64; done
        | apply (truncated_mono prec emax); try b64; done
        | exfalso;
          assert (0 < units prec emax mx ex < top prec emax)
            by (eapply (valid_units prec emax); try b64; done);
          lia ].
  Qed.

  (** IEEE-754 binary64, as the kernel's floats have it, obeys the
      order laws. *)
Lemma binary64_laws : PyFloatLaws binary64.
  Proof.
    split; unfold fle; cbn [fltb fmul fdiv of_int to_int binary64 float_t].
    - intros x y. rewrite !ltb_spec.
      apply (SFltb_asym prec emax); b64.
    - intros x y z. rewrite !ltb_spec.
      apply (SFltb_trans prec emax); b64.
    - intros a b Hab. rewrite ltb_spec, !Prim2SF_of_Z by lia.
      apply (binary_normalize_mono prec emax); try b64. done.
    - intros n Hn. rewrite ltb_spec, Prim2SF_of_zero, Prim2SF_of_Z by lia.
      apply (binary_normalize_positive prec emax); try b64. done.
    - intros x y d. rewrite !ltb_spec, !div_spec, Prim2SF_of_zero.
      apply (SFdiv_le prec emax); b64.
    - intros c x y. rewrite !ltb_spec, !mul_spec, Prim2SF_of_zero.
      unfold SF64mul.
      rewrite (SFmul_comm prec emax (Prim2SF c) (Prim2SF y)).
      rewrite (SFmul_comm prec emax (Prim2SF c) (Prim2SF x)).
      apply (SFmul_le_r prec emax); b64.
    - intros c x y. rewrite !ltb_spec, !mul_spec, Prim2SF_of_zero.
      apply (SFmul_le_r prec emax); b64.
    - intros x d. rewrite !ltb_spec, !div_spec, Prim2SF_of_zero. intros Hd Hx.
      apply (SFdiv_ge_zero prec emax); try b64; done.
    - intros x y. rewrite !ltb_spec, !mul_spec, Prim2SF_of_zero.
      apply (SFmul_ge_zero prec emax); b64.
    - intros x y a b. rewrite !ltb_spec, Prim2SF_of_zero.
      apply f64_to_Z_mono.
    - unfold f64_to_Z. by rewrite Prim2SF_of_zero.
  Qed.

End Binary64Laws.

Section ScrollingFramesFacts.
  Context {A : PyFloat} {frame : Type}.
  Variable render : list N → Z * Z → outcome frame.

Lemma frames_loop_returned text size total indices frames :
    frames_loop render text size total indices = Returned frames →
    length frames = length indices ∧
    ∀ (k : nat) (i : Z), indices !! k = Some i →
      ∃ chars f,
        chars_to_show (Z.of_nat (length text)) i total = Returned chars ∧
        render (slice_to chars text) size = Returned f ∧
        frames !! k = Some f.
  Proof.
    revert frames. induction indices as [|i0 rest IH]; intros frames Hrun.
    - injection Hrun as <-. split; [done|]. intros k i Hk. done.
    - cbn [frames_loop] in Hrun.
      destruct (chars_to_show _ i0 total) as [chars|] eqn:Hchars; [|done].
      destruct (render (slice_to chars text) size) as [f|] eqn:Hf; [|done].
      destruct (frames_loop render text size total rest) as [fs|] eqn:Hrest;
        [|done].
      injection Hrun as <-. destruct (IH fs eq_refl) as [Hlen Hrest'].
      split; [simpl; by rewrite Hlen|].
      intros [|k] i Hk.
      + injection Hk as <-. by exists chars, f.
      + by apply Hrest'.
  Qed.

Lemma frames_loop_returns text size total indices :
    (∀ i, i ∈ indices →
       ∃ chars f,
         chars_to_show (Z.of_nat (length text)) i total = Returned chars ∧
         render (slice_to chars text) size = Returned f) →
    ∃ frames, frames_loop render text size total indices = Returned frames.
  Proof.
    induction indices as [|i0 rest IH]; intros Hall; [by eexists|].
    destruct (Hall i0) as (chars & f & Hchars & Hf); [by left|].
    destruct IH as [fs Hfs]; [intros i Hi; apply Hall; by right|].
    exists (f :: fs). cbn [frames_loop]. by rewrite Hchars, Hf, Hfs.
  Qed.

Lemma generate_scrolling_frames_returned text size d fps frames :
    generate_scrolling_frames render text size d fps = Returned frames →
    ∃ total,
      total_frames d fps = Returned total ∧
      frames_loop render text size total (py_range total) = Returned frames.
  Proof.
    unfold generate_scrolling_frames, total_frames.
    destruct (to_int (fmul d (of_int fps))) as [total|]; [|done].
    intros Hrun. by exists total.
  Qed.

Lemma slice_to_prefix {T} (a b : Z) (s : list T) :
    (0 <= a <= b)%Z → slice_to a s `prefix_of` slice_to b s.
  Proof.
    intros [Ha Hab]. unfold slice_to.
    destruct (Z.ltb_spec a 0), (Z.ltb_spec b 0); try lia.
    replace (take (Z.to_nat a) s)
      with (take (Z.to_nat a) (take (Z.to_nat b) s)).
    - apply prefix_take.
    - rewrite take_take. f_equal. lia.
  Qed.

  Context {L : PyFloatLaws A}.

Lemma total_frames_nonneg d fps total :
    fltb (of_int 0) d = true → (0 <= fps)%Z →
    total_frames d fps = Returned total → (0 <= total)%Z.
  Proof.
    intros Hd Hfps. apply to_int_nonneg, fmul_nonneg.
    - by apply flt_fle.
    - apply of_int_mono. lia.
  Qed.

Lemma fraction_nonneg i total :
    (0 <= i)%Z → (0 < total)%Z →
    fle (of_int 0) (fmin (fdiv (of_int i) (of_int total)) (of_int 1)).
  Proof.
    intros Hi Ht. apply fmin_nonneg; [|apply of_int_mono; lia].
    apply fdiv_nonneg; [by apply of_int_pos | apply of_int_mono; lia].
  Qed.

Lemma chars_to_show_nonneg len i total chars :
    (0 <= len)%Z → (0 <= i)%Z → (0 < total)%Z →
    chars_to_show len i total = Returned chars → (0 <= chars)%Z.
  Proof.
    intros Hlen Hi Ht. apply to_int_nonneg, fmul_nonneg.
    - apply of_int_mono. lia.
    - by apply fraction_nonneg.
  Qed.

Lemma chars_to_show_mono len i j total ci cj :
    (0 <= len)%Z → (0 <= i <= j)%Z → (0 < total)%Z →
    chars_to_show len i total = Returned ci →
    chars_to_show len j total = Returned cj →
    (ci <= cj)%Z.
  Proof.
    intros Hlen Hij Ht. apply to_int_mono.
    - apply fmul_nonneg; [apply of_int_mono; lia|].
      apply fraction_nonneg; lia.
    - apply fmul_mono_l.
      + apply of_int_mono. lia.
      + apply fraction_nonneg; lia.
      + apply fmin_mono, fdiv_mono.
        * by apply of_int_pos.
        * apply of_int_mono. lia.
        * apply of_int_mono. lia.
  Qed.

End ScrollingFramesFacts.

(** In exact arithmetic the number of characters revealed by frame [i]
    is the integer quotient of [L * i] by the number of frames. *)
Lemma chars_to_show_exact (len i total : Z) :
  (0 <= len)%Z → (0 <= i < total)%Z →
  @chars_to_show exact_float len i total = Returned (len * i / total)%Z.
Proof.
  intros Hlen [Hi Hit]. unfold chars_to_show, fmin. simpl. f_equal.
  assert (Hfrac : (inject_Z i / inject_Z total <= inject_Z 1)%Q).
  { apply Qle_shift_div_r; [by rewrite <- (Zlt_Qlt 0); lia|].
    rewrite Qmult_1_l, <- Zle_Qle. lia. }
  assert (Hpos : (0 <= inject_Z i / inject_Z total)%Q).
  { apply Qle_shift_div_l; [by rewrite <- (Zlt_Qlt 0); lia|].
    rewrite Qmult_0_l. by rewrite <- (Zle_Qle 0). }
  apply Qle_bool_iff in Hfrac. rewrite Hfrac. simpl.
  unfold Qtrunc.
  assert (Hnn : (0 <= inject_Z len * (inject_Z i / inject_Z total))%Q).
  { apply Qmult_le_0_compat; [by rewrite <- (Zle_Qle 0) | done]. }
  apply Qle_bool_iff in Hnn. rewrite Hnn.
  rewrite Zdiv_Qdiv. apply Qfloor_comp.
  rewrite inject_Z_mult. unfold Qdiv. ring.
Qed.

(** C9, as the code has it, in binary64.  Whenever
    [generate_scrolling_frames] returns, [int(duration * fps)] is
    defined and the frames are as many, none when it is negative, and
    exactly as many for a positive duration and a frame rate that is
    not negative; frame [i] draws the first
    [int(L * min(i / total_frames, 1.0))] characters of the text, the
    quotient and the product being float operations; and the text
    drawn by a frame is a prefix of the text drawn by every later
    frame. *)
Theorem scrolling_frames_reveal
    {frame : Type} (render : list N → Z * Z → outcome frame)
    (text : list N) (size : Z * Z) (d : float) (fps : Z)
    (frames : list frame) :
  @generate_scrolling_frames binary64 frame render text size d fps
  = Returned frames →
  ∃ total : Z,
    @total_frames binary64 d fps = Returned total ∧
    Z.of_nat (length frames) = Z.max 0 total ∧
    (PrimFloat.ltb (f64_of_Z 0) d = true → (0 <= fps)%Z →
     Z.of_nat (length frames) = total) ∧
    ∀ i j : nat, i ≤ j → j < length frames →
      ∃ (ci cj : Z) (fi : frame),
        @chars_to_show binary64 (Z.of_nat (length text)) (Z.of_nat i) total
        = Returned ci ∧
        @chars_to_show binary64 (Z.of_nat (length text)) (Z.of_nat j) total
        = Returned cj ∧
        (0 <= ci <= cj)%Z ∧
        frames !! i = Some fi ∧
        render (take (Z.to_nat ci) text) size = Returned fi ∧
        take (Z.to_nat ci) text `prefix_of` take (Z.to_nat cj) text.
Proof.
  intros Hrun. pose proof binary64_laws as L.
  destruct (@generate_scrolling_frames_returned binary64 frame render text size
              d fps frames Hrun) as (total & Htotal & Hloop).
  destruct (@frames_loop_returned binary64 frame render text size total _
              frames Hloop) as [Hlen Hframes].
  unfold py_range in Hlen, Hframes. rewrite length_seqZ in Hlen.
  exists total. split; [done|]. split; [lia|]. split.
  { intros Hd Hfps.
    pose proof (@total_frames_nonneg binary64 L d fps total Hd Hfps Htotal).
    lia. }
  intros i j Hij Hj.
  destruct (Hframes i (Z.of_nat i)) as (ci & fi & Hci & Hfi & Hi).
  { rewrite lookup_seqZ. split; lia. }
  destruct (Hframes j (Z.of_nat j)) as (cj & fj & Hcj & _ & _).
  { rewrite lookup_seqZ. split; lia. }
  assert (H0 : (0 <= ci)%Z).
  { apply (@chars_to_show_nonneg binary64 L (Z.of_nat (length text))
             (Z.of_nat i) total ci); try done; lia. }
  assert (H1 : (ci <= cj)%Z).
  { apply (@chars_to_show_mono binary64 L (Z.of_nat (length text))
             (Z.of_nat i) (Z.of_nat j) total ci cj); try done; lia. }
  exists ci, cj, fi. split; [done|]. split; [done|]. split; [done|].
  split; [done|].
  unfold slice_to in Hfi. destruct (Z.ltb_spec ci 0); [lia|].
  split; [done|].
  pose proof (slice_to_prefix ci cj text ltac:(lia)) as Hpre.
  unfold slice_to in Hpre.
  by destruct (Z.ltb_spec ci 0), (Z.ltb_spec cj 0); try lia.
Qed.

Lemma scrolling_frames_reveal_witness :
  ∃ frames total,
    @generate_scrolling_frames binary64 _ (λ sub _, Returned sub)
      (py "typewriter") (854, 720)%Z (f64_of_Z 1) 24
    = Returned frames ∧
    @total_frames binary64 (f64_of_Z 1) 24 = Returned total ∧
    Z.of_nat (length frames) = total.
Proof.
  eassert (Hrun :
    @generate_scrolling_frames binary64 _ (λ sub _, Returned sub)
      (py "typewriter") (854, 720)%Z (f64_of_Z 1) 24
    = Returned _) by (vm_compute; reflexivity).
  destruct (scrolling_frames_reveal (λ sub _, Returned sub) (py "typewriter")
              (854, 720)%Z (f64_of_Z 1) 24 _ Hrun)
    as (total & Htotal & _ & Hcount & _).
  eexists _, total. split; [exact Hrun|]. split; [exact Htotal|].
  apply Hcount; [vm_compute; reflexivity | lia].
Defined.

(** C9, as stated, fails on binary64: with one hundred frames and one
    hundred characters, frame 29 draws 28 characters, not
    [100 * 29 / 100 = 29]; with a negative frame rate no frame is
    produced although [int(duration * fps)] is [-100]; and for a
    duration whose product with the frame rate overflows, [int()]
    raises and no frame is produced at all. *)
Lemma scrolling_frames_formula_counterexample :
  @total_frames binary64 duration_4_17 24 = Returned 100%Z ∧
  length text100 = 100 ∧
  @chars_to_show binary64 (Z.of_nat (length text100)) 29 100
  = Returned 28%Z ∧
  (Z.of_nat (length text100) * 29 / 100)%Z = 29%Z ∧
  take 28 text100 ≠ take 29 text100 ∧
  @total_frames binary64 duration_4_17 (-24) = Returned (-100)%Z ∧
  @generate_scrolling_frames binary64 _ (λ sub _, Returned sub) text100
     (854, 720)%Z duration_4_17 (-24) = Returned [] ∧
  PrimFloat.ltb (f64_of_Z 0) duration_2p1023 = true ∧
  @generate_scrolling_frames binary64 _ (λ sub _, Returned sub) text100
     (854, 720)%Z duration_2p1023 24
  = Raised (py "cannot convert float infinity to integer").
Proof.
  repeat split; try (vm_compute; reflexivity).
  intros H. apply (f_equal length) in H. vm_compute in H. discriminate.
Qed.

(** ** main.py *)

Section SimulationFacts.
  Context {A : PyFloat} {L : PyFloatLaws A}.

Lemma progress_updates_app ws1 ws2 :
    progress_updates (ws1 ++ ws2) = progress_updates ws1 ++ progress_updates ws2.
  Proof. apply omap_app. Qed.

Lemma progress_updates_loop_body start t ws :
    loop_body start t = Returned ws →
    ∃ p, progress_of (total_seconds start t) = Returned p ∧
         progress_updates ws = [p].
  Proof.
    unfold loop_body.
    destruct (progress_of (total_seconds start t)) as [p|]; [|done].
    intros [= <-]. by exists p.
  Qed.

Lemma total_seconds_nonneg start t :
    (start <= t)%Z → fle (of_int 0) (total_seconds start t).
  Proof.
    intros Ht. apply fdiv_nonneg; [by apply of_int_pos|].
    apply of_int_mono. lia.
  Qed.

Lemma total_seconds_mono start t1 t2 :
    (start <= t1 <= t2)%Z →
    fle (total_seconds start t1) (total_seconds start t2).
  Proof.
    intros Ht. apply fdiv_mono; [by apply of_int_pos| |].
    - apply of_int_mono. lia.
    - apply of_int_mono. lia.
  Qed.

Lemma percent_nonneg x :
    fle (of_int 0) x →
    fle (of_int 0) (fmul (fdiv x (of_int 120)) (of_int 100)).
  Proof.
    intros Hx. apply fmul_nonneg.
    - apply fdiv_nonneg; [by apply of_int_pos | done].
    - apply of_int_mono. lia.
  Qed.

Lemma progress_of_mono x y p q :
    fle (of_int 0) x → fle x y →
    progress_of x = Returned p → progress_of y = Returned q → (p <= q)%Z.
  Proof.
    intros Hx Hxy. unfold progress_of.
    destruct (to_int (fmul (fdiv x _) _)) as [a|] eqn:Ha; [|done].
    destruct (to_int (fmul (fdiv y _) _)) as [b|] eqn:Hb; [|done].
    intros [= <-] [= <-]. apply Z.min_le_compat_l.
    apply (to_int_mono (fmul (fdiv x (of_int 120)) (of_int 100))
             (fmul (fdiv y (of_int 120)) (of_int 100)) a b);
      [by apply percent_nonneg | | done | done].
    apply fmul_mono_r.
    - apply of_int_mono. lia.
    - apply fdiv_nonneg; [by apply of_int_pos | done].
    - apply fdiv_mono; [by apply of_int_pos | done | done].
  Qed.

Lemma progress_of_range x p :
    fle (of_int 0) x → progress_of x = Returned p → (0 <= p <= 100)%Z.
  Proof.
    intros Hx. unfold progress_of.
    destruct (to_int (fmul (fdiv x _) _)) as [a|] eqn:Ha; [|done].
    intros [= <-]. split; [|apply Z.le_min_l].
    apply Z.min_glb; [lia|].
    apply (to_int_nonneg (fmul (fdiv x (of_int 120)) (of_int 100)) a);
      [by apply percent_nonneg | done].
  Qed.

  (** The loop only ever assigns percentages of readings it has taken. *)
Lemma simulate_loop_updates start clock :
    Forall (λ p, ∃ t, t ∈ clock
                      ∧ progress_of (total_seconds start t) = Returned p)
           (progress_updates (simulate_loop start clock).2).
  Proof.
    induction clock as [clock IH] using (induction_ltof1 _ length).
    destruct clock as [|t_test [|t_body clock]]; simpl; [done| |].
    - by destruct (fltb _ _).
    - destruct (fltb _ _); [|done].
      destruct (loop_body start t_body) as [ws1|] eqn:Hbody; [|done].
      destruct (progress_updates_loop_body _ _ _ Hbody) as (p & Hp & Hws1).
      destruct (simulate_loop start clock) as [ended ws] eqn:Hloop.
      simpl. rewrite progress_updates_app, Hws1. simpl. constructor.
      + exists t_body. split; [|done]. right. left.
      + assert (Hlt : ltof _ length clock (t_test :: t_body :: clock))
          by (unfold ltof; simpl; lia).
        specialize (IH clock Hlt). rewrite Hloop in IH. simpl in IH.
        eapply Forall_impl; [exact IH|].
        intros q (t & Ht & Hq). exists t. split; [|done]. by do 2 right.
  Qed.

Lemma simulate_loop_sorted start clock :
    Forall (λ t, (start <= t)%Z) clock →
    StronglySorted Z.le clock →
    StronglySorted Z.le (progress_updates (simulate_loop start clock).2).
  Proof.
    induction clock as [clock IH] using (induction_ltof1 _ length).
    intros Hstart Hsorted.
    destruct clock as [|t_test [|t_body clock]]; simpl; [constructor| |].
    - destruct (fltb _ _); constructor.
    - destruct (fltb _ _); [|constructor].
      destruct (loop_body start t_body) as [ws1|] eqn:Hbody; [|constructor].
      destruct (progress_updates_loop_body _ _ _ Hbody) as (p & Hp & Hws1).
      assert (Hlt : ltof _ length clock (t_test :: t_body :: clock))
        by (unfold ltof; simpl; lia).
      apply Forall_cons in Hstart as [_ Hstart].
      apply Forall_cons in Hstart as [Hbody0 Hstart].
      apply StronglySorted_inv in Hsorted as [Hsorted _].
      apply StronglySorted_inv in Hsorted as [Hsorted Hle].
      pose proof (IH clock Hlt Hstart Hsorted) as IH'.
      pose proof (simulate_loop_updates start clock) as Hfrom.
      destruct (simulate_loop start clock) as [ended ws]. simpl in *.
      rewrite progress_updates_app, Hws1. simpl.
      constructor; [done|].
      eapply Forall_impl; [exact Hfrom|].
      intros q (t & Ht & Hq).
      apply (progress_of_mono (total_seconds start t_body)
               (total_seconds start t) p q); try done.
      + by apply total_seconds_nonneg.
      + apply total_seconds_mono. split; [done|].
        rewrite List.Forall_forall in Hle. apply Hle.
        by apply list_elem_of_In.
  Qed.

Lemma replay_app g ws1 ws2 : replay g (ws1 ++ ws2) = replay (replay g ws1) ws2.
  Proof. apply fold_left_app. Qed.

  (** The dictionary holds the last value assigned to it. *)
Lemma progress_replay g ws :
    progress (replay g ws) = default (progress g) (last (progress_updates ws)).
  Proof.
    revert g. induction ws as [|w ws IH]; intros g; [done|].
    change (replay g (w :: ws)) with (replay (store g w) ws). rewrite IH.
    destruct w; try done.
    change (progress_updates (SetProgress p :: ws))
      with (p :: progress_updates ws).
    destruct (progress_updates ws) as [|q qs]; [done|].
    rewrite last_cons_cons.
    destruct (last (q :: qs)) eqn:Hlast; [done|].
    by apply last_None in Hlast.
  Qed.

  (** The updates of a whole run, from those of its loop. *)
Lemma simulate_generation_updates topic start clock :
    ∃ tail,
      progress_updates (simulate_generation topic (start :: clock)).2
      = 0%Z :: progress_updates (simulate_loop start clock).2 ++ tail
      ∧ (tail = [] ∨ tail = [100%Z])
      ∧ ((simulate_generation topic (start :: clock)).1 = Completed
         → tail = [100%Z]).
  Proof.
    unfold simulate_generation.
    destruct (simulate_loop start clock) as [[| |exc] ws]; simpl.
    - exists []. rewrite app_nil_r. split; [done|]. split; [by left|done].
    - exists [100%Z]. rewrite progress_updates_app. split; [done|].
      split; [by right|done].
    - exists []. rewrite progress_updates_app, app_nil_r. simpl.
      rewrite app_nil_r. split; [done|]. split; [by left|done].
  Qed.

End SimulationFacts.

Lemma sorted_between (lo hi : Z) (us : list Z) :
  (lo <= hi)%Z → Forall (λ p, (lo <= p <= hi)%Z) us →
  StronglySorted Z.le us → StronglySorted Z.le (lo :: us ++ [hi]).
Proof.
  intros Hlh Hus Hsorted. constructor.
  - induction Hsorted as [|u us Hs IH Hu]; simpl.
    + repeat constructor.
    + apply Forall_cons in Hus as [Hu' Hus]. constructor; [by apply IH|].
      apply List.Forall_app. split; [done|]. constructor; [lia|done].
  - apply List.Forall_app. split; [|by repeat constructor].
    eapply Forall_impl; [exact Hus|]. simpl. lia.
Qed.

Lemma sorted_after (lo : Z) (us : list Z) :
  Forall (λ p, (lo <= p)%Z) us →
  StronglySorted Z.le us → StronglySorted Z.le (lo :: us).
Proof. intros Hus Hsorted. by constructor. Qed.

Lemma in_range_last (g0 : Z) (us : list Z) :
  (0 <= g0 <= 100)%Z → Forall (λ p, (0 <= p <= 100)%Z) us →
  (0 <= default g0 (last us) <= 100)%Z.
Proof.
  intros Hg Hus. destruct (last us) as [u|] eqn:Hlast; [|done].
  simpl. apply last_Some_elem_of in Hlast.
  by apply (proj1 (List.Forall_forall _ _) Hus), list_elem_of_In.
Qed.

(** C5, as the code has it, in binary64.  Provided the wall clock never
    reads earlier than it did before, the values assigned to
    [generation_status['progress']] during a run of [simulate_generation]
    lie between 0 and 100 and never decrease, the dictionary holds such a
    value at every point of the run, a run that returns after the loop
    leaves [progress = 100], [completed = True] and
    [in_progress = False], and a run that returns through the handler
    leaves [in_progress = False]. *)
Theorem simulate_generation_progress (topic : list N) (clock : list Z) :
  StronglySorted Z.le clock →
  let run := @simulate_generation binary64 topic clock in
  Forall (λ p, (0 <= p <= 100)%Z) (progress_updates run.2) ∧
  StronglySorted Z.le (progress_updates run.2) ∧
  (∀ g ws, ws `prefix_of` run.2 → (0 <= progress g <= 100)%Z →
           (0 <= progress (replay g ws) <= 100)%Z) ∧
  (run.1 = Completed →
   ∀ g, progress (replay g run.2) = 100%Z ∧
        completed (replay g run.2) = true ∧
        in_progress (replay g run.2) = false) ∧
  (∀ exc, run.1 = Failed exc →
   ∀ g, in_progress (replay g run.2) = false).
Proof.
  intros Hclock run. pose proof binary64_laws as L.
  assert (Hrange : Forall (λ p, (0 <= p <= 100)%Z) (progress_updates run.2)
                   ∧ StronglySorted Z.le (progress_updates run.2)).
  { subst run. destruct clock as [|start clock].
    { simpl. split; repeat constructor; lia. }
    apply StronglySorted_inv in Hclock as [Hsorted Hstart].
    assert (Hstart' : Forall (λ t, (start <= t)%Z) clock).
    { apply List.Forall_forall. intros t Ht.
      rewrite List.Forall_forall in Hstart. by apply Hstart. }
    pose proof (@simulate_loop_updates binary64 start clock) as Hfrom.
    pose proof (@simulate_loop_sorted binary64 L start clock Hstart' Hsorted)
      as Hord.
    destruct (@simulate_generation_updates binary64 topic start clock)
      as (tail & -> & Htail & _).
    assert (Hus : Forall (λ p, (0 <= p <= 100)%Z)
                    (progress_updates (@simulate_loop binary64 start clock).2)).
    { eapply Forall_impl; [exact Hfrom|].
      intros p (t & Ht & Hp).
      apply (@progress_of_range binary64 L (total_seconds start t) p);
        [|done].
      apply (@total_seconds_nonneg binary64 L).
      rewrite Forall_forall in Hstart'. by apply Hstart'. }
    destruct Htail as [-> | ->].
    - rewrite app_nil_r. split.
      + constructor; [lia | done].
      + apply sorted_after; [|done].
        eapply Forall_impl; [exact Hus|]. simpl. lia.
    - split.
      + constructor; [lia|]. apply List.Forall_app. split; [done|].
        repeat constructor; lia.
      + by apply sorted_between. }
  destruct Hrange as [Hrange Hord].
  split; [done|]. split; [done|]. split; [|split].
  - intros g ws [k Hk] Hg. rewrite progress_replay. apply in_range_last; [done|].
    rewrite Hk, progress_updates_app in Hrange.
    by apply List.Forall_app in Hrange as [? _].
  - subst run. unfold simulate_generation.
    destruct clock as [|start clock]; simpl; [done|].
    destruct (simulate_loop start clock) as [[| |exc] ws]; simpl; try done.
    intros _ g.
    unfold replay. simpl. rewrite fold_left_app. done.
  - subst run. unfold simulate_generation.
    destruct clock as [|start clock]; simpl; [done|].
    destruct (simulate_loop start clock) as [[| |exc'] ws]; simpl; try done.
    intros exc _ g.
    unfold replay. simpl. rewrite fold_left_app. done.
Qed.

Lemma simulate_generation_progress_witness :
  StronglySorted Z.le clock_steady ∧
  Forall (λ p, (0 <= p <= 100)%Z)
    (progress_updates
       (@simulate_generation binary64 (py "gravity") clock_steady).2) ∧
  StronglySorted Z.le
    (progress_updates
       (@simulate_generation binary64 (py "gravity") clock_steady).2).
Proof.
  assert (Hclock : StronglySorted Z.le clock_steady)
    by (unfold clock_steady; repeat constructor; lia).
  split; [exact Hclock|].
  destruct (simulate_generation_progress (py "gravity") clock_steady Hclock)
    as (Hrange & Hord & _).
  split; [exact Hrange | exact Hord].
Defined.

(** C5, as stated, fails when the wall clock is set back during a run:
    after one minute the progress is 50; the clock then loses an hour,
    and the next value assigned is -2949, which is negative and smaller
    than the value before it. *)
Lemma simulate_generation_clock_set_back :
  progress_updates
    (@simulate_generation binary64 (py "gravity") clock_set_back).2
  = [0; 50; -2949]%Z ∧
  progress
    (replay generation_status
       (@simulate_generation binary64 (py "gravity") clock_set_back).2)
  = (-2949)%Z ∧
  (-2949 < 0)%Z ∧ (-2949 < 50)%Z.
Proof. repeat split; vm_compute; reflexivity. Qed.

Section ProgressStreamFacts.
  Context {A : PyFloat}.

Lemma build_data_status o :
    ev_status (build_data o) = py "in_progress"
    ∨ ev_status (build_data o) = py "error".
  Proof. unfold build_data. destruct (in_progress (at_build o)); auto. Qed.

Lemma build_data_not_completed o :
    ev_status (build_data o) ≠ py "completed".
  Proof. destruct (build_data_status o) as [-> | ->]; discriminate. Qed.

  (** Event [i] comes from turn [i], and a turn that sees [completed]
      yields the last event. *)
Lemma progress_stream_lookup obs i e :
    (progress_stream obs).1 !! i = Some e →
    ∃ o, obs !! i = Some o ∧
      (if completed (at_test o)
       then e = set_status (py "completed") (build_data o)
            ∧ length (progress_stream obs).1 = S i
            ∧ (progress_stream obs).2 = true
       else e = build_data o).
  Proof.
    revert i. induction obs as [|o obs IH]; intros i; simpl; [done|].
    destruct (completed (at_test o)) eqn:Hdone.
    - destruct i as [|i]; simpl; [|done]. intros [= <-].
      exists o. by rewrite Hdone.
    - destruct (progress_stream obs) as [evs returned]. simpl in *.
      destruct i as [|i]; simpl.
      + intros [= <-]. exists o. by rewrite Hdone.
      + intros He. destruct (IH i He) as (o' & Ho' & Hcase).
        exists o'. split; [done|].
        destruct (completed (at_test o')); [|done].
        destruct Hcase as (-> & -> & ->). done.
  Qed.

Lemma progress_stream_returned obs :
    (progress_stream obs).2 = true →
    ∃ e, last (progress_stream obs).1 = Some e ∧ ev_status e = py "completed".
  Proof.
    induction obs as [|o obs IH]; simpl; [done|].
    destruct (completed (at_test o)).
    - intros _. by eexists.
    - destruct (progress_stream obs) as [evs returned]. simpl in *.
      intros (e & He & Hs)%IH. exists e. split; [|done].
      destruct evs; [done|]. by rewrite last_cons_cons.
  Qed.

End ProgressStreamFacts.

(** C6.  Every event of the [/progress] stream has status
    ['in_progress'] when the dictionary says a simulation is in progress
    and not completed; its status is ['completed'] exactly when
    [generation_status['completed']] is true at the test; the first
    ['completed'] event is the last event, after which the generator
    returns; and a generator that has returned ended on a ['completed']
    event. *)
Theorem progress_stream_events {A : PyFloat} (obs : list observation) :
  (∀ i e, (progress_stream obs).1 !! i = Some e →
     ∃ o, obs !! i = Some o ∧
       (in_progress (at_build o) = true → completed (at_test o) = false →
        ev_status e = py "in_progress") ∧
       (ev_status e = py "completed" ↔ completed (at_test o) = true) ∧
       (ev_status e = py "completed" →
        length (progress_stream obs).1 = S i ∧
        (progress_stream obs).2 = true)) ∧
  ((progress_stream obs).2 = true →
   ∃ e, last (progress_stream obs).1 = Some e ∧
        ev_status e = py "completed").
Proof.
  split; [|apply progress_stream_returned].
  intros i e (o & Ho & Hcase)%progress_stream_lookup.
  exists o. split; [done|].
  destruct (completed (at_test o)) eqn:Hdone.
  - destruct Hcase as (-> & Hlen & Hret). repeat split; try done.
  - subst e. split; [|split; [split|]].
    + intros Hrun _. unfold build_data. by rewrite Hrun.
    + intros Hc. by apply build_data_not_completed in Hc.
    + done.
    + intros Hc. by apply build_data_not_completed in Hc.
Qed.

(** ** generate_video.py and cloudrun/generate_video.py *)

Lemma load_clips_none env (paths : list (list N)) :
  Forall (λ p, valid_clip env p = false) paths → load_clips env paths = [].
Proof.
  induction 1 as [|p paths Hp _ IH]; [done|].
  unfold load_clips in *. simpl. by rewrite Hp.
Qed.

Lemma forallb_is_str_strings (paths : list (list N)) :
  forallb is_str (JStr <$> paths) = true.
Proof. by induction paths. Qed.

Lemma omap_as_str_strings (paths : list (list N)) :
  omap as_str (JStr <$> paths) = paths.
Proof.
  induction paths as [|p paths IH]; [done|].
  change (omap as_str (JStr <$> p :: paths))
    with (p :: omap as_str (JStr <$> paths)).
  by rewrite IH.
Qed.

Lemma forallb_is_str_other (items : list json) v :
  v ∈ items → is_str v = false → forallb is_str items = false.
Proof.
  induction 1 as [v items | w v items _ IH]; simpl; intros Hv.
  - by rewrite Hv.
  - rewrite IH by done. apply andb_false_r.
Qed.

(** C8.  The two copies of [concatenate_videos] return the same result
    for every list, output path and state of the media, and both
    return [False] on an empty list, on a list with an element that is
    not a string, and when no listed file yields a valid clip. *)
Theorem concatenate_videos_copies_agree
    (env : media) (video_list : json) (output_path : list N) :
  Local.concatenate_videos env video_list output_path
    = CloudRun.concatenate_videos env video_list output_path ∧
  Local.concatenate_videos env (JList []) output_path = Returned false ∧
  CloudRun.concatenate_videos env (JList []) output_path = Returned false ∧
  (∀ items v, v ∈ items → is_str v = false →
     Local.concatenate_videos env (JList items) output_path = Returned false ∧
     CloudRun.concatenate_videos env (JList items) output_path
       = Returned false) ∧
  (∀ paths, Forall (λ p, valid_clip env p = false) paths →
     Local.concatenate_videos env (JList (JStr <$> paths)) output_path
       = Returned false ∧
     CloudRun.concatenate_videos env (JList (JStr <$> paths)) output_path
       = Returned false).
Proof.
  split; [reflexivity|]. split; [reflexivity|]. split; [reflexivity|].
  split.
  - intros items v Hv Hstr.
    unfold Local.concatenate_videos, CloudRun.concatenate_videos.
    destruct items as [|w items]; [by apply elem_of_nil in Hv|].
    cbn [truthy negb iter_json].
    by rewrite (forallb_is_str_other _ _ Hv Hstr).
  - intros paths Hnone.
    unfold Local.concatenate_videos, CloudRun.concatenate_videos.
    assert (Htruthy : truthy (JList (JStr <$> paths)) = negb (bool_decide (paths = []))).
    { by destruct paths. }
    rewrite Htruthy. destruct paths as [|p paths]; [done|].
    cbn [bool_decide negb decide_rel iter_json].
    rewrite forallb_is_str_strings, omap_as_str_strings. cbn [negb].
    by rewrite (load_clips_none _ _ Hnone).
Qed.

Import CloudRun.

(** The endpoint answers 400 exactly when the body is an object whose
    [video_list] is missing or falsy. *)
Lemma final_video_endpoint_400 env req :
  code (final_video_endpoint env req) = 400%Z ↔
  ∃ fields, req = Returned (JObj fields) ∧ truthy (requested_list fields) = false.
Proof.
  unfold final_video_endpoint, requested_list. split.
  - intros Hcode. repeat case_match; simplify_eq/=; try done.
    eexists. split; [done|]. by apply negb_true_iff.
  - intros (fields & -> & Hfalsy). by rewrite Hfalsy.
Qed.

(** The endpoint answers 200 exactly when every step succeeded. *)
Lemma final_video_endpoint_200 env req :
  code (final_video_endpoint env req) = 200%Z ↔
  ∃ fields, req = Returned (JObj fields) ∧
    truthy (requested_list fields) = true ∧
    makedirs_error env = None ∧
    concatenate_videos (svc_media env) (requested_list fields)
      (py "final_videos/complete_video.mp4") = Returned true ∧
    upload_error env = None.
Proof.
  unfold final_video_endpoint, upload_to_gcs, requested_list. split.
  - intros Hcode. repeat case_match; simplify_eq/=; try done.
    eexists. split; [done|].
    repeat match goal with
           | H : negb _ = false |- _ => apply negb_false_iff in H
           end.
    by subst.
  - intros (fields & -> & Htruthy & Hmk & Hcat & Hup).
    by rewrite Htruthy, Hmk, Hcat, Hup.
Qed.

Lemma final_video_endpoint_codes env req :
  code (final_video_endpoint env req) = 400%Z
  ∨ code (final_video_endpoint env req) = 500%Z
  ∨ code (final_video_endpoint env req) = 200%Z.
Proof.
  unfold final_video_endpoint, upload_to_gcs.
  repeat case_match; simpl; auto.
Qed.

Lemma final_video_endpoint_error env req :
  code (final_video_endpoint env req) ≠ 200%Z →
  body_status (final_video_endpoint env req) = Some (JStr (py "error")).
Proof.
  unfold final_video_endpoint, upload_to_gcs.
  repeat case_match; simpl; try done.
Qed.

Lemma final_video_endpoint_success env req :
  code (final_video_endpoint env req) = 200%Z →
  body (final_video_endpoint env req)
  = JObj [ (py "status", JStr (py "success"));
           (py "url",
            JStr (py "https://storage.googleapis.com/vidpro-bucket1/final_video/complete_video.mp4")) ].
Proof.
  unfold final_video_endpoint, upload_to_gcs.
  repeat case_match; simplify_eq/=; try done.
Qed.

(** C7, as the code has it.  [/final_video] answers 400 with status
    ['error'] exactly when the body is a JSON object whose ['video_list']
    is missing or falsy (an empty list, but also [null], [false], [0],
    an empty string or an empty object); it answers 500 with status
    ['error'] when [request.json] raises, and when the list is there and
    the concatenation raises or does not return [True]; it answers 200,
    with status ['success'] and the public URL, exactly when the
    directory could be made, the concatenation returned [True] and the
    upload did not raise; and it never answers anything else. *)
Theorem final_video_endpoint_responses
    (env : service) (req : outcome json) :
  let r := final_video_endpoint env req in
  (∀ fields, req = Returned (JObj fields) →
     dict_get (py "video_list") fields = None
     ∨ dict_get (py "video_list") fields = Some (JList []) →
     code r = 400%Z ∧ body_status r = Some (JStr (py "error"))) ∧
  (code r = 400%Z ↔
   ∃ fields, req = Returned (JObj fields)
             ∧ truthy (requested_list fields) = false) ∧
  (∀ exc, req = Raised exc →
     code r = 500%Z ∧ body_status r = Some (JStr (py "error"))) ∧
  (∀ fields, req = Returned (JObj fields) →
     truthy (requested_list fields) = true →
     concatenate_videos (svc_media env) (requested_list fields)
       (py "final_videos/complete_video.mp4") ≠ Returned true →
     code r = 500%Z ∧ body_status r = Some (JStr (py "error"))) ∧
  (code r = 200%Z ↔
   ∃ fields, req = Returned (JObj fields) ∧
     truthy (requested_list fields) = true ∧
     makedirs_error env = None ∧
     concatenate_videos (svc_media env) (requested_list fields)
       (py "final_videos/complete_video.mp4") = Returned true ∧
     upload_error env = None) ∧
  (code r = 200%Z →
   body r = JObj [ (py "status", JStr (py "success"));
                   (py "url",
                    JStr (py "https://storage.googleapis.com/vidpro-bucket1/final_video/complete_video.mp4")) ]) ∧
  (code r ≠ 200%Z →
   (code r = 400%Z ∨ code r = 500%Z)
   ∧ body_status r = Some (JStr (py "error"))).
Proof.
  intros r. subst r.
  assert (H500 : code (final_video_endpoint env req) ≠ 400%Z →
                 code (final_video_endpoint env req) ≠ 200%Z →
                 code (final_video_endpoint env req) = 500%Z
                 ∧ body_status (final_video_endpoint env req)
                   = Some (JStr (py "error"))).
  { intros H4 H2. split; [|by apply final_video_endpoint_error].
    by destruct (final_video_endpoint_codes env req) as [?|[?|?]]. }
  split; [|split; [|split; [|split; [|split; [|split]]]]].
  - intros fields -> Hlist.
    assert (H400 : code (final_video_endpoint env (Returned (JObj fields)))
                   = 400%Z).
    { apply final_video_endpoint_400. exists fields. split; [done|].
      unfold requested_list. by destruct Hlist as [-> | ->]. }
    split; [done|]. apply final_video_endpoint_error. by rewrite H400.
  - apply final_video_endpoint_400.
  - intros exc ->. apply H500.
    + by intros (fields & [=] & _)%final_video_endpoint_400.
    + by intros (fields & [=] & _)%final_video_endpoint_200.
  - intros fields -> Htruthy Hcat. apply H500.
    + intros (fields' & [= <-] & Hfalsy)%final_video_endpoint_400. congruence.
    + by intros (fields' & [= <-] & _ & _ & Hok & _)%final_video_endpoint_200.
  - apply final_video_endpoint_200.
  - apply final_video_endpoint_success.
  - intros Hnot. split; [|by apply final_video_endpoint_error].
    destruct (final_video_endpoint_codes env req) as [?|[?|?]]; auto. done.
Qed.


(** C7, as stated, fails on the body [{"video_list": null}]: the key is
    there, its value is not an empty list, nothing raises and no
    concatenation is attempted, and the answer is 400, not 200. *)
Lemma final_video_endpoint_null_list :
  request_null = Returned (JObj [(py "video_list", JNull)]) ∧
  dict_get (py "video_list") [(py "video_list", JNull)] = Some JNull ∧
  JNull ≠ JList [] ∧
  makedirs_error service_ok = None ∧ upload_error service_ok = None ∧
  code (final_video_endpoint service_ok request_null) = 400%Z ∧
  body (final_video_endpoint service_ok request_null)
  = JObj [ (py "status", JStr (py "error"));
           (py "message", JStr (py "No video list provided")) ].
Proof. repeat split; done. Qed.

(** ** text_to_speech.py *)

Import TextToSpeech.

Ltac fs_simpl :=
  repeat (progress (simpl; rewrite ?lookup_insert_eq, ?lookup_delete_eq)).

Ltac io_unfold :=
  unfold io_try, mbind, io_mbind, io_bind, io_ret, io_raise, io_lift,
    exists_, emit, getsize in *.

(** C10.  On a text that is empty or only whitespace, [generate_audio]
    returns [None] and leaves the files and the log of calls as they
    were.  When it returns [None] on another text, no audio file was there
    before, the synthesis was attempted and failed, and if the attempt
    left a file (a partial one, or one that is too small) its removal
    was attempted; a removal that succeeds leaves no file.  The function
    itself never raises. *)
Theorem generate_audio_none
    (fault : nat → bool) (gtts : list N → tts_result)
    (text : list N) (section_index : Z) (w : world) :
  let path := audio_section_path section_index in
  let run := generate_audio fault gtts text section_index w in
  (strip text = [] → run = (Returned None, w)) ∧
  (strip text ≠ [] → run.1 = Returned None →
   files w !! path = None ∧
   match gtts text with
   | TtsFailed _ None =>
       log run.2 = log w ++ [SysTtsSave path false] ∧ files run.2 = files w
   | TtsFailed _ (Some _) =>
       ∃ ok, log run.2 = log w ++ [SysTtsSave path false; SysRemove path ok]
             ∧ (ok = true → files run.2 !! path = None)
   | TtsSaved content =>
       (length content < 1000)%nat ∧
       ∃ ok, log run.2 = log w ++ [SysTtsSave path true; SysRemove path ok]
             ∧ (ok = true → files run.2 !! path = None)
   end) ∧
  (∃ v, run.1 = Returned v).
Proof.
  intros path run. subst run. unfold generate_audio. fold path.
  case_bool_decide as Hblank.
  { split; [done|]. split; [done|]. by eexists. }
  split; [done|].
  io_unfold. unfold tts_save, remove. simpl.
  destruct (files w !! path) as [present|] eqn:Hpath.
  { simpl. split; [by intros _ [=] | by eexists]. }
  simpl.
  destruct (gtts text) as [exc [partial|] | content]; fs_simpl.
  - rewrite length_app. simpl.
    destruct (fault _) eqn:Hfault; fs_simpl.
    + split; [|by eexists]. intros _ _. split; [done|].
      exists false. by rewrite <- app_assoc.
    + split; [|by eexists]. intros _ _. split; [done|].
      exists true. by rewrite <- app_assoc.
  - rewrite Hpath. split; [|by eexists]. done.
  - match goal with
    | |- context [if ?c then _ else _] => destruct c eqn:Hsmall
    end; fs_simpl.
    + apply Z.ltb_lt in Hsmall. rewrite length_app. simpl.
      destruct (fault _) eqn:Hfault; fs_simpl.
      * split; [|by eexists]. intros _ _. split; [done|]. split; [lia|].
        exists false. by rewrite <- app_assoc.
      * split; [|by eexists]. intros _ _. split; [done|]. split; [lia|].
        exists true. by rewrite <- app_assoc.
    + split; [by intros _ [=] | by eexists].
Qed.

(** ** Reasoning about computations in the world *)

Section IoFacts.
Context {T U : Type}.

Lemma io_bind_returned (c : io T) (k : T → io U) w v w' :
  io_bind c k w = (Returned v, w') →
  ∃ u w1, c w = (Returned u, w1) ∧ k u w1 = (Returned v, w').
Proof.
  unfold io_bind. destruct (c w) as [[u|exc] w1]; [|done]. eauto.
Qed.

Lemma io_try_returned (c : io T) (h : list N → io T) w v w' :
  io_try c h w = (Returned v, w') →
  c w = (Returned v, w')
  ∨ ∃ exc w1, c w = (Raised exc, w1) ∧ h exc w1 = (Returned v, w').
Proof.
  unfold io_try. destruct (c w) as [[u|exc] w1]; [|by eauto].
  intros [= <- <-]. by left.
Qed.

(** A handler that returns makes the whole [try] return. *)
Lemma io_try_total (c : io T) (h : list N → io T) w :
  (∀ exc w1, ∃ v, (h exc w1).1 = Returned v) →
  ∃ v, (io_try c h w).1 = Returned v.
Proof.
  intros Hh. unfold io_try. destruct (c w) as [[u|exc] w1]; [by eexists|].
  apply Hh.
Qed.

End IoFacts.

Section OnlyLogs.
Context {T U : Type} (ok : syscall → bool).

Lemma only_logs_ret (v : T) : only_logs ok (io_ret v).
Proof. intros w. exists []. by rewrite app_nil_r. Qed.

Lemma only_logs_raise exc : only_logs ok (@io_raise T exc).
Proof. intros w. exists []. by rewrite app_nil_r. Qed.

Lemma only_logs_lift (r : outcome T) : only_logs ok (io_lift r).
Proof. intros w. exists []. by rewrite app_nil_r. Qed.

Lemma only_logs_bind (c : io T) (k : T → io U) :
  only_logs ok c → (∀ v, only_logs ok (k v)) → only_logs ok (io_bind c k).
Proof.
  intros Hc Hk w. unfold io_bind. destruct (Hc w) as (evs & Hlog & Hok).
  destruct (c w) as [[v|exc] w1]; simpl in *; [|by eauto].
  destruct (Hk v w1) as (evs' & Hlog' & Hok').
  exists (evs ++ evs'). rewrite Hlog', Hlog, app_assoc. split; [done|].
  by apply Forall_app.
Qed.

Lemma only_logs_mbind (c : io T) (k : T → io U) :
  only_logs ok c → (∀ v, only_logs ok (k v)) → only_logs ok (c ≫= k).
Proof. apply only_logs_bind. Qed.

Lemma only_logs_try (c : io T) (h : list N → io T) :
  only_logs ok c → (∀ exc, only_logs ok (h exc)) → only_logs ok (io_try c h).
Proof.
  intros Hc Hh w. unfold io_try. destruct (Hc w) as (evs & Hlog & Hok).
  destruct (c w) as [[v|exc] w1]; simpl in *; [by eauto|].
  destruct (Hh exc w1) as (evs' & Hlog' & Hok').
  exists (evs ++ evs'). rewrite Hlog', Hlog, app_assoc. split; [done|].
  by apply Forall_app.
Qed.

Lemma only_logs_exists path : only_logs ok (exists_ path).
Proof. intros w. exists []. by rewrite app_nil_r. Qed.

Lemma only_logs_getsize path : only_logs ok (getsize path).
Proof.
  intros w. exists []. rewrite app_nil_r. unfold getsize.
  by repeat case_match.
Qed.

Lemma only_logs_emit ev : ok ev = true → only_logs ok (emit ev).
Proof. intros Hev w. exists [ev]. split; [done|]. by constructor. Qed.

Lemma only_logs_makedirs fault path :
  (∀ b, ok (SysMakedirs path b) = true) → only_logs ok (makedirs fault path).
Proof.
  intros Hev w. unfold makedirs.
  repeat case_match; simpl; eexists; (split; [done|]); by constructor.
Qed.

Lemma only_logs_write_file fault path content :
  (∀ b, ok (SysWrite path b) = true) →
  only_logs ok (write_file fault path content).
Proof.
  intros Hev w. unfold write_file.
  repeat case_match; simpl; eexists; (split; [done|]); by constructor.
Qed.

Lemma only_logs_rmtree fault lost path :
  (∀ b, ok (SysRmtree path b) = true) → only_logs ok (rmtree fault lost path).
Proof.
  intros Hev w. unfold rmtree.
  repeat case_match; simpl; eexists; (split; [done|]); by constructor.
Qed.

Lemma only_logs_remove fault path :
  (∀ b, ok (SysRemove path b) = true) → only_logs ok (remove fault path).
Proof.
  intros Hev w. unfold remove.
  repeat case_match; simpl; eexists; (split; [done|]); by constructor.
Qed.

End OnlyLogs.

Lemma only_logs_for {T : Type} ok (xs : list T) (body : T → io unit) :
  (∀ x, only_logs ok (body x)) → only_logs ok (io_for xs body).
Proof.
  intros Hbody. induction xs as [|x xs IH]; simpl; [apply only_logs_ret|].
  by apply only_logs_mbind.
Qed.

Create HintDb io_log discriminated.
#[local] Hint Resolve only_logs_ret only_logs_raise only_logs_lift
  only_logs_bind only_logs_mbind only_logs_try only_logs_for
  only_logs_exists only_logs_getsize only_logs_makedirs
  only_logs_write_file only_logs_rmtree only_logs_remove
  only_logs_emit : io_log.
#[local] Hint Extern 1 (only_logs _ (match ?x with _ => _ end)) =>
  destruct x : io_log.
#[local] Hint Extern 1 (_ = true) => reflexivity : io_log.

Lemma genai_calls_app evs1 evs2 :
  genai_calls (evs1 ++ evs2) = genai_calls evs1 ++ genai_calls evs2.
Proof. apply omap_app. Qed.

Lemma genai_calls_none evs :
  Forall (λ ev, not_genai ev = true) evs → genai_calls evs = [].
Proof.
  induction 1 as [|ev evs Hev _ IH]; [done|]. by destruct ev.
Qed.

(** ** generate_interactive_page.py and d3_generator.py *)

Import InteractivePage.

Lemma generate_interactive_final_page_log fault script_data output_path :
  only_logs not_genai
    (generate_interactive_final_page fault script_data output_path).
Proof. unfold generate_interactive_final_page. eauto 20 with io_log. Qed.

(** The D3 code, by contrast, comes from a call to the service. *)
Lemma generate_d3_code_calls genai prompt w :
  genai_calls (log (D3Generator.generate_d3_code genai prompt w).2)
  = genai_calls (log w) ++ [(py "gemini-2.5-pro-exp-03-25", prompt)].
Proof.
  unfold D3Generator.generate_d3_code, D3Generator.generate_content.
  io_unfold. simpl. destruct (genai _ _); simpl; by rewrite genai_calls_app.
Qed.

Lemma generate_interactive_final_page_html
    fault script_data output_path w html w' :
  generate_interactive_final_page fault script_data output_path w
    = (Returned (Some html), w') →
  ∃ n, section_count script_data = Some n ∧ html = interactive_page_html n.
Proof.
  unfold generate_interactive_final_page, section_count.
  intros [Hbody | (exc & w1 & _ & [=])]%io_try_returned.
  apply io_bind_returned in Hbody as (sections & w1 & Hsec & Hbody).
  apply io_bind_returned in Hbody as (n & w2 & Hlen & Hbody).
  apply io_bind_returned in Hbody as ([] & w3 & _ & Hbody).
  apply io_bind_returned in Hbody as ([] & w4 & _ & Hbody).
  apply io_bind_returned in Hbody as ([] & w5 & _ & [= <- _]).
  exists n. split; [|done].
  destruct script_data; try done. injection Hsec as <- _.
  by destruct (py_len _); [injection Hlen as <-|].
Qed.

(** C1, as the code has it.  [generate_interactive_final_page] makes no
    call to the generative-language service; the HTML it returns is the
    fixed template of the source with the number of sections written
    in, so two calls on scripts with equally many sections return the
    same HTML; and it never raises. *)
Theorem interactive_page_is_a_fixed_template
    (fault : nat → bool) (script_data : json) (output_path : list N)
    (w : world) :
  let run := generate_interactive_final_page fault script_data output_path w in
  genai_calls (log run.2) = genai_calls (log w) ∧
  (∀ html, run.1 = Returned (Some html) →
     ∃ n, section_count script_data = Some n ∧ html = interactive_page_html n) ∧
  (∀ fault' script_data' output_path' w' html html',
     run.1 = Returned (Some html) →
     (generate_interactive_final_page fault' script_data' output_path' w').1
       = Returned (Some html') →
     section_count script_data = section_count script_data' →
     html = html') ∧
  (∃ v, run.1 = Returned v).
Proof.
  intros run. subst run.
  assert (Hhtml : ∀ fault script_data output_path w html,
    (generate_interactive_final_page fault script_data output_path w).1
      = Returned (Some html) →
    ∃ n, section_count script_data = Some n ∧ html = interactive_page_html n).
  { clear. intros fault script_data output_path w html Hrun.
    destruct (generate_interactive_final_page _ _ _ _) as [r w'] eqn:Heq.
    simpl in Hrun. subst r.
    by eapply generate_interactive_final_page_html. }
  split.
  { destruct (generate_interactive_final_page_log fault script_data
                output_path w) as (evs & -> & Hevs).
    by rewrite genai_calls_app, (genai_calls_none _ Hevs), app_nil_r. }
  split; [apply Hhtml|]. split.
  - intros fault' script_data' output_path' w' html html' H1 H2 Hcount.
    apply Hhtml in H1 as (n & Hn & ->). apply Hhtml in H2 as (n' & Hn' & ->).
    congruence.
  - apply io_try_total. intros exc w1. by eexists.
Qed.

(** C1, as stated, fails: on a script of two sections the page is
    returned after two calls in all, to [os.makedirs] and to [open], and
    none to the generative-language service; and a script with other
    contents and as many sections gets the same HTML, character for
    character. *)
Lemma interactive_page_without_llm :
  (generate_interactive_final_page no_fault script_newton default_output_path
     world_two_pages).1
  = Returned (Some (interactive_page_html 2)) ∧
  log (generate_interactive_final_page no_fault script_newton
         default_output_path world_two_pages).2
  = [ SysMakedirs (py "templates") true;
      SysWrite (py "templates/interactive_page.html") true ] ∧
  genai_calls
    (log (generate_interactive_final_page no_fault script_newton
            default_output_path world_two_pages).2) = [] ∧
  script_newton ≠ script_cells ∧
  (generate_interactive_final_page no_fault script_cells default_output_path
     world_two_pages).1
  = (generate_interactive_final_page no_fault script_newton
       default_output_path world_two_pages).1.
Proof.
  split; [vm_compute; reflexivity|]. split; [vm_compute; reflexivity|].
  split; [vm_compute; reflexivity|]. split; [discriminate|].
  vm_compute; reflexivity.
Qed.

(** ** Master.py: the fan-out over the sections *)

Import Master.

Lemma io_bind_step {T U : Type} (c : io T) (k : T → io U) w v w1 :
  c w = (Returned v, w1) → io_bind c k w = k v w1.
Proof. intros Hc. unfold io_bind. by rewrite Hc. Qed.

(** A loop of submissions logs one call per item, in order. *)
Lemma io_for_emit {T : Type} (xs : list T) (ev : T → syscall) w :
  io_for xs (λ x, emit (ev x)) w
  = (Returned tt, World (files w) (log w ++ (ev <$> xs))).
Proof.
  revert w. induction xs as [|x xs IH]; intros w; simpl.
  - unfold io_ret. rewrite app_nil_r. by destruct w.
  - unfold mbind, io_mbind, io_bind, emit. rewrite IH. simpl.
    by rewrite <- app_assoc.
Qed.







(** ** Master.py: cleaning up the previous run *)

Lemma rmtree_attempts_app d evs1 evs2 :
  rmtree_attempts d (evs1 ++ evs2)
  = rmtree_attempts d evs1 ++ rmtree_attempts d evs2.
Proof. apply omap_app. Qed.




Lemma pruned_lookup (d : list N) (m : gmap (list N) node) (p : list N) :
  filter (λ kv : list N * node, inside d kv.1 = false) m !! p
  = if inside d p then None else m !! p.
Proof.
  rewrite map_lookup_filter. destruct (m !! p) as [x|]; simpl.
  - destruct (inside d p) eqn:Hin; case_guard; simpl in *; congruence.
  - by destruct (inside d p).
Qed.

Lemma inside_self (d : list N) : inside d d = true.
Proof. unfold inside. by rewrite bool_decide_eq_true_2. Qed.

Lemma under_inside (d p : list N) : under d p = true → inside d p = true.
Proof. unfold under, inside. intros ->. apply orb_true_r. Qed.

Lemma starts_with_longer (d : list N) c r : starts_with (d ++ c :: r) d = false.
Proof. induction d as [|a d IH]; simpl; [done|]. by rewrite IH, andb_false_r. Qed.

Lemma under_self (d : list N) : under d d = false.
Proof. apply starts_with_longer. Qed.

Lemma rmtree_cases (fault : nat → bool) (lost : nat → list N → bool)
    (d : list N) (w : world) :
  rmtree fault lost d w
  = (Returned tt,
     World (filter (λ kv : list N * node, inside d kv.1 = false) (files w))
           (log w ++ [SysRmtree d true]))
  ∨ ∃ exc w1,
      rmtree fault lost d w = (Raised exc, w1)
      ∧ log w1 = log w ++ [SysRmtree d false]
      ∧ (∀ p, under d p = false → files w1 !! p = files w !! p)
      ∧ (∀ p, files w1 !! p = None ∨ files w1 !! p = files w !! p).
Proof.
  unfold rmtree. repeat case_match; eauto; right; eexists _, _;
    (split; [reflexivity|]); simpl; (split; [done|]); try by auto.
  split; intros p; [intros Hp|]; rewrite map_lookup_filter;
    destruct (files w !! p) as [x|]; simpl; auto;
    case_guard; simpl in *; auto.
  rewrite Hp in *. simpl in *. done.
Qed.

Lemma retry_rmtree_S (fault : nat → bool) (lost : nat → list N → bool)
    (d : list N) k (w : world) :
  retry_rmtree fault lost d (S k) w
  = match rmtree fault lost d w with
    | (Returned _, w1) => (Returned tt, w1)
    | (Raised _, w1) =>
        retry_rmtree fault lost d k
          (World (files w1) (log w1 ++ [SysSleep 1]))
    end.
Proof.
  simpl. io_unfold. by destruct (rmtree fault lost d w) as [[[]|exc] w1].
Qed.

Lemma rmtree_attempts_self (d : list N) ok :
  rmtree_attempts d [SysRmtree d ok] = [ok].
Proof. unfold rmtree_attempts. simpl. by rewrite bool_decide_eq_true_2. Qed.

(** The retry loop always returns; it stops at the first success, which
    prunes the tree; failed attempts may only lose paths under the
    directory. *)
Lemma retry_rmtree_spec (fault : nat → bool) (lost : nat → list N → bool)
    (d : list N) k (w : world) :
  ∃ evs w',
    retry_rmtree fault lost d k w = (Returned tt, w')
    ∧ log w' = log w ++ evs
    ∧ Forall (λ ev, about_dir d ev = true) evs
    ∧ retry_shape k (rmtree_attempts d evs)
    ∧ (∀ p, inside d p = false → files w' !! p = files w !! p)
    ∧ (true ∈ rmtree_attempts d evs →
       ∀ p, inside d p = true → files w' !! p = None)
    ∧ (true ∉ rmtree_attempts d evs →
       files w' !! d = files w !! d
       ∧ ∀ p, files w' !! p = None ∨ files w' !! p = files w !! p).
Proof.
  revert w. induction k as [|k IH]; intros w.
  - exists [], w. rewrite app_nil_r. split; [done|]. split; [done|].
    split; [done|]. split; [exists 0; by right|]. split; [done|].
    split; [by intros ?%elem_of_nil | by auto].
  - rewrite retry_rmtree_S.
    destruct (rmtree_cases fault lost d w)
      as [-> | (exc & w1 & -> & Hlog1 & Hout1 & Hsub1)].
    + eexists [SysRmtree d true], _. rewrite rmtree_attempts_self.
      split; [reflexivity|]. cbn [files log]. split; [done|]. split.
      { constructor; [|done]. simpl. by rewrite bool_decide_eq_true_2. }
      split; [exists 0; left; split; [done | lia]|].
      split; [|split].
      * intros p Hp. by rewrite pruned_lookup, Hp.
      * intros _ p Hp. by rewrite pruned_lookup, Hp.
      * intros []. by left.
    + destruct (IH (World (files w1) (log w1 ++ [SysSleep 1])))
        as (evs & w' & Heq & Hlog & Habout & Hshape & Hout & Hcleared & Hkept).
      cbn [files log] in *.
      exists ([SysRmtree d false; SysSleep 1] ++ evs), w'.
      split; [done|].
      split; [by rewrite Hlog, Hlog1, <- !app_assoc|].
      split.
      { apply Forall_app. split; [|done].
        repeat constructor. simpl. by rewrite bool_decide_eq_true_2. }
      change ([SysRmtree d false; SysSleep 1] ++ evs)
        with ([SysRmtree d false] ++ [SysSleep 1] ++ evs).
      rewrite !rmtree_attempts_app, rmtree_attempts_self.
      change (rmtree_attempts d [SysSleep 1]) with (@nil bool).
      cbn [app].
      assert (Hunder : ∀ p, inside d p = false → under d p = false).
      { intros p Hp. destruct (under d p) eqn:Hu; [|done].
        by rewrite (under_inside _ _ Hu) in Hp. }
      split; [|split; [|split]].
      * destruct Hshape as [j [[-> Hj] | [-> Hj]]].
        -- exists (S j). left. split; [done | lia].
        -- exists (S j). right. split; [done | lia].
      * intros p Hp. rewrite Hout by done. auto.
      * intros [[=] | Hin]%elem_of_cons. auto.
      * intros Hnin.
        assert (Hnin' : true ∉ rmtree_attempts d evs).
        { intros Hin. apply Hnin. by right. }
        destruct (Hkept Hnin') as [Hd Hsub]. split.
        -- rewrite Hd. apply Hout1, under_self.
        -- intros p. destruct (Hsub p) as [-> | ->]; auto.
Qed.

Lemma makedirs_returned (fault : nat → bool) (d : list N) (w w' : world) :
  makedirs fault d w = (Returned tt, w') →
  log w' = log w ++ [SysMakedirs d true]
  ∧ files w' !! d = Some Dir
  ∧ ∀ p, p ≠ d → files w' !! p = files w !! p.
Proof.
  unfold makedirs. repeat case_match; intros [= <-]; simpl.
  - done.
  - rewrite lookup_insert_eq. split; [done|]. split; [done|].
    intros p Hp. by rewrite lookup_insert_ne.
Qed.

Lemma clear_directory_spec
    (fault : nat → bool) (lost : nat → list N → bool) (d : list N)
    (w w' : world) :
  clear_directory fault lost d w = (Returned tt, w') →
  ∃ evs, log w' = log w ++ evs
    ∧ Forall (λ ev, about_dir d ev = true) evs
    ∧ (∀ p, inside d p = false → files w' !! p = files w !! p)
    ∧ dir_cleaned d evs w w'.
Proof.
  unfold clear_directory, dir_cleaned, mbind, io_mbind.
  intros (present & w0 & [= <- <-] & Hrest)%io_bind_returned.
  apply io_bind_returned in Hrest as ([] & w1 & Hretry & Hmk).
  apply makedirs_returned in Hmk as (Hlog & Hd & Hframe).
  assert (Hnotself : ∀ p, under d p = true → p ≠ d).
  { intros p Hp ->. by rewrite under_self in Hp. }
  assert (Houtside : ∀ p, inside d p = false → p ≠ d).
  { intros p Hp ->. by rewrite inside_self in Hp. }
  assert (Hmkdir : about_dir d (SysMakedirs d true) = true)
    by (simpl; by rewrite bool_decide_eq_true_2).
  destruct (files w !! d) as [present|] eqn:Hpresent.
  - destruct (retry_rmtree_spec fault lost d 3 w)
      as (evs & w1' & Heq & Hlog1 & Habout & Hshape & Hout & Hcleared & Hkept).
    rewrite Hretry in Heq. injection Heq as <-.
    exists (evs ++ [SysMakedirs d true]).
    rewrite Hlog, Hlog1, app_assoc. split; [done|].
    split; [apply Forall_app; split; [done | by constructor]|].
    rewrite rmtree_attempts_app.
    change (rmtree_attempts d [SysMakedirs d true]) with (@nil bool).
    rewrite app_nil_r.
    split; [intros p Hp; rewrite Hframe by auto; auto|].
    split; [done|]. split; [done|]. split.
    + intros Hin p Hp. rewrite Hframe by auto.
      by apply Hcleared, under_inside.
    + intros Hnin p Hp. rewrite Hframe by auto.
      by destruct (Hkept Hnin) as [_ Hsub].
  - injection Hretry as <-.
    exists [SysMakedirs d true]. split; [done|].
    split; [by constructor|]. split; [by auto|].
    split; [exists 0; right; split; [done | lia]|]. split; [done|].
    split; [by intros ?%elem_of_nil|].
    intros _ p Hp. right. auto.
Qed.






Lemma inside_head (c : N) (d p : list N) :
  inside (c :: d) p = true → ∃ p', p = c :: p'.
Proof.
  unfold inside. intros [Hp | Hp]%orb_true_iff.
  - apply bool_decide_eq_true in Hp as ->. by eexists.
  - destruct p as [|b p]; [done|]. simpl in Hp.
    apply andb_true_iff in Hp as [->%N.eqb_eq _]. by eexists.
Qed.

Lemma inside_head_ne (c c' : N) (d d' p : list N) :
  c ≠ c' → inside (c :: d) p = true → inside (c' :: d') p = false.
Proof.
  intros Hne (p' & ->)%inside_head. unfold inside. simpl.
  rewrite bool_decide_eq_false_2 by congruence.
  assert ((c' =? c)%N = false) as -> by (apply N.eqb_neq; congruence).
  done.
Qed.

Lemma dirs_to_clear_separated : separated dirs_to_clear.
Proof.
  intros d d' p Hd Hd' Hne Hin. unfold dirs_to_clear in *.
  repeat (apply elem_of_cons in Hd as [-> | Hd]);
    try (by apply elem_of_nil in Hd);
    repeat (apply elem_of_cons in Hd' as [-> | Hd']);
    try (by apply elem_of_nil in Hd');
    try done;
    (eapply inside_head_ne; [|exact Hin]; discriminate).
Qed.










(** * Properties of the rest of the pipeline *)

(** ** Splitting into words *)

Lemma split_space (c : N) (s : list N) :
  py_isspace c = true → split (c :: s) = split s.
Proof. intros Hc. cbn [split]. by rewrite Hc. Qed.

Lemma split_head_word (c : N) (s : list N) :
  py_isspace c = false → ∃ w ws, split (c :: s) = (c :: w) :: ws.
Proof.
  intros Hc. cbn [split]. rewrite Hc. destruct s as [|c' s]; [by eauto|].
  destruct (py_isspace c'); [by eauto|].
  destruct (split (c' :: s)); eauto.
Qed.

Lemma split_app_space (a : list N) (c : N) (b : list N) :
  py_isspace c = true → split (a ++ c :: b) = split a ++ split b.
Proof.
  intros Hc. induction a as [|x a IH].
  { cbn [app]. by apply split_space. }
  destruct (py_isspace x) eqn:Hx.
  { cbn [app]. rewrite !(split_space x) by done. exact IH. }
  destruct a as [|y a].
  { cbn [app]. cbn [split]. by rewrite Hx, Hc. }
  cbn [app] in *. cbn [split] in *. rewrite Hx.
  destruct (py_isspace y) eqn:Hy.
  - by rewrite IH.
  - rewrite IH. clear IH.
    destruct a as [|z a]; [done|].
    destruct (py_isspace z); [done|].
    by destruct (split (z :: a)).
Qed.

Lemma split_spaces (l : list N) :
  Forall (λ c, py_isspace c = true) l → split l = [].
Proof. induction 1 as [|c l Hc _ IH]; [done|]. by rewrite split_space. Qed.

Lemma split_spaces_l (l s : list N) :
  Forall (λ c, py_isspace c = true) l → split (l ++ s) = split s.
Proof.
  induction 1 as [|c l Hc _ IH]; [done|]. cbn [app]. by rewrite split_space.
Qed.

Lemma split_spaces_r (s r : list N) :
  Forall (λ c, py_isspace c = true) r → split (s ++ r) = split s.
Proof.
  intros Hr. destruct Hr as [|c r Hc Hr]; [by rewrite app_nil_r|].
  by rewrite split_app_space, (split_spaces r), app_nil_r.
Qed.

(** Whitespace at the two ends does not count. *)
Lemma split_strip (s : list N) : split (strip s) = split s.
Proof.
  destruct (strip_trimmed s) as (l & r & Hs & Hl & Hr).
  rewrite Hs at 2. by rewrite split_spaces_l, split_spaces_r.
Qed.

Lemma split_word (w : list N) : is_word w → split w = [w].
Proof.
  intros [Hne Hw]. induction Hw as [|c w Hc Hw IH]; [done|].
  cbn [split]. rewrite Hc. destruct Hw as [|c' w Hc' Hw]; [done|].
  rewrite Hc'. by rewrite IH.
Qed.

Lemma split_words (s : list N) : Forall is_word (split s).
Proof.
  induction s as [|c s IH]; [constructor|].
  cbn [split]. destruct (py_isspace c) eqn:Hc; [done|].
  assert (Hone : is_word [c]) by (split; [done | by repeat constructor]).
  destruct s as [|c' s]; [by repeat constructor|].
  destruct (py_isspace c') eqn:Hc'; [by constructor|].
  destruct (split (c' :: s)) as [|w ws]; [by repeat constructor|].
  inversion IH as [|? ? [Hne Hw] Hws]; subst.
  constructor; [|done]. split; [done | by constructor].
Qed.

(** Characters put in front never lower the number of words. *)
Lemma split_length_app (a b : list N) :
  length (split b) ≤ length (split (a ++ b)).
Proof.
  induction a as [|c a IH]; [done|]. cbn [app]. etrans; [exact IH|].
  generalize (a ++ b). clear. intros s.
  cbn [split]. destruct (py_isspace c); [done|].
  destruct s as [|c' s]; [simpl; lia|].
  destruct (py_isspace c'); [simpl; lia|].
  destruct (split (c' :: s)); simpl; lia.
Qed.

(** ** text_animation.py: [create_text_frame] *)

Section TextFrameFacts.
Import TextAnimation.
Context (text_width : list N → Z) (limit : Z).

Lemma wrap_word_step (lines : list (list N)) (current_line word : list N) :
  is_word word →
  let state := wrap_word text_width limit (lines, current_line) word in
  concat (split <$> state.1) ++ split state.2
  = concat (split <$> lines) ++ split current_line ++ [word].
Proof.
  intros Hword. unfold wrap_word. case_bool_decide as Hcur.
  - subst current_line.
    destruct (text_width word <=? limit)%Z; simpl.
    + by rewrite (split_word word).
    + rewrite fmap_app, concat_app, (split_word word) by done. simpl.
      by rewrite app_nil_r.
  - destruct (text_width _ <=? limit)%Z; simpl.
    + rewrite split_strip.
      change (current_line ++ py " " ++ word)
        with (current_line ++ 32%N :: word).
      by rewrite split_app_space, (split_word word).
    + rewrite fmap_app, concat_app, (split_word word) by done. simpl.
      by rewrite app_nil_r, <- !app_assoc.
Qed.

Lemma wrap_word_words (ws : list (list N)) :
  Forall is_word ws →
  ∀ lines current_line,
    let state := fold_left (wrap_word text_width limit) ws (lines, current_line) in
    concat (split <$> state.1) ++ split state.2
    = concat (split <$> lines) ++ split current_line ++ ws.
Proof.
  induction 1 as [|word ws Hword _ IH]; intros lines current_line.
  { simpl. by rewrite app_nil_r. }
  cbn [fold_left]. cbv zeta in IH.
  pose proof (wrap_word_step lines current_line word Hword) as Hstep.
  cbv zeta in Hstep.
  destruct (wrap_word text_width limit (lines, current_line) word)
    as [lines' current_line'].
  rewrite IH. simpl in Hstep. rewrite app_assoc, Hstep.
  by rewrite <- !app_assoc.
Qed.

Local Abbreviation line_fits := (line_fits text_width limit).

Lemma wrap_word_fits_step (words lines : list (list N))
    (current_line word : list N) :
  word ∈ words →
  Forall (line_fits words) lines → line_fits words current_line →
  let state := wrap_word text_width limit (lines, current_line) word in
  Forall (line_fits words) state.1 ∧ line_fits words state.2.
Proof.
  intros Hword Hlines Hcur. unfold wrap_word.
  destruct (text_width _ <=? limit)%Z eqn:Hfit; simpl.
  - split; [done|]. left. by apply Z.leb_le.
  - split; [|by right; left].
    apply Forall_app. split; [done | by constructor].
Qed.

Lemma wrap_word_fits (words ws : list (list N)) :
  ws ⊆ words →
  ∀ lines current_line,
    Forall (line_fits words) lines → line_fits words current_line →
    let state := fold_left (wrap_word text_width limit) ws (lines, current_line) in
    Forall (line_fits words) state.1 ∧ line_fits words state.2.
Proof.
  induction ws as [|word ws IH]; intros Hsub lines current_line Hlines Hcur.
  { done. }
  assert (Hword : word ∈ words) by (apply Hsub; left).
  assert (Hws : ws ⊆ words) by (intros x Hx; apply Hsub; by right).
  cbn [fold_left]. cbv zeta in IH.
  destruct (wrap_word_fits_step words lines current_line word Hword Hlines Hcur)
    as [Hlines' Hcur'].
  destruct (wrap_word text_width limit (lines, current_line) word)
    as [lines' current_line'].
  by apply IH.
Qed.

End TextFrameFacts.

Lemma imap_second {X Y : Type} (f : nat → Y) (l : list X) :
  (imap (λ k x, (f k, x)) l).*2 = l.
Proof.
  revert f. induction l as [|x l IH]; intros f; [done|].
  cbn [imap fmap list_fmap]. simpl. f_equal. apply (IH (f ∘ S)).
Qed.

Lemma last_four_length {T : Type} (lines : list T) :
  4 < length lines → length (TextAnimation.last_four lines) = 4.
Proof. intros Hlen. unfold TextAnimation.last_four. rewrite length_drop. lia. Qed.

(** What [create_text_frame] draws: the lines that the loop over the
    words has built, less the first ones when there are more than
    four. *)
Lemma create_text_frame_spec (text_width : list N → Z) (text : list N)
    (frame_size : Z * Z) (font_size padding : Z) :
  ∃ (lines : list (list N)) (k : nat),
    TextAnimation.create_text_frame text_width text frame_size font_size padding
    = imap (λ k line,
              ((padding, padding + Z.of_nat k * (font_size + 10))%Z, line))
           (drop k lines)
    ∧ concat (split <$> lines) = split text
    ∧ Forall (line_fits text_width (frame_size.1 - 2 * padding)%Z (split text))
             lines
    ∧ length (drop k lines) ≤ 4
    ∧ (k = 0 ∨ length (drop k lines) = 4).
Proof.
  unfold TextAnimation.create_text_frame.
  pose proof (wrap_word_words text_width (frame_size.1 - 2 * padding)%Z
                (split text) (split_words text) [] []) as Hwords.
  pose proof (wrap_word_fits text_width (frame_size.1 - 2 * padding)%Z
                (split text) (split text) (λ x Hx, Hx) [] []) as Hfits.
  cbv zeta in Hwords, Hfits.
  destruct (fold_left _ (split text) ([], [])) as [lines current_line].
  simpl in Hwords, Hfits.
  destruct Hfits as [Hlines Hcur]; [constructor | by right; right |].
  set (all := if bool_decide (current_line = []) then lines
              else lines ++ [current_line]).
  assert (Hall : concat (split <$> all) = split text
                 ∧ Forall (line_fits text_width (frame_size.1 - 2 * padding)%Z
                             (split text)) all).
  { subst all. case_bool_decide as Hempty.
    - subst current_line. simpl in Hwords. by rewrite app_nil_r in Hwords.
    - split; [|apply Forall_app; split; [done | by constructor]].
      rewrite fmap_app, concat_app. simpl. by rewrite app_nil_r. }
  destruct Hall as [Hsplit Hfit].
  destruct (4 <? Z.of_nat (length all))%Z eqn:Hlen.
  - apply Z.ltb_lt in Hlen.
    exists all, (length all - 4). split; [done|]. split; [done|].
    split; [done|]. rewrite length_drop. split; [lia | right; lia].
  - apply Z.ltb_ge in Hlen.
    exists all, 0. rewrite drop_0. split; [done|]. split; [done|].
    split; [done|]. split; [lia | by left].
Qed.

(** X1.  [create_text_frame] draws at most four lines, one below the
    other from the top padding, [font_size + 10] apart and all at the
    left padding; a text without a word draws nothing. *)
Theorem create_text_frame_layout (text_width : list N → Z) (text : list N)
    (frame_size : Z * Z) (font_size padding : Z) :
  let frame :=
    TextAnimation.create_text_frame text_width text frame_size font_size
      padding in
  length frame ≤ 4 ∧
  (∀ (k : nat) pos line,
     frame !! k = Some (pos, line) →
     pos = (padding, (padding + Z.of_nat k * (font_size + 10))%Z)) ∧
  (Forall (λ c, py_isspace c = true) text → frame = []).
Proof.
  intros frame. subst frame. split; [|split].
  - destruct (create_text_frame_spec text_width text frame_size font_size
                padding) as (lines & k & -> & _ & _ & Hlen & _).
    by rewrite length_imap.
  - destruct (create_text_frame_spec text_width text frame_size font_size
                padding) as (lines & k & -> & _).
    intros i pos line. rewrite list_lookup_imap.
    destruct (drop k lines !! i); simpl; [|done]. by intros [= <- _].
  - intros Hblank. unfold TextAnimation.create_text_frame.
    by rewrite (split_spaces text Hblank).
Qed.

(** X2.  The words that [create_text_frame] draws are the last words
    of the text, in order and unchanged: the lines drawn, split again
    into words, give a suffix of [text.split()], and all of it when
    fewer than four lines are drawn. *)
Theorem create_text_frame_words (text_width : list N → Z) (text : list N)
    (frame_size : Z * Z) (font_size padding : Z) :
  let frame :=
    TextAnimation.create_text_frame text_width text frame_size font_size
      padding in
  concat (split <$> frame.*2) `suffix_of` split text ∧
  (length frame < 4 → concat (split <$> frame.*2) = split text).
Proof.
  intros frame. subst frame.
  destruct (create_text_frame_spec text_width text frame_size font_size padding)
    as (lines & k & -> & Hsplit & _ & _ & Hk).
  rewrite imap_second, length_imap. split.
  - exists (concat (split <$> take k lines)).
    by rewrite <- concat_app, <- fmap_app, take_drop.
  - intros Hlen. destruct Hk as [-> | Hfour]; [|lia]. by rewrite drop_0.
Qed.

(** X3.  A line that [create_text_frame] draws is within the width of
    the frame less the two paddings, unless it is a single word of the
    text (too long to fit) or the empty line that a first word too long
    leaves behind. *)
Theorem create_text_frame_fit (text_width : list N → Z) (text : list N)
    (frame_size : Z * Z) (font_size padding : Z) :
  let frame :=
    TextAnimation.create_text_frame text_width text frame_size font_size
      padding in
  Forall (line_fits text_width (frame_size.1 - 2 * padding)%Z (split text))
         frame.*2 ∧
  (∀ pos line, (pos, line) ∈ frame →
     (frame_size.1 - 2 * padding < text_width line)%Z →
     line = [] ∨ is_word line ∧ line ∈ split text).
Proof.
  intros frame. subst frame.
  destruct (create_text_frame_spec text_width text frame_size font_size padding)
    as (lines & k & -> & _ & Hfit & _).
  assert (Hdrawn :
    Forall (line_fits text_width (frame_size.1 - 2 * padding)%Z (split text))
           (drop k lines)).
  { rewrite Forall_forall in *. intros line Hline. apply Hfit.
    by apply (subseteq_drop k). }
  rewrite imap_second. split; [done|].
  intros pos line Hin Hwide.
  assert (Hline : line ∈ drop k lines).
  { apply (list_elem_of_fmap_2 snd) in Hin. by rewrite imap_second in Hin. }
  rewrite Forall_forall in Hdrawn.
  destruct (Hdrawn line Hline) as [Hle | [Hword | ->]]; [lia | | by left].
  right. split; [|done].
  pose proof (split_words text) as Hwords. rewrite Forall_forall in Hwords.
  by apply Hwords.
Qed.

(** ** d3_generator.py and script_generation.py: cleaning, continued *)

Lemma lstrip_spaces_l (l s : list N) :
  Forall (λ c, py_isspace c = true) l → lstrip (l ++ s) = lstrip s.
Proof. induction 1 as [|c l Hc _ IH]; [done|]. simpl. by rewrite Hc. Qed.

Lemma lstrip_spaces (l : list N) :
  Forall (λ c, py_isspace c = true) l → lstrip l = [].
Proof. induction 1 as [|c l Hc _ IH]; [done|]. simpl. by rewrite Hc. Qed.

Lemma rstrip_spaces_r (s r : list N) :
  Forall (λ c, py_isspace c = true) r → rstrip (s ++ r) = rstrip s.
Proof.
  intros Hr. unfold rstrip. rewrite reverse_app.
  by rewrite lstrip_spaces_l by by apply Forall_reverse.
Qed.

Lemma lstrip_id (s : list N) :
  (∀ c r, s = c :: r → py_isspace c = false) → lstrip s = s.
Proof.
  destruct s as [|c s]; [done|]. intros Hs. simpl.
  by rewrite (Hs c s).
Qed.

Lemma rstrip_id (s : list N) :
  (∀ c r, s = r ++ [c] → py_isspace c = false) → rstrip s = s.
Proof.
  intros Hs. unfold rstrip. rewrite lstrip_id; [apply reverse_involutive|].
  intros c r Hrev. apply (Hs c (reverse r)).
  apply (f_equal reverse) in Hrev.
  by rewrite reverse_involutive, reverse_cons in Hrev.
Qed.

Lemma strip_id (s : list N) :
  (∀ c r, s = c :: r → py_isspace c = false) →
  (∀ c r, s = r ++ [c] → py_isspace c = false) →
  strip s = s.
Proof. intros Hhead Hlast. unfold strip. by rewrite lstrip_id, rstrip_id. Qed.

(** Whitespace around a text does not change what [strip] returns. *)
Lemma strip_margins (l s r : list N) :
  Forall (λ c, py_isspace c = true) l →
  Forall (λ c, py_isspace c = true) r →
  strip (l ++ s ++ r) = strip s.
Proof.
  intros Hl Hr. unfold strip. rewrite lstrip_spaces_l by done.
  destruct (lstrip_split s) as (l' & Hs & Hl').
  rewrite Hs at 1. rewrite <- app_assoc, lstrip_spaces_l by done.
  destruct (lstrip s) as [|c t] eqn:Hstrip.
  - simpl. by rewrite lstrip_spaces.
  - apply lstrip_head in Hstrip.
    change ((c :: t) ++ r) with (c :: (t ++ r)). cbn [lstrip]. rewrite Hstrip.
    change (c :: (t ++ r)) with ((c :: t) ++ r).
    by rewrite rstrip_spaces_r.
Qed.

Lemma starts_with_prefix (p s : list N) : starts_with p (p ++ s) = true.
Proof. induction p as [|c p IH]; [done|]. simpl. by rewrite N.eqb_refl. Qed.

Lemma starts_with_same_prefix (p q s : list N) :
  starts_with (p ++ q) (p ++ s) = starts_with q s.
Proof. induction p as [|c p IH]; [done|]. simpl. by rewrite N.eqb_refl. Qed.

Lemma no_fence_starts (s : list N) :
  (∀ a b, s ≠ a ++ fence ++ b) → starts_with fence s = false.
Proof.
  intros Hs. destruct (starts_with fence s) eqn:Hstart; [|done].
  apply starts_with_split in Hstart. by destruct (Hs [] (drop (length fence) s)).
Qed.

Section Unfenced.
Context (alts : list (list N)) (Halts : fence_pattern alts).

(** Where there is no fence the substitution changes nothing. *)
Lemma re_sub_lits_id (s : list N) :
  (∀ a b, s ≠ a ++ fence ++ b) → re_sub_lits alts s = s.
Proof.
  induction s as [|c s IH]; intros Hs; [by simp re_sub_lits|].
  rewrite (re_sub_lits_keep alts Halts) by by apply no_fence_starts.
  f_equal. apply IH. intros a b ->. by apply (Hs (c :: a) b).
Qed.

Lemma re_sub_lits_plain (s rest : list N) :
  no_backtick s → re_sub_lits alts (s ++ rest) = s ++ re_sub_lits alts rest.
Proof.
  induction 1 as [|c s Hc _ IH]; [done|]. cbn [app].
  rewrite (re_sub_lits_keep alts Halts); [by rewrite IH|].
  unfold fence. cbn [py map list_ascii_of_string starts_with].
  change (N_of_ascii "`") with 96%N.
  destruct (96 =? c)%N eqn:Heq; [|done]. apply N.eqb_eq in Heq. by subst c.
Qed.

Lemma re_sub_lits_drop (m rest : list N) :
  first_alt alts (m ++ rest) = Some m → m ≠ [] →
  re_sub_lits alts (m ++ rest) = re_sub_lits alts rest.
Proof.
  destruct m as [|c m]; [done|]. intros Hm _. cbn [app] in *.
  simp re_sub_lits. rewrite Hm. simpl. by rewrite drop_app_length.
Qed.

Lemma re_sub_lits_drop_last (m : list N) :
  first_alt alts m = Some m → m ≠ [] → re_sub_lits alts m = [].
Proof.
  intros Hm Hne. pose proof (re_sub_lits_drop m []) as Hdrop.
  rewrite app_nil_r in Hdrop. rewrite Hdrop by done. by simp re_sub_lits.
Qed.

End Unfenced.

Lemma spaces_no_backtick (l : list N) :
  Forall (λ c, py_isspace c = true) l → no_backtick l.
Proof. intros Hl. eapply Forall_impl; [done|]. by intros c Hc ->. Qed.

Lemma no_backtick_no_fence (s : list N) :
  no_backtick s → ∀ a b, s ≠ a ++ fence ++ b.
Proof.
  intros Hs a b ->. apply Forall_app in Hs as [_ Hs].
  apply Forall_app in Hs as [Hs _]. by inversion Hs.
Qed.

(** X4.  Cleaning a cleaned response changes nothing:
    [clean_response(clean_response(text)) == clean_response(text)]. *)
Theorem clean_response_idempotent (text : list N) :
  clean_response (clean_response text) = clean_response text.
Proof.
  assert (Hfence : ∀ a b, clean_response text ≠ a ++ fence ++ b)
    by apply strip_no_fence, re_sub_lits_no_fence, fence_pattern_bare.
  assert (Htight := strip_tight
            (re_sub_lits [fence] (re_sub_lits [fence_html; fence] text))).
  fold (clean_response text) in Htight. destruct Htight as [Hhead Hlast].
  unfold clean_response at 1.
  rewrite (re_sub_lits_id _ (fence_pattern_with (py "html"))) by done.
  rewrite (re_sub_lits_id _ fence_pattern_bare) by done.
  by apply strip_id.
Qed.

(** X5.  A JSON document inside a fenced block is recovered exactly:
    for a body without a backtick, [clean_json] of the body wrapped in
    [```json] and [```], with any whitespace around the block, is the
    body. *)
Theorem clean_json_unwraps_block (before body after : list N) :
  Forall (λ c, py_isspace c = true) before →
  Forall (λ c, py_isspace c = true) after →
  no_backtick body →
  clean_json (before ++ fence_json ++ body ++ fence ++ after) = body.
Proof.
  intros Hbefore Hafter Hbody. unfold clean_json.
  replace (before ++ fence_json ++ body ++ fence ++ after)
    with (before ++ (fence_json ++ body ++ fence) ++ after)
    by by rewrite <- !app_assoc.
  rewrite strip_margins by done.
  rewrite strip_id.
  - pose proof (fence_pattern_with (py "json")) as Hpat.
    rewrite (re_sub_lits_drop _ fence_json)
      by (by cbn [first_alt]; rewrite ?starts_with_prefix).
    rewrite (re_sub_lits_plain _ Hpat) by done.
    rewrite (re_sub_lits_drop_last _ fence) by done.
    apply app_nil_r.
  - by intros c r [= <- _].
  - intros c r Hlast.
    replace (fence_json ++ body ++ fence)
      with ((fence_json ++ body ++ [96; 96]%N) ++ [96%N]) in Hlast
      by by rewrite <- !app_assoc.
    by apply app_inj_tail in Hlast as [_ <-].
Qed.

Lemma clean_json_unwraps_block_witness :
  clean_json (py " " ++ fence_json ++ py "{}" ++ fence ++ py " ") = py "{}".
Proof.
  apply (clean_json_unwraps_block (py " ") (py "{}") (py " ")).
  - by repeat constructor.
  - by repeat constructor.
  - by repeat constructor.
Defined.

(** X6.  HTML inside a fenced block is recovered up to the whitespace
    at its ends: for a body without a backtick, [clean_response] of the
    body wrapped in [```html] and [```], with any whitespace around the
    block, is the stripped body. *)
Theorem clean_response_unwraps_block (before body after : list N) :
  Forall (λ c, py_isspace c = true) before →
  Forall (λ c, py_isspace c = true) after →
  no_backtick body →
  clean_response (before ++ fence_html ++ body ++ fence ++ after) = strip body.
Proof.
  intros Hbefore Hafter Hbody. unfold clean_response.
  pose proof (fence_pattern_with (py "html")) as Hpat.
  rewrite (re_sub_lits_plain _ Hpat) by by apply spaces_no_backtick.
  rewrite (re_sub_lits_drop _ fence_html)
    by (by cbn [first_alt]; rewrite ?starts_with_prefix).
  rewrite (re_sub_lits_plain _ Hpat) by done.
  rewrite (re_sub_lits_drop _ fence); [| |done].
  - replace after with (after ++ []) at 1 by apply app_nil_r.
    rewrite (re_sub_lits_plain _ Hpat) by by apply spaces_no_backtick.
    simp re_sub_lits. rewrite app_nil_r.
    rewrite (re_sub_lits_id _ fence_pattern_bare).
    + by apply strip_margins.
    + apply no_backtick_no_fence.
      apply Forall_app. split; [by apply spaces_no_backtick|].
      apply Forall_app. split; [done | by apply spaces_no_backtick].
  - cbn [first_alt].
    assert (Hhtml : starts_with (fence ++ py "html") (fence ++ after) = false).
    { rewrite starts_with_same_prefix.
      destruct Hafter as [|c after Hc _]; [done|].
      change (py "html") with [104; 116; 109; 108]%N. cbn [starts_with].
      destruct (104 =? c)%N eqn:Heq; [|done].
      apply N.eqb_eq in Heq. by subst c. }
    by rewrite Hhtml, starts_with_prefix.
Qed.

Lemma clean_response_unwraps_block_witness :
  clean_response (py " " ++ fence_html ++ py " <p>x</p> " ++ fence ++ py " ")
  = strip (py " <p>x</p> ").
Proof.
  apply (clean_response_unwraps_block (py " ") (py " <p>x</p> ") (py " ")).
  - by repeat constructor.
  - by repeat constructor.
  - by repeat constructor.
Defined.

(** ** d3_generator.py: prompts and sections *)

Lemma generate_d3_prompt_base (section_text visualization_type : list N) :
  D3Process.generate_d3_prompt section_text visualization_type
  = D3Process.d3_prompt_1 ++ section_text ++ D3Process.d3_prompt_2
    ++ visualization_type ++ D3Process.d3_prompt_3
  ∧ 100 ≤ length (split (D3Process.generate_d3_prompt section_text
                           visualization_type)).
Proof.
  unfold D3Process.generate_d3_prompt.
  set (base := D3Process.d3_prompt_1 ++ _).
  assert (Hlong : 100 ≤ length (split base)).
  { subst base. rewrite !(app_assoc _ _ D3Process.d3_prompt_3).
    etrans; [|apply split_length_app].
    assert (length (split D3Process.d3_prompt_3) = 105) as ->
      by (vm_compute; reflexivity).
    lia. }
  destruct (Z.of_nat (length (split base)) <? 100)%Z eqn:Hshort.
  - apply Z.ltb_lt in Hshort. lia.
  - done.
Qed.

(** X7.  The prompt that [generate_d3_prompt] builds has at least one
    hundred words whatever the section text and the visualization type,
    as its docstring promises: it is the base prompt, to which the
    sentence held in reserve for a short prompt is never appended. *)
Theorem generate_d3_prompt_has_100_words
    (section_text visualization_type : list N) :
  100 ≤ length (split (D3Process.generate_d3_prompt section_text
                         visualization_type)) ∧
  D3Process.generate_d3_prompt section_text visualization_type
  = D3Process.d3_prompt_1 ++ section_text ++ D3Process.d3_prompt_2
    ++ visualization_type ++ D3Process.d3_prompt_3.
Proof.
  destruct (generate_d3_prompt_base section_text visualization_type)
    as [Hbase Hlong].
  by split.
Qed.








(** ** d3_generator.py and generate_interactive_page.py together *)

(** The name of a page holds no ["/"] after its directory. *)
Lemma py_String (c : ascii) (s : string) :
  py (String c s) = N_of_ascii c :: py s.
Proof. done. Qed.

Lemma pretty_N_char_no_slash (d : N) : N_of_ascii (pretty_N_char d) ≠ 47%N.
Proof. unfold pretty_N_char. by repeat case_match. Qed.

Lemma pretty_N_go_no_slash (x : N) (s : string) :
  47%N ∉ py s → 47%N ∉ py (pretty_N_go x s).
Proof.
  revert s. induction (N.lt_wf_0 x) as [x _ IH]; intros s Hs.
  assert (x = 0 ∨ 0 < x)%N as [->|Hx] by lia; [by rewrite pretty_N_go_0|].
  rewrite pretty_N_go_step by done. apply IH; [by apply N.div_lt|].
  rewrite py_String. intros [Heq | Hin]%elem_of_cons; [|done].
  by apply (pretty_N_char_no_slash (x `mod` 10)%N).
Qed.

Lemma pretty_N_no_slash (x : N) : 47%N ∉ py (pretty x).
Proof.
  unfold pretty, pretty_N. case_decide.
  - by intros ?%list_elem_of_singleton.
  - apply pretty_N_go_no_slash. by intros ?%elem_of_nil.
Qed.

Lemma pretty_Z_no_slash (k : Z) : 47%N ∉ py (pretty k).
Proof.
  destruct k as [|p|p]; unfold pretty, pretty_Z.
  - by intros ?%list_elem_of_singleton.
  - apply (pretty_N_no_slash (Npos p)).
  - change ("-" +:+ pretty p)%string with (String "-" (pretty p)).
    rewrite py_String. intros [Heq | Hin]%elem_of_cons; [done|].
    by apply (pretty_N_no_slash (Npos p)).
Qed.

Lemma drop_to_sep_app (a b : list N) :
  47%N ∉ a → drop_to_sep (a ++ 47%N :: b) = b.
Proof.
  induction a as [|c a IH]; intros Ha; simpl; [done|].
  apply not_elem_of_cons in Ha as [Hc Ha].
  destruct (N.eqb_spec c 47); [congruence|]. by apply IH.
Qed.

Lemma dirname_path_join (d name : list N) :
  47%N ∉ name → dirname (path_join d name) = d.
Proof.
  intros Hname. unfold dirname, path_join.
  change (py "/") with [47%N]. rewrite !reverse_app. simpl.
  rewrite <- app_assoc. simpl. rewrite drop_to_sep_app.
  - apply reverse_involutive.
  - by rewrite elem_of_reverse.
Qed.

Lemma dirname_d3_file (k : Z) :
  dirname (InteractivePage.d3_file k) = D3Generator.OUTPUT_DIR.
Proof.
  unfold InteractivePage.d3_file. apply dirname_path_join.
  rewrite !not_elem_of_app. split; [|split].
  - apply (bool_decide_unpack _). vm_compute. exact I.
  - apply pretty_Z_no_slash.
  - apply (bool_decide_unpack _). vm_compute. exact I.
Qed.

Lemma d3_file_not_output_dir (k : Z) :
  D3Generator.OUTPUT_DIR ≠ InteractivePage.d3_file k.
Proof.
  unfold InteractivePage.d3_file, path_join. intros Heq.
  apply (f_equal length) in Heq. rewrite !length_app in Heq.
  change (length D3Generator.OUTPUT_DIR) with (length (py "d3_visualizations")) in Heq.
  simpl in Heq. lia.
Qed.

Lemma save_html_no_fault fault (i : Z) (code : list N) (w : world) :
  (∀ n, fault n = false) →
  files w !! D3Generator.OUTPUT_DIR = Some Dir →
  ∃ w',
    D3Generator.save_html fault i code w = (Returned tt, w')
    ∧ is_Some (files w' !! InteractivePage.d3_file (i + 1))
    ∧ (∀ p, p ≠ InteractivePage.d3_file (i + 1) → files w' !! p = files w !! p)
    ∧ (∀ p, is_Some (files w !! p) → is_Some (files w' !! p)).
Proof.
  intros Hfault Hdir.
  unfold D3Generator.save_html, write_file, open_error. io_unfold.
  change (path_join D3Generator.OUTPUT_DIR
            (py "section_" ++ py (pretty (i + 1)%Z) ++ py ".html"))
    with (InteractivePage.d3_file (i + 1)).
  rewrite dirname_d3_file, Hdir, Hfault.
  rewrite bool_decide_eq_false_2 by done.
  destruct (files w !! InteractivePage.d3_file (i + 1)) as [[content|]|] eqn:Hpath;
    simpl; eexists; (split; [done|]); simpl.
  - rewrite lookup_insert_eq. split; [by eexists|]. split.
    + intros p Hp. by rewrite lookup_insert_ne.
    + intros p Hsome. destruct (decide (p = InteractivePage.d3_file (i + 1))) as [->|Hp].
      * rewrite lookup_insert_eq. by eexists.
      * by rewrite lookup_insert_ne.
  - rewrite Hpath. split; [by eexists|]. done.
  - rewrite lookup_insert_eq. split; [by eexists|]. split.
    + intros p Hp. by rewrite lookup_insert_ne.
    + intros p Hsome. destruct (decide (p = InteractivePage.d3_file (i + 1))) as [->|Hp].
      * rewrite lookup_insert_eq. by eexists.
      * by rewrite lookup_insert_ne.
Qed.

(** Saving the pages of sections [start], [start + 1], ... in turn. *)
Lemma save_html_all fault (codes : list (list N)) :
  (∀ n, fault n = false) →
  ∀ (start : nat) (w : world),
  files w !! D3Generator.OUTPUT_DIR = Some Dir →
  ∃ w',
    io_for (imap (λ i code, (Z.of_nat (start + i), code)) codes)
           (λ task, D3Generator.save_html fault task.1 task.2) w
    = (Returned tt, w')
    ∧ (∀ j, start ≤ j < start + length codes →
            is_Some (files w' !! InteractivePage.d3_file (Z.of_nat j + 1)))
    ∧ (∀ p, (∀ k, p ≠ InteractivePage.d3_file k) → files w' !! p = files w !! p)
    ∧ (∀ p, is_Some (files w !! p) → is_Some (files w' !! p)).
Proof.
  intros Hfault. induction codes as [|code codes IH]; intros start w Hdir.
  { exists w. split; [done|]. split; [simpl; lia | done]. }
  cbn [imap io_for]. unfold mbind, io_mbind.
  rewrite Nat.add_0_r.
  destruct (save_html_no_fault fault (Z.of_nat start) code w Hfault Hdir)
    as (w1 & Hsave & Hthere & Hframe & Hkeep).
  erewrite io_bind_step by exact Hsave.
  rewrite (imap_ext _ (λ i code, (Z.of_nat (S start + i), code)))
    by (intros j x _; simpl; do 2 f_equal; lia).
  assert (Hdir1 : files w1 !! D3Generator.OUTPUT_DIR = Some Dir).
  { rewrite Hframe; [done|]. apply d3_file_not_output_dir. }
  destruct (IH (S start) w1 Hdir1) as (w' & -> & Hall & Hframe' & Hkeep').
  exists w'. split; [done|]. split; [|split].
  - intros j Hj. destruct (decide (j = start)) as [->|Hne].
    + by apply Hkeep'.
    + apply Hall. simpl in Hj. lia.
  - intros p Hp. rewrite Hframe' by done. by apply Hframe.
  - intros p Hsome. by apply Hkeep', Hkeep.
Qed.

(** The loop of the page generator over the D3 files finds them all. *)
Lemma d3_files_found (ks : list Z) (w : world) :
  (∀ k, k ∈ ks → is_Some (files w !! InteractivePage.d3_file k)) →
  io_for ks (λ i, present ← exists_ (InteractivePage.d3_file i);
                  if present : bool then io_ret tt
                  else io_raise (py "FileNotFoundError")) w
  = (Returned tt, w).
Proof.
  induction ks as [|k ks IH]; intros Hks; [done|].
  cbn [io_for]. unfold mbind, io_mbind, io_bind at 1. unfold io_bind at 1.
  unfold exists_ at 1.
  destruct (Hks k) as [node ->]; [by left|].
  apply IH. intros k' Hk'. apply Hks. by right.
Qed.

Lemma d3_file_head (k : Z) : ∃ rest, InteractivePage.d3_file k = 100%N :: rest.
Proof. by eexists. Qed.

Lemma io_try_step {T : Type} (c : io T) (h : list N → io T) w v w' :
  c w = (Returned v, w') → io_try c h w = (Returned v, w').
Proof. intros Hc. unfold io_try. by rewrite Hc. Qed.

(** The page is generated wherever the D3 files are there and the
    system refuses nothing. *)
Lemma generate_interactive_final_page_found
    (fault : nat → bool) (fields : list (list N * json)) (items : list json)
    (w : world) :
  (∀ n, fault n = false) →
  dict_get (py "sections") fields = Some (JList items) →
  (∀ k, k ∈ seqZ 1 (Z.of_nat (length items)) →
        is_Some (files w !! InteractivePage.d3_file k)) →
  (∀ content, files w !! py "templates" ≠ Some (File content)) →
  files w !! InteractivePage.default_output_path ≠ Some Dir →
  ∃ w',
    InteractivePage.generate_interactive_final_page fault (JObj fields)
      InteractivePage.default_output_path w
    = (Returned (Some (InteractivePage.interactive_page_html
                         (Z.of_nat (length items)))), w')
    ∧ files w' !! InteractivePage.default_output_path
      = Some (File (InteractivePage.interactive_page_html
                      (Z.of_nat (length items)))).
Proof.
  intros Hfault Hsections Hfound Htemplates Houtput.
  unfold InteractivePage.generate_interactive_final_page.
  rewrite Hsections. cbn [default py_len]. unfold mbind, io_mbind.
  change (dirname InteractivePage.default_output_path) with (py "templates").
  assert (Hbody : ∃ w',
    io_bind (io_ret (JList items)) (λ sections,
      io_bind (io_ret (Z.of_nat (length items))) (λ total_sections,
        io_bind
          (io_for (seqZ 1 total_sections)
             (λ i, io_bind (exists_ (InteractivePage.d3_file i))
                     (λ present : bool,
                        if present then io_ret tt
                        else io_raise (py "FileNotFoundError"))))
          (λ _, io_bind (makedirs fault (py "templates"))
                  (λ _, io_bind
                          (write_file fault InteractivePage.default_output_path
                             (InteractivePage.interactive_page_html total_sections))
                          (λ _, io_ret (Some (InteractivePage.interactive_page_html
                                                total_sections))))))) w
    = (Returned (Some (InteractivePage.interactive_page_html
                         (Z.of_nat (length items)))), w')
    ∧ files w' !! InteractivePage.default_output_path
      = Some (File (InteractivePage.interactive_page_html
                      (Z.of_nat (length items))))).
  { erewrite io_bind_step by reflexivity.
    erewrite io_bind_step by reflexivity.
    erewrite io_bind_step by (by apply d3_files_found).
    unfold io_bind, makedirs, write_file, open_error, io_ret. rewrite !Hfault.
    change (dirname InteractivePage.default_output_path) with (py "templates").
    rewrite (bool_decide_eq_false_2 (py "templates" = [])) by done.
    destruct (files w !! py "templates") as [[content|]|] eqn:Hdir.
    - by destruct (Htemplates content).
    - cbn [files log]. rewrite Hdir, Hfault.
      destruct (files w !! InteractivePage.default_output_path) as [[c|]|];
        try done; simpl; eexists; (split; [done|]); simpl;
        by rewrite lookup_insert_eq.
    - cbn [bool_decide orb files log].
      rewrite (lookup_insert_ne _ (py "templates")
                 InteractivePage.default_output_path) by done.
      rewrite lookup_insert_eq, Hfault.
      destruct (files w !! InteractivePage.default_output_path) as [[c|]|];
        try done; simpl; eexists; (split; [done|]); simpl;
        by rewrite lookup_insert_eq. }
  destruct Hbody as (w' & Hrun & Hfile). exists w'. split; [|done].
  by apply io_try_step.
Qed.

(** X9.  The D3 generator and the page generator agree on the names of
    the files: where the directory [d3_visualizations] exists, as the
    module creates it when it is loaded, once [save_html] has saved the
    pages of sections [0 .. n-1], and the system refuses nothing, the
    page generator run on a script of [n] sections finds every page of
    the sections [1 .. n], returns the interactive page and leaves it
    written at [templates/interactive_page.html]. *)
Theorem saved_pages_are_found
    (fault : nat → bool) (codes : list (list N))
    (fields : list (list N * json)) (items : list json) (w : world) :
  (∀ n, fault n = false) →
  files w !! D3Generator.OUTPUT_DIR = Some Dir →
  dict_get (py "sections") fields = Some (JList items) →
  length items = length codes →
  (∀ content, files w !! py "templates" ≠ Some (File content)) →
  files w !! InteractivePage.default_output_path ≠ Some Dir →
  let saved :=
    io_for (imap (λ i code, (Z.of_nat i, code)) codes)
           (λ task, D3Generator.save_html fault task.1 task.2) w in
  let run :=
    InteractivePage.generate_interactive_final_page fault (JObj fields)
      InteractivePage.default_output_path saved.2 in
  saved.1 = Returned tt ∧
  run.1 = Returned (Some (InteractivePage.interactive_page_html
                            (Z.of_nat (length items)))) ∧
  files run.2 !! InteractivePage.default_output_path
  = Some (File (InteractivePage.interactive_page_html
                  (Z.of_nat (length items)))).
Proof.
  intros Hfault Hdir Hsections Hlen Htemplates Houtput saved run.
  destruct (save_html_all fault codes Hfault 0 w Hdir)
    as (w1 & Hsaved & Hthere & Hframe & _).
  simpl in Hsaved. subst run saved. rewrite Hsaved. simpl.
  assert (Hapart : ∀ p, (∃ c rest, p = c :: rest ∧ c ≠ 100%N) →
                        ∀ k, p ≠ InteractivePage.d3_file k).
  { intros p (c & rest & -> & Hc) k. destruct (d3_file_head k) as (tl & ->).
    congruence. }
  destruct (generate_interactive_final_page_found fault fields items w1)
    as (w' & -> & Hfile); try done.
  - intros k Hk. apply elem_of_seqZ in Hk.
    replace k with (Z.of_nat (Z.to_nat (k - 1)) + 1)%Z by lia.
    apply Hthere. lia.
  - intros content. rewrite Hframe; [done|].
    apply Hapart. by exists 116%N, (py "emplates").
  - rewrite Hframe; [done|]. apply Hapart.
    by exists 116%N, (py "emplates/interactive_page.html").
Qed.

Lemma saved_pages_are_found_witness :
  let saved :=
    io_for (imap (λ i code, (Z.of_nat i, code))
                 [py "<html>1</html>"; py "<html>2</html>"])
           (λ task, D3Generator.save_html no_fault task.1 task.2)
           world_d3_directory in
  let run :=
    InteractivePage.generate_interactive_final_page no_fault script_newton
      InteractivePage.default_output_path saved.2 in
  saved.1 = Returned tt ∧
  run.1 = Returned (Some (InteractivePage.interactive_page_html 2)) ∧
  files run.2 !! InteractivePage.default_output_path
  = Some (File (InteractivePage.interactive_page_html 2)).
Proof.
  apply (saved_pages_are_found no_fault
           [py "<html>1</html>"; py "<html>2</html>"]
           [ (py "title", JStr (py "Laws of motion"));
             (py "sections",
              JList [ JObj [(py "text", JStr (py "Inertia"))];
                      JObj [(py "text", JStr (py "Force"))] ]) ]
           [ JObj [(py "text", JStr (py "Inertia"))];
             JObj [(py "text", JStr (py "Force"))] ]
           world_d3_directory).
  - done.
  - reflexivity.
  - reflexivity.
  - reflexivity.
  - done.
  - done.
Defined.

(** ** text_to_speech.py, continued *)

(** What a call of [generate_audio] that returns a path has done. *)
Lemma generate_audio_some
    (fault : nat → bool) (gtts : list N → tts_result)
    (text : list N) (section_index : Z) (w w' : world) (path : list N) :
  generate_audio fault gtts text section_index w = (Returned (Some path), w') →
  path = audio_section_path section_index ∧
  strip text ≠ [] ∧
  ((is_Some (files w !! path) ∧ w' = w)
   ∨ (files w !! path = None ∧
      ∃ content, gtts text = TtsSaved content ∧ 1000 ≤ length content ∧
                 w' = World (<[path := File content]> (files w))
                            (log w ++ [SysTtsSave path true]))).
Proof.
  unfold generate_audio. case_bool_decide as Hblank; [done|].
  io_unfold. unfold tts_save, remove. simpl.
  destruct (files w !! audio_section_path section_index) as [present|] eqn:Hpath.
  { simpl. intros [= <- <-]. split; [done|]. split; [done|]. left.
    rewrite Hpath. split; [by eexists | done]. }
  simpl.
  destruct (gtts text) as [exc [partial|] | content]; fs_simpl.
  - destruct (fault _); fs_simpl; by intros [=].
  - rewrite Hpath. by intros [=].
  - match goal with
    | |- context [if ?c then _ else _] => destruct c eqn:Hsmall
    end; fs_simpl.
    + destruct (fault _); fs_simpl; by intros [=].
    + intros [= <- <-]. split; [done|]. split; [done|]. right.
      rewrite Hpath. split; [done|]. exists content.
      apply Z.ltb_ge in Hsmall. split; [done|]. split; [lia | done].
Qed.

(** X10.  A path that [generate_audio] returns is the path of the
    section's audio file, and the file is there: either it was there
    before the call, which then did nothing at all, or the synthesis was
    run once and saved at least 1000 bytes there, and nothing else
    changed. *)
Theorem generate_audio_returns_file
    (fault : nat → bool) (gtts : list N → tts_result)
    (text : list N) (section_index : Z) (w w' : world) (result : list N) :
  generate_audio fault gtts text section_index w
  = (Returned (Some result), w') →
  let path := audio_section_path section_index in
  result = path ∧
  is_Some (files w' !! path) ∧
  ((is_Some (files w !! path) ∧ w' = w)
   ∨ (files w !! path = None ∧
      ∃ content, gtts text = TtsSaved content ∧ 1000 ≤ length content ∧
                 files w' = <[path := File content]> (files w) ∧
                 log w' = log w ++ [SysTtsSave path true])).
Proof.
  intros Hrun path. subst path.
  apply generate_audio_some in Hrun as (-> & _ & Hcases).
  split; [done|].
  destruct Hcases as [[Hthere ->] | (Hnone & content & Hsaved & Hlen & ->)].
  - split; [done|]. by left.
  - simpl. rewrite lookup_insert_eq. split; [by eexists|]. right.
    split; [done|]. by exists content.
Qed.

Lemma generate_audio_returns_file_witness :
  let w' := World (<[audio_section_path 0 := File (replicate 1000 0%N)]> ∅)
                  [SysTtsSave (audio_section_path 0) true] in
  let path := audio_section_path 0 in
  audio_section_path 0 = path ∧
  is_Some (files w' !! path) ∧
  ((is_Some (files (World ∅ []) !! path) ∧ w' = World ∅ [])
   ∨ (files (World ∅ []) !! path = None ∧
      ∃ content, TtsSaved (replicate 1000 0%N) = TtsSaved content ∧
                 1000 ≤ length content ∧
                 files w' = <[path := File content]> (files (World ∅ [])) ∧
                 log w' = log (World ∅ []) ++ [SysTtsSave path true])).
Proof.
  apply (generate_audio_returns_file no_fault
           (λ _, TtsSaved (replicate 1000 0%N)) (py "Inertia") 0 (World ∅ [])).
  vm_compute. reflexivity.
Defined.

(** X11.  Audio is generated once per section: after a call of
    [generate_audio] that returned a path, a later call for the same
    section returns the same path and does nothing, not even when its
    text is another one, as long as the text is not blank. *)
Theorem generate_audio_reuses_file
    (fault fault' : nat → bool) (gtts gtts' : list N → tts_result)
    (text text' : list N) (section_index : Z) (w w' : world) (path : list N) :
  generate_audio fault gtts text section_index w = (Returned (Some path), w') →
  strip text' ≠ [] →
  generate_audio fault' gtts' text' section_index w' = (Returned (Some path), w').
Proof.
  intros Hfirst Hblank.
  apply generate_audio_some in Hfirst as (-> & _ & Hcases).
  assert (Hthere : is_Some (files w' !! audio_section_path section_index)).
  { destruct Hcases as [[Hthere ->] | (_ & content & _ & _ & ->)]; [done|].
    simpl. rewrite lookup_insert_eq. by eexists. }
  destruct Hthere as [node Hnode].
  unfold generate_audio. rewrite bool_decide_eq_false_2 by done.
  io_unfold. simpl. by rewrite Hnode.
Qed.

Lemma generate_audio_reuses_file_witness :
  generate_audio no_fault (λ _, TtsSaved (replicate 1000 0%N))
    (py "Cells divide.") 0
    (World (<[audio_section_path 0 := File (replicate 1000 0%N)]> ∅)
           [SysTtsSave (audio_section_path 0) true])
  = (Returned (Some (audio_section_path 0)),
     World (<[audio_section_path 0 := File (replicate 1000 0%N)]> ∅)
           [SysTtsSave (audio_section_path 0) true]).
Proof.
  apply (generate_audio_reuses_file no_fault no_fault
           (λ _, TtsSaved (replicate 1000 0%N))
           (λ _, TtsSaved (replicate 1000 0%N))
           (py "Inertia") (py "Cells divide.") 0 (World ∅ [])).
  - vm_compute. reflexivity.
  - vm_compute. discriminate.
Defined.

(** ** Master.py: what the cleanup leaves alone *)

Section OnlyTouches.
Context {T U : Type} (may : list N → bool).

Lemma only_touches_ret (v : T) : only_touches may (io_ret v).
Proof. by intros w p _. Qed.

Lemma only_touches_raise exc : only_touches may (@io_raise T exc).
Proof. by intros w p _. Qed.

Lemma only_touches_bind (c : io T) (k : T → io U) :
  only_touches may c → (∀ v, only_touches may (k v)) →
  only_touches may (io_bind c k).
Proof.
  intros Hc Hk w p Hp. unfold io_bind. specialize (Hc w p Hp).
  destruct (c w) as [[v|exc] w1]; simpl in *; [|done].
  by rewrite (Hk v w1 p Hp).
Qed.

Lemma only_touches_try (c : io T) (h : list N → io T) :
  only_touches may c → (∀ exc, only_touches may (h exc)) →
  only_touches may (io_try c h).
Proof.
  intros Hc Hh w p Hp. unfold io_try. specialize (Hc w p Hp).
  destruct (c w) as [[v|exc] w1]; simpl in *; [done|].
  by rewrite (Hh exc w1 p Hp).
Qed.

Lemma only_touches_exists path : only_touches may (exists_ path).
Proof. by intros w p _. Qed.

Lemma only_touches_emit ev : only_touches may (emit ev).
Proof. by intros w p _. Qed.

Lemma only_touches_rmtree fault lost d :
  (∀ p, inside d p = true → may p = true) →
  only_touches may (rmtree fault lost d).
Proof.
  intros Hmay w p Hp.
  assert (Hout : inside d p = false).
  { destruct (inside d p) eqn:Hin; [|done]. apply Hmay in Hin. congruence. }
  destruct (rmtree_cases fault lost d w) as [-> | (exc & w1 & -> & _ & Hkeep & _)].
  - simpl. by rewrite pruned_lookup, Hout.
  - simpl. apply Hkeep. destruct (under d p) eqn:Hunder; [|done].
    apply under_inside in Hunder. congruence.
Qed.

Lemma only_touches_makedirs fault d :
  may d = true → only_touches may (makedirs fault d).
Proof.
  intros Hmay w p Hp. unfold makedirs.
  repeat case_match; simpl; try done.
  apply lookup_insert_ne. intros ->. congruence.
Qed.

Lemma only_touches_remove fault f :
  may f = true → only_touches may (remove fault f).
Proof.
  intros Hmay w p Hp. unfold remove.
  repeat case_match; simpl; try done.
  apply lookup_delete_ne. intros ->. congruence.
Qed.

End OnlyTouches.

Lemma only_touches_for {T : Type} may (xs : list T) (body : T → io unit) :
  (∀ x, x ∈ xs → only_touches may (body x)) → only_touches may (io_for xs body).
Proof.
  induction xs as [|x xs IH]; intros Hbody; simpl; [apply only_touches_ret|].
  apply only_touches_bind; [apply Hbody; by left|].
  intros _. apply IH. intros y Hy. apply Hbody. by right.
Qed.

Lemma retry_rmtree_touches may fault lost d attempts :
  (∀ p, inside d p = true → may p = true) →
  only_touches may (retry_rmtree fault lost d attempts).
Proof.
  intros Hmay. induction attempts as [|k IH]; simpl; [apply only_touches_ret|].
  apply only_touches_bind.
  - apply only_touches_try.
    + apply only_touches_bind; [by apply only_touches_rmtree|].
      intros _. apply only_touches_ret.
    + intros _. apply only_touches_bind; [apply only_touches_emit|].
      intros _. apply only_touches_ret.
  - intros []; [apply only_touches_ret | done].
Qed.

Lemma clear_directory_touches may fault lost d :
  (∀ p, inside d p = true → may p = true) →
  only_touches may (clear_directory fault lost d).
Proof.
  intros Hmay. unfold clear_directory.
  apply only_touches_bind; [apply only_touches_exists|]. intros present.
  apply only_touches_bind.
  - destruct present; [by apply retry_rmtree_touches | apply only_touches_ret].
  - intros _. apply only_touches_makedirs, Hmay, inside_self.
Qed.

Lemma clear_file_touches may fault f :
  may f = true → only_touches may (clear_file fault f).
Proof.
  intros Hmay. unfold clear_file.
  apply only_touches_bind; [apply only_touches_exists|]. intros [].
  - apply only_touches_try; [by apply only_touches_remove|].
    intros _. apply only_touches_ret.
  - apply only_touches_ret.
Qed.

Lemma cleanup_previous_run_touches fault lost :
  only_touches cleanup_scope (cleanup_previous_run fault lost).
Proof.
  unfold cleanup_previous_run. apply only_touches_bind.
  - apply only_touches_for. intros d Hd. apply clear_directory_touches.
    intros p Hp. unfold cleanup_scope. apply orb_true_iff. left.
    apply existsb_exists. exists d. split; [by apply list_elem_of_In | done].
  - intros _. apply only_touches_for. intros f Hf. apply clear_file_touches.
    unfold cleanup_scope. apply orb_true_iff. right.
    by apply bool_decide_eq_true_2.
Qed.

(** X12.  [cleanup_previous_run] touches nothing but the four listed
    directories, what lies under them, and the three listed files:
    every other path is after the call as it was before, whether the
    call returns or raises.  The interactive page, which is written to
    [templates/interactive_page.html], is such a path: the cleanup lists
    [interactive_page.html] and leaves the page of the previous run in
    place. *)
Theorem cleanup_previous_run_frame
    (fault : nat → bool) (lost : nat → list N → bool) (w : world) (p : list N) :
  (∀ d, d ∈ dirs_to_clear → inside d p = false) →
  p ∉ files_to_clear →
  files (cleanup_previous_run fault lost w).2 !! p = files w !! p.
Proof.
  intros Hdirs Hfiles. apply cleanup_previous_run_touches.
  unfold cleanup_scope. apply orb_false_iff. split.
  - apply not_true_is_false. intros (d & Hd & Hin)%existsb_exists.
    apply list_elem_of_In in Hd. rewrite (Hdirs d Hd) in Hin. done.
  - by apply bool_decide_eq_false_2.
Qed.

Lemma cleanup_previous_run_frame_witness :
  files (cleanup_previous_run no_fault nothing_lost
           (World (<[InteractivePage.default_output_path :=
                       File (InteractivePage.interactive_page_html 2)]>
                     (files world_previous_run)) [])).2
    !! InteractivePage.default_output_path
  = Some (File (InteractivePage.interactive_page_html 2)).
Proof.
  rewrite (cleanup_previous_run_frame no_fault nothing_lost _
             InteractivePage.default_output_path).
  - simpl. by rewrite lookup_insert_eq.
  - intros d Hd. repeat (apply elem_of_cons in Hd as [-> | Hd]);
      [reflexivity .. | by apply elem_of_nil in Hd].
  - intros Hin. repeat (apply elem_of_cons in Hin as [[=] | Hin]).
    by apply elem_of_nil in Hin.
Defined.

(** A listed directory that is a regular file stops the cleanup: the
    three removals fail and [os.makedirs] raises. *)
Lemma clear_directory_on_file
    (fault : nat → bool) (lost : nat → list N → bool) (d content : list N)
    (w : world) :
  files w !! d = Some (File content) →
  ∃ w', clear_directory fault lost d w = (Raised (py "FileExistsError"), w').
Proof.
  intros Hfile. unfold clear_directory, mbind, io_mbind.
  erewrite io_bind_step by (unfold exists_; rewrite Hfile; reflexivity).
  assert (Hretry : ∀ k w0, files w0 !! d = Some (File content) →
            ∃ w1, retry_rmtree fault lost d k w0 = (Returned tt, w1)
                  ∧ files w1 !! d = Some (File content)).
  { induction k as [|k IH]; intros w0 Hw0; [by exists w0|].
    rewrite retry_rmtree_S. unfold rmtree at 1. rewrite Hw0.
    apply IH. done. }
  destruct (Hretry 3 w Hfile) as (w1 & Hrun & Hw1).
  erewrite io_bind_step by exact Hrun.
  unfold makedirs. rewrite Hw1. by eexists.
Qed.

Lemma clear_directories_on_file
    (fault : nat → bool) (lost : nat → list N → bool)
    (ds : list (list N)) (d content : list N) :
  separated ds → d ∈ ds →
  ∀ w, files w !! d = Some (File content) →
  ∃ exc w', io_for ds (clear_directory fault lost) w = (Raised exc, w').
Proof.
  intros Hsep. induction ds as [|d0 ds IH]; intros Hd w Hfile.
  { by apply elem_of_nil in Hd. }
  assert (Hsep' : separated ds).
  { intros a b p Ha Hb. apply Hsep; by right. }
  cbn [io_for]. unfold mbind, io_mbind.
  destruct (decide (d0 = d)) as [->|Hne].
  { destruct (clear_directory_on_file fault lost d content w Hfile) as (w' & Hrun).
    unfold io_bind. rewrite Hrun. by eexists _, _. }
  apply elem_of_cons in Hd as [-> | Hd]; [done|].
  unfold io_bind.
  destruct (clear_directory fault lost d0 w) as [[[]|exc] w1] eqn:Hstep;
    [|by eexists _, _].
  apply clear_directory_spec in Hstep as (_ & _ & _ & Hframe & _).
  apply (IH Hsep' Hd). rewrite Hframe; [done|].
  apply (Hsep d d0 d); [by right | by left | done | apply inside_self].
Qed.

(** X13.  When one of the four listed directories is a regular file,
    [cleanup_previous_run] does not return: it raises, and the run
    stops before a script is asked for. *)
Theorem cleanup_previous_run_raises_on_file
    (fault : nat → bool) (lost : nat → list N → bool)
    (d content : list N) (w : world) :
  d ∈ dirs_to_clear →
  files w !! d = Some (File content) →
  ∃ exc, (cleanup_previous_run fault lost w).1 = Raised exc.
Proof.
  intros Hd Hfile. unfold cleanup_previous_run, mbind, io_mbind, io_bind.
  destruct (clear_directories_on_file fault lost dirs_to_clear d content
              dirs_to_clear_separated Hd w Hfile) as (exc & w' & ->).
  by exists exc.
Qed.

Lemma cleanup_previous_run_raises_on_file_witness :
  ∃ exc,
    (cleanup_previous_run no_fault nothing_lost
       (World (<[py "temp_files" := File (py "notes")]> ∅) [])).1
    = Raised exc.
Proof.
  apply (cleanup_previous_run_raises_on_file no_fault nothing_lost
           (py "temp_files") (py "notes")).
  - unfold dirs_to_clear. do 3 right. left.
  - simpl. by rewrite lookup_insert_eq.
Defined.

(** ** generate_interactive_page.py, continued *)

Lemma d3_files_missing (ks : list Z) (k : Z) (w : world) :
  k ∈ ks → files w !! InteractivePage.d3_file k = None →
  io_for ks (λ i, present ← exists_ (InteractivePage.d3_file i);
                  if present : bool then io_ret tt
                  else io_raise (py "FileNotFoundError")) w
  = (Raised (py "FileNotFoundError"), w).
Proof.
  intros Hk Hmissing. induction ks as [|k0 ks IH]; [by apply elem_of_nil in Hk|].
  cbn [io_for]. unfold mbind, io_mbind, io_bind at 1. unfold io_bind at 1.
  unfold exists_ at 1.
  destruct (files w !! InteractivePage.d3_file k0) as [node|] eqn:Hk0; [|done].
  apply IH. apply elem_of_cons in Hk as [-> | Hk]; [congruence | done].
Qed.

(** X14.  The page generator writes all or nothing: when the page of
    one of the sections [1 .. n] is missing from [d3_visualizations], it
    returns [None] and has created no directory and written no file,
    wherever the page was to go. *)
Theorem interactive_page_needs_every_d3_file
    (fault : nat → bool) (fields : list (list N * json)) (items : list json)
    (output_path : list N) (k : Z) (w : world) :
  dict_get (py "sections") fields = Some (JList items) →
  (1 <= k <= Z.of_nat (length items))%Z →
  files w !! InteractivePage.d3_file k = None →
  InteractivePage.generate_interactive_final_page fault (JObj fields)
    output_path w
  = (Returned None, w).
Proof.
  intros Hsections Hk Hmissing.
  unfold InteractivePage.generate_interactive_final_page.
  rewrite Hsections. cbn [default py_len]. unfold mbind, io_mbind.
  unfold io_try.
  erewrite io_bind_step by reflexivity.
  erewrite io_bind_step by reflexivity.
  unfold io_bind at 1.
  rewrite (d3_files_missing _ k); [done | | done].
  apply elem_of_seqZ. lia.
Qed.

Lemma interactive_page_needs_every_d3_file_witness :
  InteractivePage.generate_interactive_final_page no_fault
    (JObj [(py "sections", JList [JNull; JNull; JNull])])
    InteractivePage.default_output_path world_two_pages
  = (Returned None, world_two_pages).
Proof.
  apply (interactive_page_needs_every_d3_file no_fault
           [(py "sections", JList [JNull; JNull; JNull])]
           [JNull; JNull; JNull] InteractivePage.default_output_path 3).
  - reflexivity.
  - simpl. lia.
  - vm_compute. reflexivity.
Defined.

(** ** generate_video.py, continued *)

Lemma load_clips_idempotent env (paths : list (list N)) :
  load_clips env (load_clips env paths) = load_clips env paths.
Proof.
  unfold load_clips. induction paths as [|p paths IH]; [done|]. simpl.
  destruct (valid_clip env p) eqn:Hp; [|done]. simpl. by rewrite Hp, IH.
Qed.

Lemma concatenate_videos_strings env (paths : list (list N)) output_path :
  Local.concatenate_videos env (JList (JStr <$> paths)) output_path
  = Returned (match load_clips env paths with
              | [] => false
              | clips => write_videofile env clips output_path
              end).
Proof.
  unfold Local.concatenate_videos.
  assert (Htruthy : truthy (JList (JStr <$> paths))
                    = negb (bool_decide (paths = [])))
    by (by destruct paths).
  rewrite Htruthy. destruct paths as [|p paths]; [done|].
  cbn [bool_decide negb decide_rel iter_json].
  rewrite forallb_is_str_strings, omap_as_str_strings. cbn [negb].
  destruct (load_clips env (p :: paths)); [done|].
  by destruct (write_videofile env _ _).
Qed.

(** X15.  [concatenate_videos] works on the valid clips of its list
    and on nothing else: a list of paths gives the result that the list
    of its valid clips gives, in the same order; the result is [True]
    exactly when there is a valid clip and the valid clips were written;
    and a clip is valid exactly when its file exists and
    [validate_video_file] accepts it. *)
Theorem concatenate_videos_uses_valid_clips
    (env : media) (paths : list (list N)) (output_path : list N) :
  Local.concatenate_videos env (JList (JStr <$> paths)) output_path
  = Local.concatenate_videos env (JList (JStr <$> load_clips env paths))
      output_path ∧
  (Local.concatenate_videos env (JList (JStr <$> paths)) output_path
   = Returned true ↔
   load_clips env paths ≠ [] ∧
   write_videofile env (load_clips env paths) output_path = true) ∧
  (∀ p, p ∈ load_clips env paths ↔
        p ∈ paths ∧ path_exists env p = true
        ∧ validate_video_file env p = true).
Proof.
  split; [|split].
  - by rewrite !concatenate_videos_strings, load_clips_idempotent.
  - rewrite concatenate_videos_strings.
    destruct (load_clips env paths) as [|c clips]; [by split; [|intros []]|].
    split; [by intros [= ->] | by intros [_ ->]].
  - intros p. unfold load_clips. rewrite list_elem_of_In, filter_In.
    rewrite <- list_elem_of_In. unfold valid_clip, validate_video_file.
    rewrite andb_true_iff. done.
Qed.

(** ** Master.py: the order of the sections in the complete video *)

Lemma str_leb_refl (a : list N) : str_leb a a = true.
Proof.
  induction a as [|x a IH]; [done|]. simpl.
  by rewrite N.ltb_irrefl, N.eqb_refl.
Qed.

Lemma str_leb_total (a b : list N) : str_leb a b = true ∨ str_leb b a = true.
Proof.
  revert b. induction a as [|x a IH]; intros [|y b]; simpl; auto.
  destruct (N.ltb_spec x y) as [Hxy|Hxy]; [by left|].
  destruct (N.ltb_spec y x) as [Hyx|Hyx]; [by right|].
  assert (x = y) as -> by lia. rewrite N.eqb_refl. apply IH.
Qed.

Lemma str_leb_antisym (a b : list N) :
  str_leb a b = true → str_leb b a = true → a = b.
Proof.
  revert b. induction a as [|x a IH]; intros [|y b]; simpl; try done.
  destruct (N.ltb_spec x y) as [Hxy|Hxy].
  - destruct (N.ltb_spec y x) as [Hyx|Hyx]; [lia|].
    destruct (N.eqb_spec y x) as [->|Hne]; [lia | done].
  - destruct (N.eqb_spec x y) as [->|Hne]; [|done].
    rewrite N.ltb_irrefl, N.eqb_refl. intros Hab Hba. f_equal. by apply IH.
Qed.

Lemma str_leb_trans (a b c : list N) :
  str_leb a b = true → str_leb b c = true → str_leb a c = true.
Proof.
  revert b c. induction a as [|x a IH]; intros [|y b] [|z c]; simpl; try done.
  destruct (N.ltb_spec x y) as [Hxy|Hxy].
  - intros _. destruct (N.ltb_spec y z) as [Hyz|Hyz].
    + intros _. destruct (N.ltb_spec x z); [done | lia].
    + destruct (N.eqb_spec y z) as [->|Hne]; [|done]. intros _.
      destruct (N.ltb_spec x z); [done | lia].
  - destruct (N.eqb_spec x y) as [->|Hne]; [|done]. intros Hab.
    destruct (N.ltb_spec y z) as [Hyz|Hyz]; [done|].
    destruct (N.eqb_spec y z) as [->|Hne]; [|done]. by apply IH.
Qed.

Lemma str_leb_false (a b : list N) : str_leb a b = false → str_leb b a = true.
Proof. intros Hab. destruct (str_leb_total a b); congruence. Qed.

(** Two insertions commute. *)
Lemma insert_sorted_comm (x y : list N) (l : list (list N)) :
  insert_sorted x (insert_sorted y l) = insert_sorted y (insert_sorted x l).
Proof.
  assert (Hpair : ∀ a b rest,
    (if str_leb a b then a :: b :: rest else b :: a :: rest)
    = (if str_leb b a then b :: a :: rest else a :: b :: rest)).
  { intros a b rest. destruct (str_leb a b) eqn:Hab, (str_leb b a) eqn:Hba;
      try done.
    - by rewrite (str_leb_antisym a b).
    - apply str_leb_false in Hab. congruence. }
  induction l as [|z l IH]; simpl.
  { destruct (str_leb x y) eqn:Hxy, (str_leb y x) eqn:Hyx; try done.
    - by rewrite (str_leb_antisym x y).
    - apply str_leb_false in Hxy. congruence. }
  destruct (str_leb y z) eqn:Hyz, (str_leb x z) eqn:Hxz; simpl;
    rewrite ?Hyz, ?Hxz.
  - apply Hpair.
  - destruct (str_leb x y) eqn:Hxy.
    + by rewrite (str_leb_trans x y z) in Hxz.
    + done.
  - destruct (str_leb y x) eqn:Hyx.
    + by rewrite (str_leb_trans y x z) in Hyz.
    + done.
  - by rewrite IH.
Qed.

(** [sorted] does not depend on the order of what it is given. *)
Lemma sorted_Permutation (l l' : list (list N)) :
  l ≡ₚ l' → sorted l = sorted l'.
Proof.
  unfold sorted. induction 1 as [|x l l' _ IH|x y l|l l' l'' _ IH1 _ IH2].
  - done.
  - simpl. by rewrite IH.
  - simpl. apply insert_sorted_comm.
  - by rewrite IH1.
Qed.

Lemma insert_sorted_Permutation (x : list N) (l : list (list N)) :
  insert_sorted x l ≡ₚ x :: l.
Proof.
  induction l as [|y l IH]; simpl; [done|].
  destruct (str_leb x y); [done|]. rewrite IH. apply Permutation_swap.
Qed.

Lemma sorted_is_Permutation (l : list (list N)) : sorted l ≡ₚ l.
Proof.
  unfold sorted. induction l as [|x l IH]; simpl; [done|].
  by rewrite insert_sorted_Permutation, IH.
Qed.

Lemma insert_sorted_Sorted (x : list N) (l : list (list N)) :
  StronglySorted (λ a b, str_leb a b = true) l →
  StronglySorted (λ a b, str_leb a b = true) (insert_sorted x l).
Proof.
  induction 1 as [|y l Hl IH Hy]; simpl; [by repeat constructor|].
  destruct (str_leb x y) eqn:Hxy.
  - constructor; [by constructor|]. constructor; [done|].
    eapply Forall_impl; [exact Hy|]. intros z Hz. by eapply str_leb_trans.
  - constructor; [done|].
    rewrite insert_sorted_Permutation. constructor; [|done].
    by apply str_leb_false.
Qed.

Lemma sorted_Sorted (l : list (list N)) :
  StronglySorted (λ a b, str_leb a b = true) (sorted l).
Proof.
  unfold sorted. induction l as [|x l IH]; simpl; [constructor|].
  by apply insert_sorted_Sorted.
Qed.

Lemma io_bind_ext {T U : Type} (c : io T) (k k' : T → io U) w :
  (∀ v w', k v w' = k' v w') → io_bind c k w = io_bind c k' w.
Proof. intros Hk. unfold io_bind. by destruct (c w) as [[v|exc] w']. Qed.

(** X16.  The complete video does not depend on the order in which the
    sections finish: whatever the order in which [as_completed] yields
    the futures, [generate_final_outputs] passes the same list of
    videos, sorted by path, to [concatenate_videos], returns the same
    result and leaves the same world. *)
Theorem generate_final_outputs_order_independent
    (fault : nat → bool) (env : media)
    (result : Z → json → option (list N))
    (order order' : list (Z * json) → list (Z * json))
    (script : json) (w : world) :
  (∀ tasks, order tasks ≡ₚ tasks) →
  (∀ tasks, order' tasks ≡ₚ tasks) →
  generate_final_outputs (Pipeline fault env result order) script w
  = generate_final_outputs (Pipeline fault env result order') script w.
Proof.
  intros Horder Horder'. unfold generate_final_outputs.
  cbn [pl_fault pl_media section_result completion_order].
  unfold mbind, io_mbind.
  do 6 (apply io_bind_ext; intros ? ?). cbv zeta.
  match goal with
  | |- context [order (enumerate ?items)] =>
      assert (Hperm : omap (λ task : Z * json, result task.1 task.2)
                           (order (enumerate items))
                      ≡ₚ omap (λ task : Z * json, result task.1 task.2)
                              (order' (enumerate items)))
        by (apply omap_Permutation; by rewrite Horder, Horder');
      destruct (omap _ (order (enumerate items))) as [|p ps];
      destruct (omap _ (order' (enumerate items))) as [|p' ps']
  end.
  - done.
  - by apply Permutation_nil_cons in Hperm.
  - symmetry in Hperm. by apply Permutation_nil_cons in Hperm.
  - by rewrite (sorted_Permutation _ _ Hperm).
Qed.

Lemma generate_final_outputs_order_independent_witness :
  generate_final_outputs
    (Pipeline no_fault media_ok (section_result pipeline_ok) (λ tasks, tasks))
    script_newton world_two_pages
  = generate_final_outputs
      (Pipeline no_fault media_ok (section_result pipeline_ok) reverse)
      script_newton world_two_pages.
Proof.
  apply (generate_final_outputs_order_independent no_fault media_ok
           (section_result pipeline_ok) (λ tasks, tasks) reverse).
  - done.
  - intros tasks. apply reverse_Permutation.
Defined.

(** ** main.py: starting a generation, and the time left *)

(** X17.  [POST /generate] starts a simulation only when none is in
    progress, and then answers 200; the topic it hands to the
    simulation is the posted topic stripped, and it is not empty and
    has no whitespace at either end.  With a blank or missing topic it
    answers 400, and with a topic while a simulation is in progress it
    answers 429, starting nothing in either case. *)
Theorem generate_starts_one_simulation
    (request_json : outcome json) (g : status)
    (resp : CloudRun.response) (started : option (list N)) :
  WebUI.generate request_json g = Returned (resp, started) →
  ∃ fields s,
    request_json = Returned (JObj fields) ∧
    default (JStr []) (dict_get (py "topic") fields) = JStr s ∧
    match started with
    | Some topic =>
        CloudRun.code resp = 200%Z ∧ in_progress g = false ∧
        topic = strip s ∧ topic ≠ [] ∧
        (∀ c r, topic = c :: r ∨ topic = r ++ [c] → py_isspace c = false)
    | None =>
        (CloudRun.code resp = 400%Z ∧ strip s = [])
        ∨ (CloudRun.code resp = 429%Z ∧ strip s ≠ [] ∧ in_progress g = true)
    end.
Proof.
  unfold WebUI.generate.
  destruct request_json as [[| | | | |fields]|exc]; try done.
  destruct (default (JStr []) (dict_get (py "topic") fields))
    as [| | |s| |] eqn:Htopic; try done.
  intros Hrun. exists fields, s. split; [done|]. split; [done|].
  case_bool_decide as Hblank.
  { injection Hrun as <- <-. by left. }
  destruct (in_progress g) eqn:Hbusy.
  { injection Hrun as <- <-. by right. }
  injection Hrun as <- <-. split; [done|]. split; [done|].
  split; [done|]. split; [done|].
  destruct (strip_tight s) as [Hhead Hlast].
  intros c r [Hc | Hc]; [by eapply Hhead | by eapply Hlast].
Qed.

Lemma generate_starts_one_simulation_witness :
  ∃ fields s,
    Returned (JObj [(py "topic", JStr (py "  Gravity "))])
    = Returned (JObj fields) ∧
    default (JStr []) (dict_get (py "topic") fields) = JStr s ∧
    CloudRun.code
      (CloudRun.Response
         (JObj [ (py "status", JStr (py "processing"));
                 (py "message",
                  JStr (py "Video generation simulation started (2 minutes)")) ])
         200) = 200%Z ∧
    in_progress generation_status = false ∧
    py "Gravity" = strip s ∧ py "Gravity" ≠ [] ∧
    (∀ c r, py "Gravity" = c :: r ∨ py "Gravity" = r ++ [c] →
            py_isspace c = false).
Proof.
  apply (generate_starts_one_simulation
           (Returned (JObj [(py "topic", JStr (py "  Gravity "))]))
           generation_status _ (Some (py "Gravity"))).
  vm_compute. reflexivity.
Defined.

(** X18.  The time left that [/progress] reports is never negative:
    not after the two minutes, and not when the clock reads earlier
    than the start. *)
Theorem progress_estimated_time_not_negative
    {A : PyFloat} {L : PyFloatLaws A} (obs : list observation) :
  Forall (λ e, fle (of_int 0) (ev_estimated_time e)) (progress_stream obs).1.
Proof.
  assert (Hzero : fle (of_int 0) (of_int 0)).
  { unfold fle. destruct (fltb (of_int 0) (of_int 0)) eqn:Hlt; [|done].
    by rewrite (flt_asym _ _ Hlt) in Hlt. }
  assert (Hbuild : ∀ o, fle (of_int 0) (ev_estimated_time (build_data o))).
  { intros o. unfold build_data, estimated_time. simpl.
    destruct (start_time (at_build o)) as [start|].
    - destruct (fltb (of_int 0) _) eqn:Hpos; [|done].
      by apply flt_asym.
    - by apply of_int_mono. }
  induction obs as [|o obs IH]; simpl; [constructor|].
  destruct (completed (at_test o)).
  - simpl. constructor; [apply Hbuild | constructor].
  - destruct (progress_stream obs) as [evs returned]. simpl in *.
    constructor; [apply Hbuild | done].
Qed.

Lemma progress_estimated_time_not_negative_witness :
  Forall (λ e, @fle exact_float (of_int 0) (ev_estimated_time e))
    (@progress_stream exact_float
       [ Observation (Status true false None 50 [] (Some 0%Z))
                     (Status true false None 50 [] (Some 0%Z)) 200000000%Z;
         Observation (Status true false None 50 [] (Some 0%Z))
                     (Status true true None 100 [] (Some 0%Z)) (-5)%Z ]).1.
Proof.
  apply (@progress_estimated_time_not_negative exact_float exact_float_laws).
Defined.

(** ** text_animation.py and Master.py: the video of a section *)

Section VideoFacts.
Import TextVideo MasterSection.
Context {A : PyFloat}.
Context (fault : nat → bool) (gtts : list N → tts_result).
Context (text_width : list N → Z).
Context (video_writer :
  list N → Z * Z → list (list ((Z * Z) * list N)) → outcome (option (list N))).
Context (audio_duration video_duration : list N → outcome float_t).
Context (floor_quotient : float_t → float_t → outcome Z).
Context (write_videofile : clip → list N → encoded).

Lemma overlay_text_on_video_none
    (text output_path audio_path text_animation_path : list N) (w : world) :
  overlay_text_on_video audio_duration video_duration floor_quotient
    write_videofile text output_path None audio_path text_animation_path w
  = (Returned false, w).
Proof.
  unfold overlay_text_on_video. io_unfold. simpl.
  case_bool_decide; simpl; [done|].
  destruct (files w !! text_animation_path); simpl; [|done].
  destruct (audio_duration audio_path); simpl; [|done].
  by destruct (video_duration text_animation_path).
Qed.

Lemma create_text_animation_video_run
    (text : list N) (frame_size : Z * Z) (duration : float_t)
    (output_path : list N) (font_size : Z) (w : world) :
  ∃ r w',
    create_text_animation_video text_width video_writer text frame_size
      duration output_path font_size w = (Returned r, w')
    ∧ (∀ p, p ≠ output_path → files w' !! p = files w !! p).
Proof.
  unfold create_text_animation_video, write_frames. io_unfold. simpl.
  destruct (generate_scrolling_frames _ _ _ _ _) as [frames|exc0]; simpl;
    [|by eexists _, _].
  destruct (video_writer _ _ _) as [[content|]|exc]; simpl.
  - destruct (files w !! output_path) as [[c|]|] eqn:Hpath; simpl;
      rewrite ?lookup_insert_eq, ?Hpath; simpl; eexists _, _;
      (split; [done|]); simpl; try done;
      intros p Hp; by rewrite lookup_insert_ne.
  - destruct (files w !! output_path); simpl; by eexists _, _.
  - by eexists _, _.
Qed.

Lemma generate_audio_frame (text : list N) (section_index : Z) (w : world)
    (p : list N) :
  p ≠ audio_section_path section_index →
  files (generate_audio fault gtts text section_index w).2 !! p = files w !! p.
Proof.
  intros Hp. unfold generate_audio. case_bool_decide; [done|].
  io_unfold. unfold tts_save, remove. simpl.
  destruct (files w !! audio_section_path section_index) eqn:Hpath; [done|].
  simpl.
  destruct (gtts text) as [exc [partial|] | content]; fs_simpl.
  - destruct (fault _); fs_simpl.
    + by rewrite lookup_insert_ne.
    + by rewrite lookup_delete_ne, lookup_insert_ne.
  - by rewrite Hpath.
  - match goal with
    | |- context [if ?c then _ else _] => destruct c
    end; fs_simpl.
    + destruct (fault _); fs_simpl.
      * by rewrite lookup_insert_ne.
      * by rewrite lookup_delete_ne, lookup_insert_ne.
    + by rewrite lookup_insert_ne.
Qed.

End VideoFacts.

(** X19.  [overlay_text_on_video] composes nothing without a path of
    a background video or without the animation: called with [None]
    for the background, as Master.py calls it when
    [videos/background.mp4] is missing, it returns [False] and changes
    nothing, whatever the audio and the animation are (the black
    background of its other branch is used for a path that does not
    exist, never for [None]); and so it does when the path of the
    animation is empty or names no file, whatever the background. *)
Theorem overlay_text_on_video_without_background
    {A : PyFloat}
    (audio_duration video_duration : list N → outcome float_t)
    (floor_quotient : float_t → float_t → outcome Z)
    (write_videofile : TextVideo.clip → list N → TextVideo.encoded)
    (text output_path audio_path text_animation_path : list N) (w : world) :
  TextVideo.overlay_text_on_video audio_duration video_duration
    floor_quotient write_videofile text output_path None audio_path
    text_animation_path w
  = (Returned false, w) ∧
  (∀ background_video_path,
     text_animation_path = [] ∨ files w !! text_animation_path = None →
     TextVideo.overlay_text_on_video audio_duration video_duration
       floor_quotient write_videofile text output_path background_video_path
       audio_path text_animation_path w
     = (Returned false, w)).
Proof.
  split.
  - unfold TextVideo.overlay_text_on_video. io_unfold. simpl.
    case_bool_decide; simpl; [done|].
    destruct (files w !! text_animation_path); simpl; [|done].
    destruct (audio_duration audio_path); simpl; [|done].
    by destruct (video_duration text_animation_path).
  - intros background_video_path Hmissing.
    unfold TextVideo.overlay_text_on_video. io_unfold. simpl.
    case_bool_decide as Hempty; simpl; [done|].
    destruct Hmissing as [-> | ->]; done.
Qed.

Lemma section_paths_apart (section_index : Z) :
  MasterSection.BACKGROUND_VIDEO ≠ audio_section_path section_index
  ∧ MasterSection.BACKGROUND_VIDEO ≠ MasterSection.text_anim_path section_index
  ∧ MasterSection.video_output_path section_index
    ≠ audio_section_path section_index
  ∧ MasterSection.video_output_path section_index
    ≠ MasterSection.text_anim_path section_index.
Proof. repeat split; by intros [=]. Qed.

Lemma io_bind_raised {T U : Type} (c : io T) (k : T → io U) w exc w1 :
  c w = (Raised exc, w1) → io_bind c k w = (Raised exc, w1).
Proof. intros Hc. unfold io_bind. by rewrite Hc. Qed.

Lemma process_section_without_background
    {A : PyFloat} (fault : nat → bool) (gtts : list N → tts_result)
    (text_width : list N → Z)
    (video_writer :
       list N → Z * Z → list (list ((Z * Z) * list N)) → outcome (option (list N)))
    (audio_duration video_duration : list N → outcome float_t)
    (floor_quotient : float_t → float_t → outcome Z)
    (write_videofile : TextVideo.clip → list N → TextVideo.encoded)
    (section_index : Z) (section : json) (w : world) :
  files w !! MasterSection.BACKGROUND_VIDEO = None →
  ∃ r w',
    MasterSection.process_section fault gtts text_width video_writer
      audio_duration video_duration floor_quotient write_videofile
      section_index section w = (r, w')
    ∧ (r = Returned None ∨ ∃ exc, r = Raised exc)
    ∧ files w' !! MasterSection.video_output_path section_index
      = files w !! MasterSection.video_output_path section_index.
Proof.
  intros Hmissing.
  destruct (section_paths_apart section_index) as (Hba & Hbt & Hva & Hvt).
  unfold MasterSection.process_section, mbind, io_mbind.
  destruct section as [| | | | |fields];
    try (eexists _, _; split; [reflexivity|]; split; [right; by eexists | done]).
  erewrite io_bind_step by reflexivity.
  unfold subscript.
  destruct (dict_get (py "text") fields) as [text_value|];
    [|eexists _, _; split; [reflexivity|]; split; [right; by eexists | done]].
  erewrite io_bind_step by reflexivity.
  destruct text_value as [| | |text| |];
    try (eexists _, _; split; [reflexivity|]; split; [right; by eexists | done]).
  erewrite io_bind_step by reflexivity.
  pose proof (generate_audio_frame fault gtts text section_index w) as Haudio.
  destruct (generate_audio fault gtts text section_index w)
    as [[[audio_path|]|exc] w1] eqn:Hgen; simpl in Haudio.
  2:{ erewrite io_bind_step by exact Hgen.
      eexists _, _. split; [reflexivity|]. split; [by left | by apply Haudio]. }
  2:{ erewrite io_bind_raised by exact Hgen.
      eexists _, _. split; [reflexivity|].
      split; [right; by eexists | by apply Haudio]. }
  erewrite io_bind_step by exact Hgen.
  destruct (audio_duration audio_path) as [duration|exc] eqn:Hduration.
  2:{ erewrite io_bind_step
        by (unfold io_try, io_bind, io_lift; rewrite Hduration; reflexivity).
      eexists _, _. split; [reflexivity|]. split; [by left | by apply Haudio]. }
  erewrite io_bind_step
    by (unfold io_try, io_bind, io_lift; rewrite Hduration; reflexivity).
  destruct (create_text_animation_video_run text_width video_writer text
              (854, 720)%Z duration (MasterSection.text_anim_path section_index)
              32 w1) as (animation & w2 & Hvideo & Hanim).
  erewrite io_bind_step by exact Hvideo.
  destruct animation as [animation|].
  2:{ eexists _, _. split; [reflexivity|]. split; [by left|].
      rewrite Hanim by done. by apply Haudio. }
  erewrite io_bind_step
    by (unfold exists_; rewrite (Hanim _ Hbt), (Haudio _ Hba), Hmissing;
        reflexivity).
  erewrite io_bind_step by apply overlay_text_on_video_none.
  eexists _, _. split; [reflexivity|]. split; [by left|].
  rewrite Hanim by done. by apply Haudio.
Qed.

(** X20.  Master.py's [process_section] yields a video only where the
    background video exists: when [videos/background.mp4] is missing it
    never returns a path (it returns [None], or raises on a section
    without a text), and it leaves the place of the section's video as
    it was. *)
Theorem process_section_needs_background
    {A : PyFloat} (fault : nat → bool) (gtts : list N → tts_result)
    (text_width : list N → Z)
    (video_writer :
       list N → Z * Z → list (list ((Z * Z) * list N)) → outcome (option (list N)))
    (audio_duration video_duration : list N → outcome float_t)
    (floor_quotient : float_t → float_t → outcome Z)
    (write_videofile : TextVideo.clip → list N → TextVideo.encoded)
    (section_index : Z) (section : json) (w : world) :
  files w !! MasterSection.BACKGROUND_VIDEO = None →
  let run :=
    MasterSection.process_section fault gtts text_width video_writer
      audio_duration video_duration floor_quotient write_videofile
      section_index section w in
  (run.1 = Returned None ∨ ∃ exc, run.1 = Raised exc) ∧
  files run.2 !! MasterSection.video_output_path section_index
  = files w !! MasterSection.video_output_path section_index.
Proof.
  intros Hmissing run. subst run.
  destruct (process_section_without_background fault gtts text_width
              video_writer audio_duration video_duration floor_quotient
              write_videofile section_index section w Hmissing)
    as (r & w' & -> & Hr & Hfile).
  by split.
Qed.

Lemma process_section_needs_background_witness :
  let run :=
    @MasterSection.process_section exact_float no_fault gtts_ok text_width_ten
      video_writer_ok duration_one duration_one floor_quotient_exact
      write_videofile_ok 0 section_inertia (World ∅ []) in
  (run.1 = Returned None ∨ ∃ exc, run.1 = Raised exc) ∧
  files run.2 !! MasterSection.video_output_path 0
  = files (World ∅ []) !! MasterSection.video_output_path 0.
Proof.
  apply (@process_section_needs_background exact_float no_fault gtts_ok
           text_width_ten video_writer_ok duration_one duration_one
           floor_quotient_exact write_videofile_ok 0 section_inertia
           (World ∅ [])).
  reflexivity.
Defined.

(** ** text_animation.py: the frames of the animation *)

(** X21.  Every frame of the typewriter animation is a frame of
    [create_text_frame] on the part of the text revealed so far: when
    the frames are returned, each has at most four lines, and its
    words are the last words of that part, in order. *)
Theorem animation_frames_show_last_words
    {A : PyFloat} (text_width : list N → Z) (text : list N)
    (frame_size : Z * Z) (duration : float_t) (fps : Z)
    (frames : list (list ((Z * Z) * list N))) :
  generate_scrolling_frames
    (λ subtext size,
       Returned (TextAnimation.create_text_frame text_width subtext size
                   TextAnimation.FONT_SIZE TextAnimation.PADDING))
    text frame_size duration fps
  = Returned frames →
  Forall (λ frame, length frame ≤ 4) frames ∧
  ∃ total,
    total_frames duration fps = Returned total ∧
    ∀ (i : nat) frame, frames !! i = Some frame →
      ∃ chars,
        chars_to_show (Z.of_nat (length text)) (Z.of_nat i) total
        = Returned chars ∧
        frame = TextAnimation.create_text_frame text_width
                  (slice_to chars text) frame_size
                  TextAnimation.FONT_SIZE TextAnimation.PADDING ∧
        concat (split <$> frame.*2) `suffix_of` split (slice_to chars text).
Proof.
  intros Hrun.
  destruct (generate_scrolling_frames_returned _ text frame_size duration fps
              frames Hrun) as (total & Htotal & Hloop).
  destruct (frames_loop_returned _ text frame_size total _ frames Hloop)
    as [Hlen Hframes].
  assert (Hframe : ∀ (i : nat) frame, frames !! i = Some frame →
            ∃ chars,
              chars_to_show (Z.of_nat (length text)) (Z.of_nat i) total
              = Returned chars ∧
              frame = TextAnimation.create_text_frame text_width
                        (slice_to chars text) frame_size
                        TextAnimation.FONT_SIZE TextAnimation.PADDING).
  { intros i frame Hi. pose proof (lookup_lt_Some _ _ _ Hi) as Hlt.
    unfold py_range in Hlen, Hframes. rewrite length_seqZ in Hlen.
    destruct (Hframes i (Z.of_nat i)) as (chars & f & Hchars & Hf & Hi').
    { rewrite lookup_seqZ. split; lia. }
    exists chars. split; [done|]. congruence. }
  split.
  - apply Forall_lookup. intros i frame Hi.
    destruct (Hframe i frame Hi) as (chars & _ & ->).
    destruct (create_text_frame_spec text_width (slice_to chars text)
                frame_size TextAnimation.FONT_SIZE TextAnimation.PADDING)
      as (lines & k & -> & _ & _ & Hlen' & _).
    by rewrite length_imap.
  - exists total. split; [done|]. intros i frame Hi.
    destruct (Hframe i frame Hi) as (chars & Hchars & ->).
    exists chars. split; [done|]. split; [done|].
    destruct (create_text_frame_spec text_width (slice_to chars text)
                frame_size TextAnimation.FONT_SIZE TextAnimation.PADDING)
      as (lines & k & -> & Hsplit & _).
    rewrite imap_second. exists (concat (split <$> take k lines)).
    by rewrite <- concat_app, <- fmap_app, take_drop.
Qed.

Lemma animation_frames_show_last_words_witness :
  ∃ frames,
    @generate_scrolling_frames binary64 _
      (λ subtext size,
         Returned (TextAnimation.create_text_frame text_width_ten subtext size
                     TextAnimation.FONT_SIZE TextAnimation.PADDING))
      (py "every body keeps its state of rest") (854, 720)%Z (f64_of_Z 1) 3
    = Returned frames ∧
    Forall (λ frame, length frame ≤ 4) frames.
Proof.
  eassert (Hrun :
    @generate_scrolling_frames binary64 _
      (λ subtext size,
         Returned (TextAnimation.create_text_frame text_width_ten subtext size
                     TextAnimation.FONT_SIZE TextAnimation.PADDING))
      (py "every body keeps its state of rest") (854, 720)%Z (f64_of_Z 1) 3
    = Returned _) by (vm_compute; reflexivity).
  destruct (@animation_frames_show_last_words binary64 text_width_ten
              (py "every body keeps its state of rest") (854, 720)%Z
              (f64_of_Z 1) 3 _ Hrun) as [Hfour _].
  eexists. split; [exact Hrun | exact Hfour].
Defined.

(** X22.  [create_text_animation_video] never raises and touches no
    path but [output_path]; a path it returns is [output_path], where a
    file then exists; when the generation of the frames raises, it
    returns [None] and has written nothing; and its [font_size]
    argument changes nothing. *)
Theorem create_text_animation_video_result
    {A : PyFloat} (text_width : list N → Z)
    (video_writer :
       list N → Z * Z → list (list ((Z * Z) * list N)) → outcome (option (list N)))
    (text : list N) (frame_size : Z * Z) (duration : float_t)
    (output_path : list N) (font_size : Z) (w : world) :
  let run :=
    TextVideo.create_text_animation_video text_width video_writer text
      frame_size duration output_path font_size w in
  (∃ r, run.1 = Returned r) ∧
  (∀ p, p ≠ output_path → files run.2 !! p = files w !! p) ∧
  (∀ path, run.1 = Returned (Some path) →
     path = output_path ∧ is_Some (files run.2 !! output_path)) ∧
  ((∃ exc,
      generate_scrolling_frames
        (λ subtext size,
           Returned (TextAnimation.create_text_frame text_width subtext size
                       TextAnimation.FONT_SIZE TextAnimation.PADDING))
        text frame_size duration FPS
      = Raised exc) →
   run = (Returned None, w)) ∧
  (∀ font_size',
     TextVideo.create_text_animation_video text_width video_writer text
       frame_size duration output_path font_size' w = run).
Proof.
  intros run. subst run.
  unfold TextVideo.create_text_animation_video, TextVideo.write_frames.
  io_unfold. simpl.
  destruct (generate_scrolling_frames _ _ _ _ _) as [frames|exc0] eqn:Hframes;
    simpl.
  2:{ split; [by eexists|]. split; [done|]. split; [done|]. split; [|done].
      intros _. by destruct w. }
  destruct (video_writer _ _ _) as [[content|]|exc] eqn:Hwriter; simpl.
  - destruct (files w !! output_path) as [[c|]|] eqn:Hpath; simpl;
      rewrite ?lookup_insert_eq, ?Hpath; simpl;
      (split; [by eexists|]);
      (split; [intros p Hp; by rewrite ?lookup_insert_ne|]);
      (split; [intros path [= <-]; split; [done|];
               rewrite ?lookup_insert_eq, ?Hpath; by eexists|]);
      (split; [by intros [? ?]|]); done.
  - destruct (files w !! output_path) as [node|] eqn:Hpath; simpl;
      (split; [by eexists|]); (split; [done|]).
    + split; [intros path [= <-]; split; [done|]; rewrite Hpath; by eexists|].
      split; [by intros [? ?]|]. done.
    + split; [done|]. split; [by intros [? ?]|]. done.
  - split; [by eexists|]. split; [done|]. split; [done|].
    split; [by intros [? ?]|]. done.
Qed.

(** ** Master.py: a run in which no section yields a video *)

Lemma omap_all_none {X Y : Type} (f : X → option Y) (xs : list X) :
  (∀ x, f x = None) → omap f xs = [].
Proof.
  intros Hf. induction xs as [|x xs IH]; [done|].
  change (omap f (x :: xs))
    with (match f x with Some y => y :: omap f xs | None => omap f xs end).
  by rewrite Hf.
Qed.

Lemma interactive_page_html_cons (n : Z) :
  ∃ c rest, InteractivePage.interactive_page_html n = c :: rest.
Proof. by eexists _, _. Qed.

(** X23.  [generate_final_outputs] reports success without a video:
    when every section fails, nothing is concatenated and no check is
    made that a video exists; the result is [True] as soon as the
    interactive page is generated, here because the D3 pages are there
    and the system refuses nothing. *)
Theorem generate_final_outputs_without_videos
    (env : pipeline) (fields : list (list N * json)) (items : list json)
    (w : world) :
  (∀ i section, section_result env i section = None) →
  dict_get (py "sections") fields = Some (JList items) →
  1 ≤ length items →
  (∀ n, pl_fault env n = false) →
  (∀ k, (1 <= k <= Z.of_nat (length items))%Z →
        is_Some (files w !! InteractivePage.d3_file k)) →
  (∀ content, files w !! py "templates" ≠ Some (File content)) →
  files w !! InteractivePage.default_output_path ≠ Some Dir →
  (generate_final_outputs env (JObj fields) w).1 = Returned true.
Proof.
  intros Hfail Hsections Hlen Hfault Hpages Htemplates Houtput.
  unfold generate_final_outputs, mbind, io_mbind.
  erewrite io_bind_step by reflexivity.
  erewrite io_bind_step by (unfold subscript; rewrite Hsections; reflexivity).
  erewrite io_bind_step by reflexivity.
  assert (Hmin : (Z.min 8 (Z.of_nat (length items)) <=? 0)%Z = false)
    by (apply Z.leb_gt; lia).
  erewrite io_bind_step by (unfold pool_create; rewrite Hmin; reflexivity).
  erewrite io_bind_step by reflexivity.
  erewrite io_bind_step by apply io_for_emit.
  rewrite omap_all_none by (intros task; apply Hfail).
  erewrite io_bind_step by reflexivity. cbn [negb].
  match goal with
  | |- context [io_bind (InteractivePage.generate_interactive_final_page _ _ _)
                          _ ?w0] =>
      destruct (generate_interactive_final_page_found (pl_fault env) fields
                  items w0 Hfault Hsections) as (w' & Hpage & _)
  end.
  - intros k Hk. apply elem_of_seqZ in Hk. simpl. apply Hpages. lia.
  - done.
  - done.
  - erewrite io_bind_step by exact Hpage.
    by destruct (interactive_page_html_cons (Z.of_nat (length items)))
      as (c & rest & ->).
Qed.

Lemma generate_final_outputs_without_videos_witness :
  (generate_final_outputs
     (Pipeline no_fault media_ok (λ _ _, None) (λ tasks, tasks))
     (JObj [ (py "title", JStr (py "Laws of motion"));
             (py "sections",
              JList [ JObj [(py "text", JStr (py "Inertia"))];
                      JObj [(py "text", JStr (py "Force"))] ]) ])
     world_two_pages).1
  = Returned true.
Proof.
  apply (generate_final_outputs_without_videos
           (Pipeline no_fault media_ok (λ _ _, None) (λ tasks, tasks))
           _ [ JObj [(py "text", JStr (py "Inertia"))];
               JObj [(py "text", JStr (py "Force"))] ]).
  - done.
  - reflexivity.
  - simpl. lia.
  - done.
  - intros k Hk. simpl in Hk.
    assert (k = 1 ∨ k = 2)%Z as [-> | ->] by lia; vm_compute; by eexists.
  - intros content. vm_compute. discriminate.
  - vm_compute. discriminate.
Defined.

(** ** script_generation.py *)

Import ScriptGeneration.

Lemma dict_get_set_eq (key : list N) (value : json) fields :
  dict_get key (dict_set key value fields) = Some value.
Proof.
  induction fields as [|[k v] fields IH]; simpl.
  - by rewrite bool_decide_eq_true_2.
  - case_bool_decide as Hk; simpl.
    + by rewrite bool_decide_eq_true_2.
    + by rewrite bool_decide_eq_false_2.
Qed.

Lemma dict_get_set_ne (key key' : list N) (value : json) fields :
  key ≠ key' → dict_get key' (dict_set key value fields) = dict_get key' fields.
Proof.
  intros Hne. induction fields as [|[k v] fields IH]; simpl.
  - by rewrite bool_decide_eq_false_2.
  - case_bool_decide as Hk; simpl.
    + subst k. by rewrite !bool_decide_eq_false_2.
    + by rewrite IH.
Qed.

Lemma script_generate_d3_prompt_run genai (section_text viz_type : list N)
    (w : world) :
  ∃ r ev,
    ScriptGeneration.generate_d3_prompt genai section_text viz_type w
    = (Returned r, World (files w) (log w ++ [ev]))
    ∧ is_genai (py "gemini-1.5-flash") ev = true.
Proof.
  unfold ScriptGeneration.generate_d3_prompt, D3Generator.generate_content.
  io_unfold. simpl. destruct (genai _ _); simpl; by eexists _, _.
Qed.

Lemma add_d3_prompt_returned genai py_str (section section' : json)
    (w w' : world) :
  add_d3_prompt genai py_str section w = (Returned section', w') →
  section_ready section'
  ∧ ∃ ev, w' = World (files w) (log w ++ [ev])
          ∧ is_genai (py "gemini-1.5-flash") ev = true.
Proof.
  unfold add_d3_prompt, mbind, io_mbind.
  intros (text & w1 & Htext & Hrest)%io_bind_returned.
  apply io_bind_returned in Hrest as (viz & w2 & Hviz & Hrest).
  apply io_bind_returned in Hrest as (d3 & w3 & Hd3 & Hrest).
  destruct section as [| | | | |fields]; try done.
  unfold subscript in Htext, Hviz.
  destruct (dict_get (py "text") fields) as [text'|] eqn:Htext'; [|done].
  destruct (dict_get (py "visualization_type") fields) as [viz'|] eqn:Hviz';
    [|done].
  injection Htext as <- <-. injection Hviz as <- <-.
  destruct (script_generate_d3_prompt_run genai (format_value py_str text')
              (format_value py_str viz') w) as (r & ev & Hrun & Hev).
  rewrite Hrun in Hd3. injection Hd3 as <- <-.
  injection Hrest as <- <-. split; [|by exists ev].
  eexists. split; [done|].
  rewrite !dict_get_set_ne by done. rewrite Htext', Hviz', dict_get_set_eq.
  by repeat split; eexists.
Qed.

Lemma io_map_add_d3_prompt genai py_str (items items' : list json)
    (w w' : world) :
  io_map (add_d3_prompt genai py_str) items w = (Returned items', w') →
  length items' = length items
  ∧ Forall section_ready items'
  ∧ ∃ evs, w' = World (files w) (log w ++ evs)
           ∧ length evs = length items
           ∧ Forall (λ ev, is_genai (py "gemini-1.5-flash") ev = true) evs.
Proof.
  revert items' w. induction items as [|item items IH]; intros items' w.
  { intros [= <- <-]. split; [done|]. split; [done|]. exists [].
    rewrite app_nil_r. by destruct w. }
  cbn [io_map]. unfold mbind, io_mbind.
  intros (item' & w1 & Hitem & Hrest)%io_bind_returned.
  apply io_bind_returned in Hrest as (rest' & w2 & Hrest & [= <- <-]).
  apply add_d3_prompt_returned in Hitem as (Hready & ev & -> & Hev).
  apply IH in Hrest as (Hlen & Hall & evs & -> & Hevs & Hgenai).
  simpl. split; [by rewrite Hlen|]. split; [by constructor|].
  exists (ev :: evs). rewrite <- app_assoc. split; [done|].
  split; [by rewrite <- Hevs | by constructor].
Qed.

Lemma io_map_add_d3_prompt_strings genai py_str (items : list json)
    (items' : list json) (w w' : world) :
  Forall (λ item, is_str item = true) items →
  io_map (add_d3_prompt genai py_str) items w = (Returned items', w') →
  items = [].
Proof.
  intros Hstr. destruct Hstr as [|item items Hitem _]; [done|].
  cbn [io_map]. unfold mbind, io_mbind.
  intros (item' & w1 & Hrun & _)%io_bind_returned.
  by destruct item.
Qed.

(** X24.  A script that [generate_script] returns is a dictionary with
    a key ["sections"].  When the sections are a list, every section is
    a dictionary with a text, a visualization type and a D3 prompt (the
    prompt is [None] where asking for it failed, which does not fail the
    script), and the service was called once for the script and once
    for each section, always the model gemini-1.5-flash; otherwise the
    sections are empty.  No file is touched. *)
Theorem generate_script_result
    (genai : list N → list N → outcome (list N))
    (loads : list N → outcome json) (py_str : json → list N)
    (topic : list N) (w w' : world) (script : json) :
  generate_script genai loads py_str topic w = (Returned (Some script), w') →
  ∃ fields sections evs,
    script = JObj fields ∧
    dict_get (py "sections") fields = Some sections ∧
    w' = World (files w) (log w ++ evs) ∧
    Forall (λ ev, is_genai (py "gemini-1.5-flash") ev = true) evs ∧
    match sections with
    | JList items => length evs = 1 + length items ∧ Forall section_ready items
    | _ => length evs = 1 ∧ truthy sections = false
    end.
Proof.
  unfold generate_script, mbind, io_mbind.
  intros [Hbody | (exc & w1 & _ & [=])]%io_try_returned.
  apply io_bind_returned in Hbody as (text & w1 & Htext & Hbody).
  apply io_bind_returned in Hbody as (doc & w2 & Hdoc & Hbody).
  apply io_bind_returned in Hbody as (sections & w3 & Hsections & Hbody).
  apply io_bind_returned in Hbody as (items & w4 & Hitems & Hbody).
  apply io_bind_returned in Hbody as (items' & w5 & Hmap & [= <- <-]).
  unfold D3Generator.generate_content, mbind, io_mbind in Htext.
  apply io_bind_returned in Htext as ([] & w0 & [= <-] & Htext).
  unfold io_lift in Htext, Hdoc.
  injection Htext as _ <-. injection Hdoc as _ <-.
  unfold subscript in Hsections.
  destruct doc as [| | | | |fields]; try done.
  destruct (dict_get (py "sections") fields) as [sections0|] eqn:Hget; [|done].
  injection Hsections as <- <-.
  pose proof Hmap as Hstrings.
  apply io_map_add_d3_prompt in Hmap as (Hlen & Hready & evs & -> & Hevs & Hgenai).
  set (first := SysGenAI (py "gemini-1.5-flash")
                  (script_prompt_1 ++ topic ++ script_prompt_2
                   ++ join (py ", ") STANDARD_VIZ_TYPES ++ script_prompt_3))
    in *.
  assert (Hfirst : is_genai (py "gemini-1.5-flash") first = true) by done.
  destruct sections0 as [| | |s|items0|fs]; try done.
  - injection Hitems as <- <-.
    apply io_map_add_d3_prompt_strings in Hstrings;
      [|apply Forall_fmap; by apply Forall_true].
    apply fmap_nil_inv in Hstrings as ->.
    exists fields, (JStr []), (first :: evs). split; [done|]. split; [done|].
    simpl. rewrite <- app_assoc. split; [done|].
    split; [by constructor|]. simpl in Hevs. by rewrite Hevs.
  - injection Hitems as <- <-.
    eexists _, (JList items'), (first :: evs). split; [done|].
    split; [apply dict_get_set_eq|]. simpl. rewrite <- app_assoc.
    split; [done|]. split; [by constructor|]. split; [lia | done].
  - injection Hitems as <- <-.
    apply io_map_add_d3_prompt_strings in Hstrings;
      [|apply Forall_fmap; by apply Forall_true].
    apply fmap_nil_inv in Hstrings as ->.
    exists fields, (JObj []), (first :: evs). split; [done|]. split; [done|].
    simpl. rewrite <- app_assoc. split; [done|].
    split; [by constructor|]. simpl in Hevs. by rewrite Hevs.
Qed.

Lemma generate_script_result_witness :
  ∃ fields sections evs,
    script_two_sections = JObj fields ∧
    dict_get (py "sections") fields = Some sections ∧
    (generate_script genai_echo loads_two_sections py_str_none
       (py "Laws of motion") (World ∅ [])).2
    = World (files (World ∅ [])) (log (World ∅ []) ++ evs) ∧
    Forall (λ ev, is_genai (py "gemini-1.5-flash") ev = true) evs ∧
    match sections with
    | JList items => length evs = 1 + length items ∧ Forall section_ready items
    | _ => length evs = 1 ∧ truthy sections = false
    end.
Proof.
  apply (generate_script_result genai_echo loads_two_sections py_str_none
           (py "Laws of motion") (World ∅ [])).
  vm_compute. reflexivity.
Defined.

(** ** Master.py: the whole run *)

Import MasterMain.

Lemma only_logs_weaken {T : Type} (ok ok' : syscall → bool) (c : io T) :
  (∀ ev, ok ev = true → ok' ev = true) → only_logs ok c → only_logs ok' c.
Proof.
  intros Hok Hc w. destruct (Hc w) as (evs & Hlog & Hevs).
  exists evs. split; [done|]. eapply Forall_impl; [exact Hevs | exact Hok].
Qed.

Lemma retry_rmtree_logs ok fault lost d attempts :
  (∀ b, ok (SysRmtree d b) = true) → (∀ s, ok (SysSleep s) = true) →
  only_logs ok (retry_rmtree fault lost d attempts).
Proof.
  intros Hrm Hsleep. induction attempts as [|k IH]; simpl;
    [apply only_logs_ret|].
  apply only_logs_mbind.
  - apply only_logs_try.
    + apply only_logs_mbind; [by apply only_logs_rmtree|].
      intros _. apply only_logs_ret.
    + intros _. apply only_logs_mbind; [by apply only_logs_emit|].
      intros _. apply only_logs_ret.
  - intros []; [apply only_logs_ret | done].
Qed.

Lemma cleanup_previous_run_logs fault lost :
  only_logs before_outputs (cleanup_previous_run fault lost).
Proof.
  unfold cleanup_previous_run. apply only_logs_mbind.
  - apply only_logs_for. intros d. unfold clear_directory.
    apply only_logs_mbind; [apply only_logs_exists|]. intros present.
    apply only_logs_mbind.
    + destruct present; [by apply retry_rmtree_logs | apply only_logs_ret].
    + intros _. by apply only_logs_makedirs.
  - intros _. apply only_logs_for. intros f. unfold clear_file.
    apply only_logs_mbind; [apply only_logs_exists|]. intros [].
    + apply only_logs_try; [by apply only_logs_remove|].
      intros _. apply only_logs_ret.
    + apply only_logs_ret.
Qed.

Lemma generate_content_logs ok genai model prompt :
  ok (SysGenAI model prompt) = true →
  only_logs ok (D3Generator.generate_content genai model prompt).
Proof.
  intros Hok. unfold D3Generator.generate_content.
  apply only_logs_mbind; [by apply only_logs_emit|].
  intros _. apply only_logs_lift.
Qed.

Lemma io_map_logs {T U : Type} ok (f : T → io U) (xs : list T) :
  (∀ x, only_logs ok (f x)) → only_logs ok (io_map f xs).
Proof.
  intros Hf. induction xs as [|x xs IH]; simpl; [apply only_logs_ret|].
  apply only_logs_mbind; [apply Hf|]. intros y.
  apply only_logs_mbind; [apply IH|]. intros ys. apply only_logs_ret.
Qed.

Lemma subscript_logs ok v key : only_logs ok (subscript v key).
Proof.
  unfold subscript. destruct v; try apply only_logs_raise.
  destruct (dict_get _ _); [apply only_logs_ret | apply only_logs_raise].
Qed.

Lemma generate_script_logs genai loads py_str topic :
  only_logs before_outputs (generate_script genai loads py_str topic).
Proof.
  unfold generate_script. apply only_logs_try; [|intros _; apply only_logs_ret].
  apply only_logs_mbind; [by apply generate_content_logs|]. intros text.
  apply only_logs_mbind; [apply only_logs_lift|]. intros script.
  apply only_logs_mbind; [apply subscript_logs|]. intros sections.
  apply only_logs_mbind.
  { destruct (iter_json sections); [apply only_logs_ret | apply only_logs_raise]. }
  intros items. apply only_logs_mbind; [|intros ?; apply only_logs_ret].
  apply io_map_logs. intros section. unfold add_d3_prompt.
  apply only_logs_mbind; [apply subscript_logs|]. intros text'.
  apply only_logs_mbind; [apply subscript_logs|]. intros viz.
  apply only_logs_mbind.
  - unfold ScriptGeneration.generate_d3_prompt.
    apply only_logs_try; [|intros _; apply only_logs_ret].
    apply only_logs_mbind; [by apply generate_content_logs|].
    intros ?. apply only_logs_ret.
  - intros d3. destruct section; try apply only_logs_raise. apply only_logs_ret.
Qed.

Lemma truthy_len (v : json) (n : Z) :
  truthy v = true → py_len v = Some n → (1 <= n)%Z.
Proof.
  destruct v as [| | |s|items|fields]; try done; simpl.
  - destruct s; [by rewrite bool_decide_eq_true_2 | intros _ [= <-]; simpl; lia].
  - destruct items; [done | intros _ [= <-]; simpl; lia].
  - destruct fields; [done | intros _ [= <-]; simpl; lia].
Qed.

(** The generation of the outputs begins with the D3 process and the
    pool. *)
Lemma generate_final_outputs_begins
    (env : pipeline) (fields : list (list N * json)) (sections : json)
    (n : Z) (w : world) :
  dict_get (py "sections") fields = Some sections →
  py_len sections = Some n → (1 <= n)%Z →
  ∃ rest,
    log (generate_final_outputs env (JObj fields) w).2
    = log w ++ [ SysPopen [py "python"; py "d3_generator.py"];
                 SysPool (Z.min 8 n) ] ++ rest.
Proof.
  intros Hsections Hlen Hn.
  unfold generate_final_outputs, mbind, io_mbind.
  erewrite io_bind_step by reflexivity.
  erewrite io_bind_step by (unfold subscript; rewrite Hsections; reflexivity).
  erewrite io_bind_step by (rewrite Hlen; reflexivity).
  assert (Hmin : (Z.min 8 n <=? 0)%Z = false) by (apply Z.leb_gt; lia).
  erewrite io_bind_step by (unfold pool_create; rewrite Hmin; reflexivity).
  match goal with
  | |- context [io_bind ?c ?k ?w0] =>
      assert (Hrest : only_logs (λ _, true) (io_bind c k));
      [|destruct (Hrest w0) as (rest & Hlog & _)]
  end.
  { apply only_logs_bind.
    { destruct (iter_json sections); [apply only_logs_ret | apply only_logs_raise]. }
    intros items. apply only_logs_bind.
    { apply only_logs_for. intros task. by apply only_logs_emit. }
    intros _. cbv zeta. apply only_logs_bind.
    { destruct (omap _ _); [apply only_logs_ret | apply only_logs_lift]. }
    intros []; simpl; [|apply only_logs_ret].
    apply only_logs_bind.
    - apply (only_logs_weaken not_genai); [done|].
      apply generate_interactive_final_page_log.
    - intros [[|c html]|]; apply only_logs_ret. }
  exists rest. rewrite Hlog. simpl. by rewrite <- !app_assoc.
Qed.

Lemma quiet_logs_outputs_after_saving {T : Type} (c : io T) :
  only_logs before_outputs c → logs_outputs_after_saving c.
Proof.
  intros Hc w. destruct (Hc w) as (evs & Hlog & Hevs).
  exists evs. split; [done | by left].
Qed.

Lemma bind_logs_outputs_after_saving {T U : Type} (c : io T) (k : T → io U) :
  only_logs before_outputs c → (∀ v, logs_outputs_after_saving (k v)) →
  logs_outputs_after_saving (io_bind c k).
Proof.
  intros Hc Hk w. unfold io_bind. destruct (Hc w) as (evs & Hlog & Hevs).
  destruct (c w) as [[v|exc] w1]; simpl in *; [|exists evs; split; [done | by left]].
  destruct (Hk v w1) as (evs' & Hlog' & Hshape).
  exists (evs ++ evs'). rewrite Hlog', Hlog, app_assoc. split; [done|].
  destruct Hshape as [Hquiet | (before & after & n & -> & Hn & Hbefore)].
  - left. by apply Forall_app.
  - right. exists (evs ++ before), after, n. rewrite <- app_assoc.
    split; [done|]. split; [done|]. by apply Forall_app.
Qed.

Lemma outputs_begin_after_saving
    (env : pipeline) (dumps : json → list N)
    (fields : list (list N * json)) (sections : json) :
  truthy (JObj fields) = true →
  dict_get (py "sections") fields = Some sections →
  truthy sections = true →
  logs_outputs_after_saving
    (io_bind (save_script (pl_fault env) dumps (Some (JObj fields)))
       (λ _, io_bind match py_len sections with
                     | Some _ => io_ret tt
                     | None => io_raise (py "TypeError")
                     end
               (λ _, io_bind (generate_final_outputs env (JObj fields))
                       (λ _, io_ret tt)))).
Proof.
  intros Hscript Hsections Htruthy w.
  unfold save_script. rewrite Hscript. unfold io_bind at 1.
  assert (Hwrite :
    (∃ exc, write_file (pl_fault env) (py "output_script.json")
              (dumps (JObj fields)) w
            = (Raised exc,
               World (files w) (log w ++ [SysWrite (py "output_script.json") false])))
    ∨ write_file (pl_fault env) (py "output_script.json")
        (dumps (JObj fields)) w
      = (Returned tt,
         World (<[py "output_script.json" := File (dumps (JObj fields))]> (files w))
               (log w ++ [SysWrite (py "output_script.json") true]))).
  { unfold write_file. repeat case_match; eauto. }
  destruct Hwrite as [(exc & ->) | ->].
  { eexists. split; [done|]. left. by repeat constructor. }
  unfold io_bind at 1.
  destruct (py_len sections) as [n|] eqn:Hlen.
  2:{ eexists. split; [done|]. left. by repeat constructor. }
  cbn [io_ret].
  pose proof (truthy_len sections n Htruthy Hlen) as Hn.
  match goal with
  | |- context [io_bind (generate_final_outputs env (JObj fields)) _ ?w0] =>
      destruct (generate_final_outputs_begins env fields sections n w0
                  Hsections Hlen Hn) as (rest & Hlog);
      assert (Hend : log (io_bind (generate_final_outputs env (JObj fields))
                            (λ _, io_ret tt) w0).2
                     = log (generate_final_outputs env (JObj fields) w0).2)
        by (unfold io_bind;
            by destruct (generate_final_outputs env (JObj fields) w0)
              as [[v|exc] w1])
  end.
  rewrite Hend, Hlog. simpl. eexists. rewrite <- app_assoc. split; [done|].
  right. exists [], rest, (Z.min 8 n). split; [done|]. split; [lia | done].
Qed.

Lemma main_logs_outputs_after_saving
    (lost : nat → list N → bool)
    (genai : list N → list N → outcome (list N))
    (loads : list N → outcome json) (dumps : json → list N)
    (py_str : json → list N) (stdin : outcome (list N))
    (env : pipeline) (topic : option (list N)) :
  logs_outputs_after_saving
    (main lost genai loads dumps py_str stdin env topic).
Proof.
  unfold main, mbind, io_mbind.
  apply bind_logs_outputs_after_saving; [apply cleanup_previous_run_logs|].
  intros _. apply bind_logs_outputs_after_saving.
  { assert (Hask : only_logs before_outputs
              (io_bind (io_lift stdin)
                 (λ line, match strip line with
                          | [] => io_ret None
                          | c :: t => io_ret (Some (c :: t))
                          end))).
    { apply only_logs_bind; [apply only_logs_lift|]. intros line.
      destruct (strip line); apply only_logs_ret. }
    destruct topic as [[|c t]|]; [done | apply only_logs_ret | done]. }
  intros [topic'|]; [|apply quiet_logs_outputs_after_saving; exact (only_logs_ret _ tt)].
  apply bind_logs_outputs_after_saving; [apply generate_script_logs|].
  intros [script|]; [|apply quiet_logs_outputs_after_saving; exact (only_logs_ret _ tt)].
  destruct (truthy script) eqn:Hscript; cbn [negb];
    [|apply quiet_logs_outputs_after_saving; exact (only_logs_ret _ tt)].
  destruct script as [| | | | |fields];
    try (intros w; exists []; split; [by rewrite app_nil_r | by left]).
  intros w. unfold io_bind at 1. cbn [io_ret].
  destruct (dict_get (py "sections") fields) as [sections|] eqn:Hsections;
    cbn [default from_option id];
    [|exact (quiet_logs_outputs_after_saving _ (only_logs_ret _ tt) w)].
  destruct (truthy sections) eqn:Htruthy; cbn [negb];
    [|exact (quiet_logs_outputs_after_saving _ (only_logs_ret _ tt) w)].
  by apply (outputs_begin_after_saving env dumps fields sections).
Qed.

(** X25.  [main] starts the generation of the outputs only after it
    has saved the script: in every run where the D3 process is started,
    the call just before it is the successful write of
    [output_script.json], which that process reads, and the call just
    after it creates the pool, with one to eight workers (so the pool
    is never asked for zero workers); nothing before belongs to the
    generation of the outputs. *)
Theorem main_saves_script_before_outputs
    (lost : nat → list N → bool)
    (genai : list N → list N → outcome (list N))
    (loads : list N → outcome json) (dumps : json → list N)
    (py_str : json → list N) (stdin : outcome (list N))
    (env : pipeline) (topic : option (list N)) (w : world)
    (argv : list (list N)) :
  let evs :=
    drop (length (log w))
         (log (main lost genai loads dumps py_str stdin env topic w).2) in
  SysPopen argv ∈ evs →
  ∃ before after n,
    evs = before
          ++ [ SysWrite (py "output_script.json") true;
               SysPopen [py "python"; py "d3_generator.py"];
               SysPool n ]
          ++ after
    ∧ (1 <= n <= 8)%Z
    ∧ Forall (λ ev, before_outputs ev = true) before.
Proof.
  intros evs Hpopen. subst evs.
  destruct (main_logs_outputs_after_saving lost genai loads dumps py_str stdin
              env topic w) as (evs & Hlog & Hshape).
  rewrite Hlog, drop_app_length in Hpopen |- *.
  destruct Hshape as [Hquiet | Hshape]; [|done].
  rewrite Forall_forall in Hquiet. by apply Hquiet in Hpopen.
Qed.

Lemma main_saves_script_before_outputs_witness :
  ∃ before after n,
    drop (length (log (World ∅ [])))
         (log (main nothing_lost genai_echo loads_two_sections dumps_braces
                 py_str_none (Raised (py "EOFError")) pipeline_ok
                 (Some (py "Laws of motion")) (World ∅ [])).2)
    = before
      ++ [ SysWrite (py "output_script.json") true;
           SysPopen [py "python"; py "d3_generator.py"];
           SysPool n ]
      ++ after
    ∧ (1 <= n <= 8)%Z
    ∧ Forall (λ ev, before_outputs ev = true) before.
Proof.
  apply (main_saves_script_before_outputs nothing_lost genai_echo
           loads_two_sections dumps_braces py_str_none
           (Raised (py "EOFError")) pipeline_ok (Some (py "Laws of motion"))
           (World ∅ []) [py "python"; py "d3_generator.py"]).
  vm_compute.
  repeat (apply elem_of_cons; first [left; reflexivity | right]).
Defined.

(** X26.  Without a topic [main] only cleans: when it is given no
    topic, or an empty one, and the line read from the input is blank,
    it asks for no script and generates nothing, but the outputs of the
    previous run have been cleaned away all the same; the run is the
    run of [cleanup_previous_run]. *)
Theorem main_without_topic_only_cleans
    (lost : nat → list N → bool)
    (genai : list N → list N → outcome (list N))
    (loads : list N → outcome json) (dumps : json → list N)
    (py_str : json → list N) (line : list N)
    (env : pipeline) (topic : option (list N)) (w : world) :
  topic = None ∨ topic = Some [] →
  strip line = [] →
  main lost genai loads dumps py_str (Returned line) env topic w
  = cleanup_previous_run (pl_fault env) lost w.
Proof.
  intros Htopic Hblank. unfold main, mbind, io_mbind, io_bind at 1.
  destruct (cleanup_previous_run (pl_fault env) lost w) as [[[]|exc] w1];
    [|done].
  destruct Htopic as [-> | ->]; unfold io_bind, io_lift; by rewrite Hblank.
Qed.

Lemma main_without_topic_only_cleans_witness :
  main nothing_lost genai_echo loads_two_sections dumps_braces py_str_none
    (Returned (py "   ")) pipeline_ok None world_previous_run
  = cleanup_previous_run (pl_fault pipeline_ok) nothing_lost world_previous_run.
Proof.
  apply (main_without_topic_only_cleans nothing_lost genai_echo
           loads_two_sections dumps_braces py_str_none (py "   ")
           pipeline_ok None world_previous_run).
  - by left.
  - reflexivity.
Defined.
